(** * vakt: attribute checkers, string conditions and the observable storage

    A shallow embedding of [vakt/checker.py], [vakt/conditions/string.py] and
    [vakt/storage/observable.py].

    Python values are modelled as the code uses them: [str] as [string],
    a list of pattern strings as [list string], the attributes of a policy as
    a finite map from attribute names to lists, and an exception as the
    [Raise] branch of [outcome]. *)

From Stdlib Require Import String Ascii ZArith List Bool Lia.
From stdpp Require Import base option list gmap strings.

Local Open Scope string_scope.

(** ** Outcomes of Python calls *)

(** The exceptions the modelled code can raise. *)
Inductive pyexn : Type :=
  | IndexError
  | TypeError
  | KeyError
  | InvalidPatternError.

(** A call either returns a value or raises. *)
Inductive outcome (E A : Type) : Type :=
  | Ok (a : A)
  | Raise (e : E).
Arguments Ok {E A} a.
Arguments Raise {E A} e.

(** ** Python string primitives *)

Module PyStr.

(** [needle in haystack]: [needle] occurs as a contiguous run. *)
Fixpoint contains (needle haystack : string) : bool :=
  String.prefix needle haystack ||
  match haystack with
  | EmptyString => false
  | String _ rest => contains needle rest
  end.

(** [s[0]]: the first character as a one-character string. *)
Definition first (s : string) : outcome pyexn string :=
  match s with
  | EmptyString => Raise IndexError
  | String c _ => Ok (String c EmptyString)
  end.

(** [s[-1]]: the last character as a one-character string. *)
Fixpoint last (s : string) : outcome pyexn string :=
  match s with
  | EmptyString => Raise IndexError
  | String c EmptyString => Ok (String c EmptyString)
  | String _ rest => last rest
  end.

(** [s[:-1]]: everything but the last character. *)
Fixpoint drop_last (s : string) : string :=
  match s with
  | EmptyString => EmptyString
  | String _ EmptyString => EmptyString
  | String c rest => String c (drop_last rest)
  end.

(** [s[1:-1]]: the slice from index 1 up to, not including, the last
    index; empty when [s] has fewer than two characters. *)
Definition strip_ends (s : string) : string :=
  match s with
  | EmptyString => EmptyString
  | String _ rest => drop_last rest
  end.

End PyStr.

(** ** Policies *)

(** What the checkers read of a policy: its two tags and its list-valued
    attributes ([subjects], [actions], [resources], ...). *)
Record Policy : Type := mkPolicy {
  start_tag : string;
  end_tag : string;
  attrs : gmap string (list string)
}.

(** [getattr(policy, field, [])] *)
Definition getattr (policy : Policy) (field : string) : list string :=
  default [] (attrs policy !! field).

(** ** String checkers *)

(** [StringChecker] is abstract in [compare]. *)
Class StringChecker : Type := {
  compare : string -> string -> bool
}.

(** [StringExactChecker.compare]: [needle == haystack] *)
Definition StringExactChecker : StringChecker :=
  {| compare needle haystack := String.eqb needle haystack |}.

(** [StringFuzzyChecker.compare]: [needle in haystack] *)
Definition StringFuzzyChecker : StringChecker :=
  {| compare needle haystack := PyStr.contains needle haystack |}.

Module StringCheckerImpl.
Section Fits.
Context (self : StringChecker).

(** The test of line 58,
    [policy.start_tag == item[0] and policy.end_tag == item[-1]]:
    [item[0]] is evaluated first and raises on the empty string; [and]
    evaluates [item[-1]] only when the first comparison holds. *)
Definition is_tagged (policy : Policy) (item : string) : outcome pyexn bool :=
  match PyStr.first item with
  | Raise e => Raise e
  | Ok c0 =>
      if String.eqb (start_tag policy) c0 then
        match PyStr.last item with
        | Raise e => Raise e
        | Ok c1 => Ok (String.eqb (end_tag policy) c1)
        end
      else Ok false
  end.

(** The body of the [for item in where] loop. *)
Fixpoint fits_loop (policy : Policy) (what : string) (where_ : list string)
  : outcome pyexn bool :=
  match where_ with
  | [] => Ok false
  | item :: rest =>
      match is_tagged policy item with
      | Raise e => Raise e
      | Ok tagged =>
          let item' := if tagged then PyStr.strip_ends item else item in
          if compare what item' then Ok true
          else fits_loop policy what rest
      end
  end.

(** [StringChecker.fits(self, policy, field, what)] *)
Definition fits (policy : Policy) (field what : string) : outcome pyexn bool :=
  fits_loop policy what (getattr policy field).

End Fits.
End StringCheckerImpl.

(** ** Conditions *)

(** The keys of a dict and the members of a set: [None], integers and
    strings. [True] and [False] are the keys [1] and [0], as [==] and
    [hash] make them. *)
Inductive pykey : Type :=
  | KNone
  | KInt (z : Z)
  | KStr (s : string).

#[global] Instance pykey_eq_dec : EqDecision pykey.
Proof. solve_decision. Defined.

#[global] Instance pykey_countable : Countable pykey.
Proof.
  refine (inj_countable'
            (fun k => match k with
                      | KNone => inl ()
                      | KInt z => inr (inl z)
                      | KStr s => inr (inr s)
                      end)
            (fun x => match x with
                      | inl _ => KNone
                      | inr (inl z) => KInt z
                      | inr (inr s) => KStr s
                      end) _).
  intros []; reflexivity.
Defined.

(** The Python values a condition can be handed: [None], booleans,
    integers, strings, lists, tuples, dicts and sets, and [VObject] for an
    instance of a class that defines none of [__len__], [__getitem__] and
    [__eq__]. [bool] is kept apart from [int] although Python compares
    [True == 1]. *)
#[local] Set Warnings "-register-all".
Inductive pyval : Type :=
  | VNone
  | VBool (b : bool)
  | VInt (z : Z)
  | VStr (s : string)
  | VList (items : list pyval)
  | VTuple (items : list pyval)
  | VDict (entries : gmap pykey pyval)
  | VSet (members : gset pykey)
  | VObject (id : nat).

Module PyVal.

(** [isinstance(v, str)] *)
Definition is_str (v : pyval) : bool :=
  match v with VStr _ => true | _ => false end.

(** [a == b] on these values. *)
Fixpoint eqb (a b : pyval) {struct a} : bool :=
  let fix all_eqb (xs ys : list pyval) {struct xs} : bool :=
    match xs, ys with
    | [], [] => true
    | x :: xs', y :: ys' => eqb x y && all_eqb xs' ys'
    | _, _ => false
    end in
  match a, b with
  | VNone, VNone => true
  | VBool x, VBool y => Bool.eqb x y
  | VBool x, VInt y => Z.eqb (Z.b2z x) y
  | VInt x, VBool y => Z.eqb x (Z.b2z y)
  | VInt x, VInt y => Z.eqb x y
  | VStr x, VStr y => String.eqb x y
  | VList xs, VList ys => all_eqb xs ys
  | VTuple xs, VTuple ys => all_eqb xs ys
  | VDict m, VDict m' =>
      Nat.eqb (size m) (size m')
      && map_fold (fun k v acc =>
                     acc && match m' !! k with
                            | Some v' => eqb v v'
                            | None => false
                            end) true m
  | VSet s, VSet s' => bool_decide (s = s')
  | VObject n, VObject n' => Nat.eqb n n'
  | _, _ => false
  end.

(** The characters of a string, each as a one-character [str]. *)
Fixpoint chars (s : string) : list pyval :=
  match s with
  | EmptyString => []
  | String c rest => VStr (String c EmptyString) :: chars rest
  end.

(** The items of a sequence, which integer indexing counts from 0;
    [None] for a value that is not a [str], a list or a tuple. *)
Definition items (v : pyval) : option (list pyval) :=
  match v with
  | VStr s => Some (chars s)
  | VList l | VTuple l => Some l
  | VNone | VBool _ | VInt _ | VDict _ | VSet _ | VObject _ => None
  end.

(** [len(v)]: the number of items of a sequence, of keys of a dict, of
    members of a set; [TypeError] on anything else. *)
Definition len (v : pyval) : outcome pyexn nat :=
  match v with
  | VDict m => Ok (size m)
  | VSet s => Ok (size s)
  | _ =>
      match items v with
      | Some l => Ok (length l)
      | None => Raise TypeError
      end
  end.

(** [v[i]] for a non-negative index [i]: the item at [i] of a sequence,
    the value under the key [i] of a dict; a set cannot be indexed. *)
Definition getitem (v : pyval) (i : nat) : outcome pyexn pyval :=
  match v with
  | VDict m =>
      match m !! KInt (Z.of_nat i) with
      | Some x => Ok x
      | None => Raise KeyError
      end
  | VSet _ => Raise TypeError
  | _ =>
      match items v with
      | Some l =>
          match l !! i with Some x => Ok x | None => Raise IndexError end
      | None => Raise TypeError
      end
  end.

End PyVal.

(** [StringEqualCondition]: the constructor checks its argument. *)
Record StringEqualCondition : Type := { equals : string }.

Module StringEqualConditionImpl.

(** [StringEqualCondition.__init__(self, equals)] *)
Definition init (equals_arg : pyval) : outcome pyexn StringEqualCondition :=
  match equals_arg with
  | VStr s => Ok {| equals := s |}
  | _ => Raise TypeError
  end.

(** [StringEqualCondition.satisfied(self, what, request)] *)
Definition satisfied {Request : Type} (self : StringEqualCondition)
    (what : pyval) (request : Request) : bool :=
  PyVal.is_str what && PyVal.eqb what (VStr (equals self)).

End StringEqualConditionImpl.

Module StringPairsEqualCondition.
Section Satisfied.
Context {Request : Type}.

(** One turn of the [for pair in what] loop: [Ok true] lets the loop go
    on, [Ok false] is the [return False] of lines 26, 28 and 30. *)
Definition check_pair (pr : pyval) : outcome pyexn bool :=
  match PyVal.len pr with
  | Raise e => Raise e
  | Ok n =>
      if negb (Nat.eqb n 2) then Ok false
      else
        match PyVal.getitem pr 0, PyVal.getitem pr 1 with
        | Ok p0, Ok p1 =>
            if negb (PyVal.is_str p0) && negb (PyVal.is_str p1) then Ok false
            else if negb (PyVal.eqb p0 p1) then Ok false
            else Ok true
        | Raise e, _ => Raise e
        | _, Raise e => Raise e
        end
  end.

Fixpoint satisfied_loop (pairs : list pyval) : outcome pyexn bool :=
  match pairs with
  | [] => Ok true
  | pr :: rest =>
      match check_pair pr with
      | Ok true => satisfied_loop rest
      | Ok false => Ok false
      | Raise e => Raise e
      end
  end.

(** [StringPairsEqualCondition.satisfied(self, what, request)] *)
Definition satisfied (what : pyval) (request : Request) : outcome pyexn bool :=
  match what with
  | VList pairs => satisfied_loop pairs
  | _ => Ok false
  end.

End Satisfied.
End StringPairsEqualCondition.

(** ** The regex checker and its pattern cache *)

(** The arguments of one [self.compile(i, start_tag, end_tag)] call, which
    are also the key [functools.lru_cache] files the result under. *)
Definition cache_key : Type := (string * string * string)%type.

(** What happens to the pattern cache, in the order it happens. *)
Inductive cache_event : Type :=
  | Hit (k : cache_key)           (* [k] was answered from the cache *)
  | CompileOk (k : cache_key)     (* the compiler ran for [k] and returned *)
  | CompileFail (k : cache_key)   (* the compiler ran for [k] and raised *)
  | Evict (k : cache_key).        (* the entry of [k] was dropped *)

#[global] Instance cache_event_eq_dec : EqDecision cache_event.
Proof. solve_decision. Defined.

Module Lru.
Section Lru.
Context {V : Type}.

(** The entries, most recently used first. *)
Definition t : Type := list (cache_key * V).

Definition keys (c : t) : list cache_key := c.*1.

Fixpoint find (k : cache_key) (c : t) : option V :=
  match c with
  | [] => None
  | (k', v) :: rest => if decide (k = k') then Some v else find k rest
  end.

Definition remove (k : cache_key) (c : t) : t :=
  filter (fun e => e.1 <> k) c.

(** A hit moves the entry to the front. *)
Definition touch (k : cache_key) (v : V) (c : t) : t :=
  (k, v) :: remove k c.

(** The key at the far end: the least recently used one. *)
Fixpoint oldest (c : t) : option cache_key :=
  match c with
  | [] => None
  | [(k, _)] => Some k
  | _ :: rest => oldest rest
  end.

(** Storing a fresh result: when the cache is full the entry at the far
    end makes room. *)
Definition store (maxsize : nat) (k : cache_key) (v : V) (c : t)
  : t * list cache_event :=
  if Nat.ltb (length c) maxsize then ((k, v) :: c, [])
  else
    match oldest c with
    | Some old => ((k, v) :: removelast c, [Evict old])
    | None => ((k, v) :: c, [])
    end.

End Lru.
Arguments t V : clear implicits.
End Lru.

(** A [RegexChecker] instance: the size given to [__init__], the cache
    behind [self.compile], and two ghost fields that record the compiler
    runs with the evictions, and what was handed to [log.exception]. *)
Record RegexChecker (Pattern : Type) : Type := mkRegexChecker {
  cache_size : nat;
  cache : Lru.t Pattern;
  trace : list cache_event;
  log : list string
}.
Arguments mkRegexChecker {Pattern}.
Arguments cache_size {Pattern}.
Arguments cache {Pattern}.
Arguments trace {Pattern}.
Arguments log {Pattern}.

Module RegexCheckerImpl.
Section Checker.
Context {Pattern : Type}.
(** [parser.compile_regex]; a raise is an [InvalidPatternError] or
    anything else the compiler may let through. *)
Context (compile_regex : string -> string -> string -> outcome pyexn Pattern).
(** The truth value of [re.match(pattern, what)]. *)
Context (re_match : Pattern -> string -> bool).

Local Abbreviation checker := (RegexChecker Pattern).

(** [RegexChecker.__init__(self, cache_size)] *)
Definition init (size : nat) : checker :=
  {| cache_size := size; cache := []; trace := []; log := [] |}.

Definition set_cache (c : Lru.t Pattern) (evs : list cache_event)
    (self : checker) : checker :=
  {| cache_size := cache_size self; cache := c;
     trace := trace self ++ evs; log := log self |}.

(** [self.compile(i, start_tag, end_tag)], that is
    [lru_cache(maxsize=cache_size)(compile_regex)]: with [maxsize] 0 the
    wrapper only calls through; otherwise a hit answers from the cache,
    and a miss calls the compiler and stores what it returns. A raise
    leaves the wrapper before anything is stored. *)
Definition compile (k : cache_key) (self : checker)
  : outcome pyexn Pattern * checker :=
  let '(i, st, et) := k in
  if Nat.eqb (cache_size self) 0 then
    match compile_regex i st et with
    | Ok pat => (Ok pat, set_cache (cache self) [CompileOk k] self)
    | Raise e => (Raise e, set_cache (cache self) [CompileFail k] self)
    end
  else
    match Lru.find k (cache self) with
    | Some pat => (Ok pat, set_cache (Lru.touch k pat (cache self)) [Hit k] self)
    | None =>
        match compile_regex i st et with
        | Ok pat =>
            let '(c, evs) := Lru.store (cache_size self) k pat (cache self) in
            (Ok pat, set_cache c (CompileOk k :: evs) self)
        | Raise e => (Raise e, set_cache (cache self) [CompileFail k] self)
        end
    end.

(** [log.exception('Error matching policy, because of failed regex %s
    compilation', i)] *)
Definition log_exception (i : string) (self : checker) : checker :=
  {| cache_size := cache_size self; cache := cache self; trace := trace self;
     log := log self ++
            ["Error matching policy, because of failed regex " ++ i
             ++ " compilation"] |}.

(** Line 33: [policy.start_tag not in i and policy.end_tag not in i] *)
Definition is_literal (policy : Policy) (i : string) : bool :=
  negb (PyStr.contains (start_tag policy) i)
  && negb (PyStr.contains (end_tag policy) i).

(** The [for i in where] loop of [fits]. *)
Fixpoint fits_loop (policy : Policy) (what : string) (where_ : list string)
    (self : checker) : outcome pyexn bool * checker :=
  match where_ with
  | [] => (Ok false, self)
  | i :: rest =>
      if is_literal policy i then
        if negb (String.eqb i what) then fits_loop policy what rest self
        else (Ok true, self)
      else
        match compile (i, start_tag policy, end_tag policy) self with
        | (Raise InvalidPatternError, self') =>
            (Ok false, log_exception i self')
        | (Raise e, self') => (Raise e, self')
        | (Ok pattern, self') =>
            if re_match pattern what then (Ok true, self')
            else fits_loop policy what rest self'
        end
  end.

(** [RegexChecker.fits(self, policy, field, what)] *)
Definition fits (policy : Policy) (field what : string) (self : checker)
  : outcome pyexn bool * checker :=
  fits_loop policy what (getattr policy field) self.

End Checker.
End RegexCheckerImpl.

(** ** The observable storage *)

(** The methods of the wrapped storage. *)
Inductive method : Type :=
  | MAdd | MUpdate | MDelete | MGet | MGetAll | MFindForInquiry.

Module ObservableMutationStorage.
Section Wrapper.
(** Policies, identifiers, inquiries and checkers as the storage takes
    them, the values it returns, the errors it raises, and [Env]: all the
    state the storage and the subscribers live in. *)
Context {Pol Uid Inq Chk Val Exc Env : Type}.
(** The subscribers. *)
Context {Obs : Type}.

(** The interface of the wrapped storage: each method runs in the
    environment, returns or raises, and leaves an environment behind. *)
Record Storage : Type := {
  st_add : Pol -> Env -> outcome Exc Val * Env;
  st_update : Pol -> Env -> outcome Exc Val * Env;
  st_delete : Uid -> Env -> outcome Exc Val * Env;
  st_get : Uid -> Env -> outcome Exc Val * Env;
  st_get_all : Val -> Val -> Env -> outcome Exc Val * Env;
  st_find_for_inquiry : Inq -> option Chk -> Env -> outcome Exc Val * Env
}.

(** What an observer of the calls can see, in order. *)
Inductive event : Type :=
  | Delegated (m : method)   (* a method of the wrapped storage ran *)
  | Notified                 (* [notify()] was entered *)
  | Invoked (o : Obs).       (* a subscriber was called *)

Record state : Type := mkState {
  env : Env;
  observers : list Obs;
  events : list event
}.

Context (storage : Storage).
(** Calling a subscriber, with no argument. *)
Context (run_observer : Obs -> Env -> outcome Exc unit * Env).

Definition record (ev : event) (e : Env) (s : state) : state :=
  {| env := e; observers := observers s; events := events s ++ [ev] |}.

(** Modelled from the spec: [Subject.notify] of [vakt/util.py], which is
    not among the sources. It invokes all current subscribers with no
    arguments, synchronously and in subscription order; a subscriber
    that fails ends the round and its error goes to the caller. *)
Fixpoint notify_loop (obs : list Obs) (s : state) : outcome Exc unit * state :=
  match obs with
  | [] => (Ok tt, s)
  | o :: rest =>
      let '(r, e) := run_observer o (env s) in
      let s' := record (Invoked o) e s in
      match r with
      | Ok _ => notify_loop rest s'
      | Raise x => (Raise x, s')
      end
  end.

Definition notify (s : state) : outcome Exc unit * state :=
  notify_loop (observers s) (record Notified (env s) s).

(** The shape shared by [add], [update] and [delete]:
    [res = self.storage.m(arg); self.notify(); return res]. *)
Definition mutate (m : method) (call : Env -> outcome Exc Val * Env)
    (s : state) : outcome Exc Val * state :=
  let '(r, e) := call (env s) in
  let s1 := record (Delegated m) e s in
  match r with
  | Raise x => (Raise x, s1)
  | Ok res =>
      match notify s1 with
      | (Ok _, s2) => (Ok res, s2)
      | (Raise x, s2) => (Raise x, s2)
      end
  end.

(** The shape shared by the read methods: [return self.storage.m(...)]. *)
Definition proxy (m : method) (call : Env -> outcome Exc Val * Env)
    (s : state) : outcome Exc Val * state :=
  let '(r, e) := call (env s) in (r, record (Delegated m) e s).

(** [ObservableMutationStorage.add(self, policy)] *)
Definition add (policy : Pol) := mutate MAdd (st_add storage policy).

(** [ObservableMutationStorage.update(self, policy)] *)
Definition update (policy : Pol) := mutate MUpdate (st_update storage policy).

(** [ObservableMutationStorage.delete(self, uid)] *)
Definition delete (uid : Uid) := mutate MDelete (st_delete storage uid).

(** [ObservableMutationStorage.get(self, uid)] *)
Definition get (uid : Uid) := proxy MGet (st_get storage uid).

(** [ObservableMutationStorage.get_all(self, limit, offset)] *)
Definition get_all (limit offset : Val) :=
  proxy MGetAll (st_get_all storage limit offset).

(** [ObservableMutationStorage.find_for_inquiry(self, inquiry, checker=None)] *)
Definition find_for_inquiry (inquiry : Inq) (checker : option Chk) :=
  proxy MFindForInquiry (st_find_for_inquiry storage inquiry checker).

(** The subscribers of a list, called one after the other from the
    environment [e], all return, and the last one leaves [e']. *)
Inductive all_return : Env -> list Obs -> Env -> Prop :=
  | all_return_nil (e : Env) : all_return e [] e
  | all_return_cons (e : Env) (o : Obs) (u : unit) (e1 : Env)
      (obs : list Obs) (e2 : Env) :
      run_observer o e = (Ok u, e1) ->
      all_return e1 obs e2 ->
      all_return e (o :: obs) e2.

(** A mutating method [run] wrapped around [call]. When [call] raises,
    the error goes through and nothing else happens. When it returns,
    [notify()] is entered once, after the call, and the subscribers run
    in order, each in the environment the one before left: either all of
    them return, and [run] returns the result of [call]; or one of them
    raises, no later one runs, and [run] raises that error in place of
    the result. *)
Definition notifies_once (m : method) (call : Env -> outcome Exc Val * Env)
    (run : state -> outcome Exc Val * state) (s : state) : Prop :=
  match call (env s) with
  | (Raise x, e) => run s = (Raise x, record (Delegated m) e s)
  | (Ok res, e) =>
      (exists e1,
         all_return e (observers s) e1
         /\ run s
            = (Ok res,
               {| env := e1; observers := observers s;
                  events := (events s ++ Delegated m :: Notified
                               :: map Invoked (observers s))%list |}))
      \/ (exists called o rest e1 x e2,
            observers s = (called ++ o :: rest)%list
            /\ all_return e called e1
            /\ run_observer o e1 = (Raise x, e2)
            /\ run s
               = (Raise x,
                  {| env := e2; observers := observers s;
                     events := (events s ++ Delegated m :: Notified
                                  :: map Invoked (called ++ [o]))%list |}))
  end.

(** A mutating method that returns the result of [call] whenever [call]
    returns. *)
Definition returns_result (call : Env -> outcome Exc Val * Env)
    (run : state -> outcome Exc Val * state) (s : state) : Prop :=
  match call (env s) with
  | (Ok res, _) => (run s).1 = Ok res
  | (Raise _, _) => True
  end.

(** A read method [run] that only hands [call] through: same outcome,
    the environment [call] leaves, the same subscribers, and no event but
    the call itself. *)
Definition delegates (m : method) (call : Env -> outcome Exc Val * Env)
    (run : state -> outcome Exc Val * state) (s : state) : Prop :=
  (run s).1 = (call (env s)).1
  /\ env (run s).2 = (call (env s)).2
  /\ observers (run s).2 = observers s
  /\ events (run s).2 = (events s ++ [Delegated m])%list.

End Wrapper.
Arguments Storage : clear implicits.
Arguments event : clear implicits.
Arguments state : clear implicits.
End ObservableMutationStorage.

(** ** Regular expressions: a fragment of Python's [re] *)

Module Re.

(** Patterns of the fragment: characters, [.], bracketed sets, the two
    anchors, sequence, alternation and repetition. [r?] is
    [Alt r Eps] and [r+] is [Cat r (Star r)]. *)
Inductive regex : Type :=
  | Eps
  | Chr (c : ascii)
  | AnyChar
  | CharSet (negated : bool) (ranges : list (ascii * ascii))
  | Bol
  | Eol
  | Cat (r1 r2 : regex)
  | Alt (r1 r2 : regex)
  | Star (r : regex).

Definition newline : ascii := "010"%char.
Definition backslash : ascii := "092"%char.

Definition in_range (c : ascii) (rg : ascii * ascii) : bool :=
  (nat_of_ascii rg.1 <=? nat_of_ascii c)%nat
  && (nat_of_ascii c <=? nat_of_ascii rg.2)%nat.

Definition in_set (negated : bool) (ranges : list (ascii * ascii))
    (c : ascii) : bool :=
  xorb negated (existsb (in_range c) ranges).

(** [$] holds at the very end and just before a final newline. *)
Definition at_end (s : string) : bool :=
  match s with
  | EmptyString => true
  | String c EmptyString => Ascii.eqb c newline
  | _ => false
  end.

(** The turns of a repetition: stop here and go on with [k], or let the
    body [m] match once more. A turn must consume something, which bounds
    the turns by the length of the subject. *)
Fixpoint turns (m : bool -> string -> (bool -> string -> bool) -> bool)
    (k : bool -> string -> bool) (fuel : nat) (b : bool) (s : string) : bool :=
  k b s ||
  match fuel with
  | O => false
  | S fuel' =>
      m b s (fun b' s' =>
               Nat.ltb (String.length s') (String.length s)
               && turns m k fuel' b' s')
  end.

(** Backtracking matcher in continuation style: [matches r b s k] tries
    [r] on a prefix of [s] and hands the rest to [k]; [b] says whether
    the position is the start of the subject. *)
Fixpoint matches (r : regex) (at_start : bool) (s : string)
    (k : bool -> string -> bool) {struct r} : bool :=
  match r with
  | Eps => k at_start s
  | Chr c =>
      match s with
      | String c' s' => Ascii.eqb c c' && k false s'
      | EmptyString => false
      end
  | AnyChar =>
      match s with
      | String c' s' => negb (Ascii.eqb c' newline) && k false s'
      | EmptyString => false
      end
  | CharSet negated ranges =>
      match s with
      | String c' s' => in_set negated ranges c' && k false s'
      | EmptyString => false
      end
  | Bol => at_start && k at_start s
  | Eol => at_end s && k at_start s
  | Cat r1 r2 => matches r1 at_start s (fun b s' => matches r2 b s' k)
  | Alt r1 r2 => matches r1 at_start s k || matches r2 at_start s k
  | Star r1 => turns (matches r1) k (String.length s) at_start s
  end.

(** What it is for a pattern to match: [derives r b s rest b'] says that
    [r] matches the part of [s] that ends where [rest] begins; [b] and [b']
    say whether these two positions are the start of the subject. *)
Inductive derives : regex -> bool -> string -> string -> bool -> Prop :=
  | d_eps b s : derives Eps b s s b
  | d_chr c b s : derives (Chr c) b (String c s) s false
  | d_any c b s :
      c <> newline -> derives AnyChar b (String c s) s false
  | d_set negated ranges c b s :
      in_set negated ranges c = true ->
      derives (CharSet negated ranges) b (String c s) s false
  | d_bol s : derives Bol true s s true
  | d_eol b s : at_end s = true -> derives Eol b s s b
  | d_cat r1 r2 b s b1 s1 b2 s2 :
      derives r1 b s s1 b1 -> derives r2 b1 s1 s2 b2 ->
      derives (Cat r1 r2) b s s2 b2
  | d_alt_l r1 r2 b s b' s' :
      derives r1 b s s' b' -> derives (Alt r1 r2) b s s' b'
  | d_alt_r r1 r2 b s b' s' :
      derives r2 b s s' b' -> derives (Alt r1 r2) b s s' b'
  | d_star_stop r b s : derives (Star r) b s s b
  | d_star_turn r b s b1 s1 b2 s2 :
      derives r b s s1 b1 -> derives (Star r) b1 s1 s2 b2 ->
      derives (Star r) b s s2 b2.

(** The truth value of [re.match(pattern, what)]: the pattern matches
    at the start of [what]; what follows the match is not looked at. *)
Definition re_match (pattern : regex) (what : string) : bool :=
  matches pattern true what (fun _ _ => true).

(** *** Reading the source of a pattern *)

Definition is_alnum (c : ascii) : bool :=
  let n := nat_of_ascii c in
  ((48 <=? n) && (n <=? 57) || (65 <=? n) && (n <=? 90)
   || (97 <=? n) && (n <=? 122))%nat.

(** The inside of [[...]], after the optional [^]; [first] is set at
    the first member, where a closing bracket is a member and not the
    end. *)
Fixpoint parse_set_items (first : bool) (acc : list (ascii * ascii))
    (s : string) : option (list (ascii * ascii) * string) :=
  match s with
  | EmptyString => None
  | String a rest =>
      if Ascii.eqb a "]" && negb first then Some (acc, rest)
      else if Ascii.eqb a backslash then
        match rest with
        | EmptyString => None
        | String c rest' =>
            if is_alnum c then None
            else parse_set_items false (acc ++ [(c, c)])%list rest'
        end
      else
        match rest with
        | String dash (String b rest') =>
            if Ascii.eqb dash "-" then
              if Ascii.eqb b "]" then Some ((acc ++ [(a, a); (dash, dash)])%list, rest')
              else if (nat_of_ascii a <=? nat_of_ascii b)%nat
                   then parse_set_items false (acc ++ [(a, b)])%list rest'
                   else None
            else parse_set_items false (acc ++ [(a, a)])%list rest
        | _ => parse_set_items false (acc ++ [(a, a)])%list rest
        end
  end%char.

Definition parse_set (s : string) : option (regex * string) :=
  match s with
  | String c rest =>
      if Ascii.eqb c "^"%char then
        '(ranges, rest') ← parse_set_items true [] rest;
        Some (CharSet true ranges, rest')
      else
        '(ranges, rest') ← parse_set_items true [] s;
        Some (CharSet false ranges, rest')
  | EmptyString => None
  end.

(** One repetition operator after an atom, if any. *)
Definition parse_postfix (atom : regex) (s : string) : regex * string :=
  match s with
  | String c rest =>
      if Ascii.eqb c "?" then (Alt atom Eps, rest)
      else if Ascii.eqb c "*" then (Star atom, rest)
      else if Ascii.eqb c "+" then (Cat atom (Star atom), rest)
      else (atom, s)
  | EmptyString => (atom, s)
  end%char.

Definition one_of (cs : string) (c : ascii) : bool :=
  existsb (Ascii.eqb c) (list_ascii_of_string cs).

(** Recursive descent over alternations, sequences and atoms. What the
    fragment does not cover (counted repetition, extension groups, the
    escapes that name a class) is refused. *)
Fixpoint parse_alt (fuel : nat) (s : string) : option (regex * string) :=
  match fuel with
  | O => None
  | S fuel' =>
      '(r1, s1) ← parse_cat fuel' s;
      match s1 with
      | String c s2 =>
          if Ascii.eqb c "|" then
            '(r2, s3) ← parse_alt fuel' s2; Some (Alt r1 r2, s3)
          else Some (r1, s1)
      | EmptyString => Some (r1, s1)
      end
  end%char
with parse_cat (fuel : nat) (s : string) : option (regex * string) :=
  match fuel with
  | O => None
  | S fuel' =>
      if match s with
         | EmptyString => true
         | String c _ => one_of "|)" c
         end
      then Some (Eps, s)
      else
        '(a, s1) ← parse_atom fuel' s;
        let '(p, s2) := parse_postfix a s1 in
        '(r, s3) ← parse_cat fuel' s2;
        Some (Cat p r, s3)
  end
with parse_atom (fuel : nat) (s : string) : option (regex * string) :=
  match fuel with
  | O => None
  | S fuel' =>
      match s with
      | EmptyString => None
      | String c s1 =>
          if Ascii.eqb c "(" then
            '(r, s2) ← parse_alt fuel' s1;
            match s2 with
            | String c' s3 => if Ascii.eqb c' ")" then Some (r, s3) else None
            | EmptyString => None
            end
          else if Ascii.eqb c "[" then parse_set s1
          else if Ascii.eqb c "." then Some (AnyChar, s1)
          else if Ascii.eqb c "^" then Some (Bol, s1)
          else if Ascii.eqb c "$" then Some (Eol, s1)
          else if Ascii.eqb c backslash then
            match s1 with
            | String c' s2 => if is_alnum c' then None else Some (Chr c', s2)
            | EmptyString => None
            end
          else if one_of "?*+{}" c then None
          else Some (Chr c, s1)
      end
  end%char.

(** The whole source must be read. *)
Definition parse (source : string) : option regex :=
  match parse_alt (3 * String.length source + 3) source with
  | Some (r, EmptyString) => Some r
  | _ => None
  end.

(** A run of characters that stand for themselves. *)
Fixpoint literal (s : string) : regex :=
  match s with
  | EmptyString => Eps
  | String c rest => Cat (Chr c) (literal rest)
  end.

End Re.

(** ** The pattern compiler *)

Module Parser.

(** A pattern item cut at its tags: text that stands for itself, and the
    source of a regular expression that stood between two tags. *)
Inductive segment : Type :=
  | Lit (text : string)
  | Rx (source : string).

Definition tag_char (tag : string) : option ascii :=
  match tag with
  | String c EmptyString => Some c
  | _ => None
  end.

Definition snoc (s : string) (c : ascii) : string :=
  s ++ String c EmptyString.

(** Cutting at the tags. [depth] counts the start tags still open and
    [cur] holds the segment being read; an end tag with nothing open,
    or a start tag left open at the end, is unbalanced. *)
Fixpoint segments (sc ec : ascii) (depth : nat) (cur : string)
    (phrase : string) : option (list segment) :=
  match phrase with
  | EmptyString =>
      match depth with
      | O => Some [Lit cur]
      | S _ => None
      end
  | String c rest =>
      match depth with
      | O =>
          if Ascii.eqb c sc then (cons (Lit cur)) <$> segments sc ec 1 EmptyString rest
          else if Ascii.eqb c ec then None
          else segments sc ec 0 (snoc cur c) rest
      | S d =>
          if Ascii.eqb c sc then segments sc ec (S depth) (snoc cur c) rest
          else if Ascii.eqb c ec then
            match d with
            | O => (cons (Rx cur)) <$> segments sc ec 0 EmptyString rest
            | S _ => segments sc ec d (snoc cur c) rest
            end
          else segments sc ec depth (snoc cur c) rest
      end
  end.

Fixpoint regex_of (segs : list segment) : option Re.regex :=
  match segs with
  | [] => Some Re.Eps
  | Lit text :: rest => Re.Cat (Re.literal text) <$> regex_of rest
  | Rx source :: rest =>
      r ← Re.parse source; Re.Cat r <$> regex_of rest
  end.

(** Modelled from the spec: [compile_regex] of [vakt/parser.py], which
    is not among the sources. It turns a tagged pattern source into a
    matcher and fails with an invalid-pattern error when the tags are
    unbalanced or the text between tags is not a valid regular
    expression. Text outside the tags stands for itself. The matcher
    takes a value only as a whole, as the examples of the spec and the
    docstring of [RegexChecker] have it (['Dogger'] does not fit
    [<Dog[se]?>]): the pattern is closed by an end anchor. Tags are single
    characters. *)
Definition compile_regex (phrase start_delimiter end_delimiter : string)
  : outcome pyexn Re.regex :=
  match tag_char start_delimiter, tag_char end_delimiter with
  | Some sc, Some ec =>
      match segments sc ec 0 EmptyString phrase ≫= regex_of with
      | Some r => Ok (Re.Cat Re.Bol (Re.Cat r Re.Eol))
      | None => Raise InvalidPatternError
      end
  | _, _ => Raise InvalidPatternError
  end.

End Parser.

(** ** What the spec says, in its own terms *)

Module Spec.

(** [needle] occurs somewhere in [haystack]. *)
Definition occurs_in (needle haystack : string) : Prop :=
  exists before after, haystack = before ++ needle ++ after.

(** A pattern item is literal for a policy when neither tag occurs
    anywhere in it. *)
Definition literal_item (policy : Policy) (i : string) : Prop :=
  ~ occurs_in (start_tag policy) i /\ ~ occurs_in (end_tag policy) i.

Definition first_char (s : string) : option ascii :=
  head (list_ascii_of_string s).

Definition last_char (s : string) : option ascii :=
  last (list_ascii_of_string s).

(** [s] without its first and its last character. *)
Definition without_ends (s : string) : string :=
  string_of_list_ascii (removelast (tail (list_ascii_of_string s))).

(** The item a string checker compares with: stripped of its first and
    last characters when the first equals the start tag and the last
    equals the end tag, unchanged otherwise. *)
Definition stripped (policy : Policy) (item : string) : string :=
  match first_char item, last_char item with
  | Some a, Some b =>
      if decide (start_tag policy = String a EmptyString
                 /\ end_tag policy = String b EmptyString)
      then without_ends item else item
  | _, _ => item
  end.

(** Some item of the field, stripped, compares well with [what]. *)
Definition some_item_fits (self : StringChecker) (policy : Policy)
    (field what : string) : Prop :=
  exists item, In item (getattr policy field)
               /\ compare what (stripped policy item) = true.

(** The word [sequence] of the spec, for the data the condition is given:
    a list or a tuple, with its items. *)
Definition sequence (v : pyval) (l : list pyval) : Prop :=
  v = VList l \/ v = VTuple l.

(** The condition as the spec words it: a sequence of two-element
    sequences, each of two equal strings. *)
Definition sequence_of_equal_pairs (what : pyval) : Prop :=
  exists ps,
    sequence what ps
    /\ Forall (fun p => exists s, sequence p [VStr s; VStr s]) ps.

(** [pair_of p x y]: [p] has exactly two items, [x] under the index 0 and
    [y] under the index 1. These are the two-element lists and tuples,
    the strings of two characters, and the dicts with the keys 0 and 1
    and no other. *)
Inductive pair_of : pyval -> pyval -> pyval -> Prop :=
  | pair_list x y : pair_of (VList [x; y]) x y
  | pair_tuple x y : pair_of (VTuple [x; y]) x y
  | pair_str c d :
      pair_of (VStr (String c (String d EmptyString)))
        (VStr (String c EmptyString)) (VStr (String d EmptyString))
  | pair_dict x y : pair_of (VDict {[ KInt 0 := x; KInt 1 := y ]}) x y.

(** A pair of one string twice. *)
Definition equal_string_pair (p : pyval) : Prop :=
  exists s, pair_of p (VStr s) (VStr s).

(** A list of such pairs. *)
Definition equal_string_pairs (what : pyval) : Prop :=
  exists ps, what = VList ps /\ Forall equal_string_pair ps.

(** The length of a value that has one. *)
Definition size_of (p : pyval) : option nat :=
  match p with
  | VStr s => Some (String.length s)
  | VList l | VTuple l => Some (List.length l)
  | VDict m => Some (size m)
  | VSet s => Some (size s)
  | VNone | VBool _ | VInt _ | VObject _ => None
  end.

(** The three ways a pair can be wrong: its length, an element that is
    not a string, two strings that differ. *)
Definition wrong_length (p : pyval) : Prop :=
  exists n, size_of p = Some n /\ n <> 2.

Definition has_non_string (p : pyval) : Prop :=
  exists x y, pair_of p x y
              /\ ((forall s, x <> VStr s) \/ (forall s, y <> VStr s)).

Definition unequal_elements (p : pyval) : Prop :=
  exists a b, pair_of p (VStr a) (VStr b) /\ a <> b.

Definition bad_pair (p : pyval) : Prop :=
  wrong_length p \/ has_non_string p \/ unequal_elements p.

(** The values [len] is not defined on. *)
Definition no_length (p : pyval) : Prop :=
  p = VNone \/ (exists b, p = VBool b) \/ (exists z, p = VInt z)
  \/ (exists n, p = VObject n).

(** A set of two members: it has the length of a pair and no items. *)
Definition pair_set (p : pyval) : Prop :=
  exists s, p = VSet s /\ size s = 2.

(** A dict of two keys that lacks the key 0 or the key 1. *)
Definition unkeyed_dict (p : pyval) : Prop :=
  exists m, p = VDict m /\ size m = 2
            /\ (m !! KInt 0 = None \/ m !! KInt 1 = None).

(** The event is a run of the compiler for the key. *)
Definition runs_compiler (e : cache_event) (k : cache_key) : Prop :=
  e = CompileOk k \/ e = CompileFail k.

(** Between two compiler runs for one key, the key was evicted. *)
Definition compiled_once_until_evicted (tr : list cache_event) : Prop :=
  forall (t1 t2 t3 : list cache_event) e1 e2 k,
    tr = (t1 ++ e1 :: t2 ++ e2 :: t3)%list ->
    runs_compiler e1 k -> runs_compiler e2 k -> In (Evict k) t2.

(** The same, for a first run that returned a pattern. *)
Definition cached_until_evicted (tr : list cache_event) : Prop :=
  forall (t1 t2 t3 : list cache_event) e2 k,
    tr = (t1 ++ CompileOk k :: t2 ++ e2 :: t3)%list ->
    runs_compiler e2 k -> In (Evict k) t2.

End Spec.

(** ** Concrete inputs *)

Module Examples.

Definition policy_with (items : list string) : Policy :=
  {| start_tag := "<"; end_tag := ">"; attrs := {[ "subjects" := items ]} |}.

(** The policy of the [RegexChecker] docstring. *)
Definition dog_policy : Policy := policy_with ["<Dog[se]?>"].

(** A start tag that is never closed, then a good pattern. *)
Definition broken_policy : Policy := policy_with ["<a"; "<Dog[se]?>"].

Definition literal_policy : Policy := policy_with ["Max"; "Nina"].

Definition empty_item_policy : Policy := policy_with [EmptyString; "x"].

Definition tagged_policy : Policy := policy_with ["<sunny>"; "rain"].

(** A working storage over a counter: the mutating methods return the
    counter and bump it, the read methods return it. *)
Definition counting_storage
  : ObservableMutationStorage.Storage unit unit unit unit nat string nat :=
  {| ObservableMutationStorage.st_add := fun _ n => (Ok n, S n);
     ObservableMutationStorage.st_update := fun _ n => (Ok n, S n);
     ObservableMutationStorage.st_delete := fun _ n => (Ok n, S n);
     ObservableMutationStorage.st_get := fun _ n => (Ok n, n);
     ObservableMutationStorage.st_get_all := fun _ _ n => (Ok n, n);
     ObservableMutationStorage.st_find_for_inquiry := fun _ _ n => (Ok n, n) |}.

(** A storage whose every call fails. *)
Definition failing_storage
  : ObservableMutationStorage.Storage unit unit unit unit nat string nat :=
  {| ObservableMutationStorage.st_add := fun _ n => (Raise "down", n);
     ObservableMutationStorage.st_update := fun _ n => (Raise "down", n);
     ObservableMutationStorage.st_delete := fun _ n => (Raise "down", n);
     ObservableMutationStorage.st_get := fun _ n => (Raise "down", n);
     ObservableMutationStorage.st_get_all := fun _ _ n => (Raise "down", n);
     ObservableMutationStorage.st_find_for_inquiry :=
       fun _ _ n => (Raise "down", n) |}.

(** Subscribers are named by booleans: [true] returns, [false] raises. *)
Definition run_bool_observer (o : bool) (n : nat)
  : outcome string unit * nat :=
  if o then (Ok tt, n) else (Raise "observer failed", n).

Definition start_state (obs : list bool)
  : ObservableMutationStorage.state nat bool :=
  {| ObservableMutationStorage.env := 0;
     ObservableMutationStorage.observers := obs;
     ObservableMutationStorage.events := [] |}.

End Examples.

(** ** Ghost definitions the properties are stated with *)

Module Ghost.

(** What one turn of the pairs loop computes on a value that has items. *)
Definition good_pair (p : pyval) : bool :=
  match PyVal.items p with
  | Some [x; y] => (PyVal.is_str x || PyVal.is_str y) && PyVal.eqb x y
  | _ => false
  end.

(** The key an event used with success: a hit or a compilation that
    returned. *)
Definition used (e : cache_event) : option cache_key :=
  match e with
  | Hit k | CompileOk k => Some k
  | CompileFail _ | Evict _ => None
  end.

(** The keys used with success, oldest first. *)
Definition uses (tr : list cache_event) : list cache_key := omap used tr.

(** The key an event answers a request for: a hit or a compiler run. *)
Definition asked_key (e : cache_event) : option cache_key :=
  match e with
  | Hit k | CompileOk k | CompileFail k => Some k
  | Evict _ => None
  end.

(** The keys [self.compile] was asked for, oldest first. *)
Definition asked (tr : list cache_event) : list cache_key := omap asked_key tr.

(** The events that answer a request, in order: the trace without its
    evictions. *)
Definition answered (tr : list cache_event) : list cache_event :=
  List.filter (fun e => match e with Evict _ => false | _ => true end) tr.

(** A list without its repetitions, each key kept where it comes first. *)
Fixpoint distinct (l : list cache_key) : list cache_key :=
  match l with
  | [] => []
  | k :: rest => k :: filter (fun k' => k' <> k) (distinct rest)
  end.

(** The distinct keys used, the most recently used first. *)
Definition recent (tr : list cache_event) : list cache_key :=
  distinct (rev (uses tr)).

(** The keys that have an entry after a trace: a compilation that
    returned makes one, an eviction drops one. *)
Definition step_entries (held : list cache_key) (e : cache_event)
  : list cache_key :=
  match e with
  | CompileOk k => k :: held
  | Evict k => filter (fun k' => k' <> k) held
  | Hit _ | CompileFail _ => held
  end.

Definition entries (tr : list cache_event) : list cache_key :=
  fold_left step_entries tr [].

(** The cache holds the [cache_size] most recently used keys, in that
    order. *)
Definition lru_order {Pattern : Type} (self : RegexChecker Pattern) : Prop :=
  Lru.keys (cache self) = take (cache_size self) (recent (trace self)).

(** The keys of the cache are the keys the trace leaves with an entry. *)
Definition holds_entries {Pattern : Type} (self : RegexChecker Pattern) : Prop :=
  forall k, In k (Lru.keys (cache self)) <-> In k (entries (trace self)).

Definition cache_inv {Pattern : Type} (self : RegexChecker Pattern) : Prop :=
  lru_order self /\ holds_entries self
  /\ Spec.cached_until_evicted (trace self).

Section Checker.
Context {Pattern : Type}.
Context (compile_regex : string -> string -> string -> outcome pyexn Pattern).
Context (re_match : Pattern -> string -> bool).

(** Every entry of the cache is what the compiler returns for its key. *)
Definition cache_sound (self : RegexChecker Pattern) : Prop :=
  Forall (fun e : cache_key * Pattern =>
            compile_regex e.1.1.1 e.1.1.2 e.1.2 = Ok e.2) (cache self).

(** The states a checker made with [cache_size = size] goes through, one
    [fits] call after the other. *)
Inductive reachable (size : nat) : RegexChecker Pattern -> Prop :=
  | reach_init : reachable size (RegexCheckerImpl.init size)
  | reach_fits self policy field what :
      reachable size self ->
      reachable size
        (RegexCheckerImpl.fits compile_regex re_match policy field what self).2.

(** The triples one scan of [fits] hands to [self.compile], in the order
    of the items: those of the tagged items the scan comes to. It ends at
    a literal item equal to the value (line 37), at a pattern the compiler
    raises on (lines 40 to 42) and at a pattern that matches (line 44).
    The cache has no part in it. *)
Fixpoint requests (policy : Policy) (what : string) (items : list string)
  : list cache_key :=
  match items with
  | [] => []
  | i :: rest =>
      if RegexCheckerImpl.is_literal policy i then
        if String.eqb i what then [] else requests policy what rest
      else
        (i, start_tag policy, end_tag policy)
        :: match compile_regex i (start_tag policy) (end_tag policy) with
           | Ok pattern =>
               if re_match pattern what then []
               else requests policy what rest
           | Raise _ => []
           end
  end.

(** The compiler returns a pattern for the triple. *)
Definition compiles (k : cache_key) : bool :=
  match compile_regex k.1.1 k.1.2 k.2 with
  | Ok _ => true
  | Raise _ => false
  end.

(** The triples that compile among those requested, the most recently
    requested first, each once. *)
Definition recent_of (reqs : list cache_key) : list cache_key :=
  distinct (rev (List.filter compiles reqs)).

(** What a cache of [size] entries kept by recency of use answers a
    request for [k] with, after the requests [before]: a hit when [k] is
    among the [size] most recently requested triples that compile, a run
    of the compiler otherwise. *)
Definition answer (size : nat) (before : list cache_key) (k : cache_key)
  : cache_event :=
  if bool_decide (k ∈ take size (recent_of before)) then Hit k
  else if compiles k then CompileOk k else CompileFail k.

Fixpoint answers (size : nat) (before reqs : list cache_key)
  : list cache_event :=
  match reqs with
  | [] => []
  | k :: rest => answer size before k :: answers size (before ++ [k])%list rest
  end.

(** What holds of a checker between two calls of [self.compile]. *)
Definition checker_inv (self : RegexChecker Pattern) : Prop :=
  cache_sound self
  /\ uses (trace self) = List.filter compiles (asked (trace self))
  /\ (0 < cache_size self -> cache_inv self)
  /\ (cache_size self = 0 -> cache self = []).

(** One call of [fits]: the policy, the field and the value. *)
Definition call : Type := (Policy * string * string)%type.

(** The checker after a sequence of [fits] calls. *)
Fixpoint after_calls (calls : list call) (self : RegexChecker Pattern)
  : RegexChecker Pattern :=
  match calls with
  | [] => self
  | (policy, field, what) :: rest =>
      after_calls rest
        (RegexCheckerImpl.fits compile_regex re_match policy field what
           self).2
  end.

(** The triples a sequence of [fits] calls hands to [self.compile], read
    off the policies and the values. A missing field has no items. *)
Definition requests_of (calls : list call) : list cache_key :=
  flat_map (fun c : call =>
              requests c.1.1 c.2 (default [] (attrs c.1.1 !! c.1.2)))
           calls.

End Checker.

End Ghost.

(** ** Callers of the observable storage *)

Module Calls.
Section Calls.
Context {Pol Uid Inq Chk Val Exc Env Obs : Type}.
Context (storage : ObservableMutationStorage.Storage Pol Uid Inq Chk Val Exc Env).
Context (run_observer : Obs -> Env -> outcome Exc unit * Env).

(** One call of a method of the wrapper, with its arguments. *)
Inductive call : Type :=
  | CAdd (policy : Pol)
  | CUpdate (policy : Pol)
  | CDelete (uid : Uid)
  | CGet (uid : Uid)
  | CGetAll (limit offset : Val)
  | CFindForInquiry (inquiry : Inq) (checker : option Chk).

Definition method_of (c : call) : method :=
  match c with
  | CAdd _ => MAdd
  | CUpdate _ => MUpdate
  | CDelete _ => MDelete
  | CGet _ => MGet
  | CGetAll _ _ => MGetAll
  | CFindForInquiry _ _ => MFindForInquiry
  end.

Definition run_call (c : call) (s : ObservableMutationStorage.state Env Obs)
  : outcome Exc Val * ObservableMutationStorage.state Env Obs :=
  match c with
  | CAdd policy => ObservableMutationStorage.add storage run_observer policy s
  | CUpdate policy =>
      ObservableMutationStorage.update storage run_observer policy s
  | CDelete uid => ObservableMutationStorage.delete storage run_observer uid s
  | CGet uid => ObservableMutationStorage.get storage uid s
  | CGetAll limit offset =>
      ObservableMutationStorage.get_all storage limit offset s
  | CFindForInquiry inquiry checker =>
      ObservableMutationStorage.find_for_inquiry storage inquiry checker s
  end.

(** A caller that makes the calls one after the other, and goes on after
    a call that raised. *)
Fixpoint run_calls (cs : list call) (s : ObservableMutationStorage.state Env Obs)
  : ObservableMutationStorage.state Env Obs :=
  match cs with
  | [] => s
  | c :: rest => run_calls rest (run_call c s).2
  end.

(** A storage that keeps, beside the environment of [inner], the list of
    the calls it was given, each with its arguments, and answers as
    [inner] does. *)
Definition recording
    (inner : ObservableMutationStorage.Storage Pol Uid Inq Chk Val Exc Env)
  : ObservableMutationStorage.Storage Pol Uid Inq Chk Val Exc
      (list call * Env) :=
  let keep (c : call) (run : Env -> outcome Exc Val * Env)
      (le : list call * Env) : outcome Exc Val * (list call * Env) :=
    let '(r, e) := run le.2 in (r, ((le.1 ++ [c])%list, e)) in
  {| ObservableMutationStorage.st_add := fun policy =>
       keep (CAdd policy) (ObservableMutationStorage.st_add inner policy);
     ObservableMutationStorage.st_update := fun policy =>
       keep (CUpdate policy)
         (ObservableMutationStorage.st_update inner policy);
     ObservableMutationStorage.st_delete := fun uid =>
       keep (CDelete uid) (ObservableMutationStorage.st_delete inner uid);
     ObservableMutationStorage.st_get := fun uid =>
       keep (CGet uid) (ObservableMutationStorage.st_get inner uid);
     ObservableMutationStorage.st_get_all := fun limit offset =>
       keep (CGetAll limit offset)
         (ObservableMutationStorage.st_get_all inner limit offset);
     ObservableMutationStorage.st_find_for_inquiry := fun inquiry checker =>
       keep (CFindForInquiry inquiry checker)
         (ObservableMutationStorage.st_find_for_inquiry inner inquiry
            checker) |}.

End Calls.

(** The three methods that change the wrapped storage. *)
Definition is_mutation (m : method) : bool :=
  match m with
  | MAdd | MUpdate | MDelete => true
  | MGet | MGetAll | MFindForInquiry => false
  end.

(** [notify()] is only entered right after a mutating method of the
    wrapped storage ran. *)
Definition notified_after_mutation {Obs : Type}
    (evs : list (ObservableMutationStorage.event Obs)) : Prop :=
  forall pre post,
    evs = (pre ++ ObservableMutationStorage.Notified :: post)%list ->
    exists pre' m,
      pre = (pre' ++ [ObservableMutationStorage.Delegated m])%list
      /\ is_mutation m = true.

(** A subscriber only runs right after [notify()] was entered or after
    another subscriber. *)
Definition invoked_in_round {Obs : Type}
    (evs : list (ObservableMutationStorage.event Obs)) : Prop :=
  forall pre post o,
    evs = (pre ++ ObservableMutationStorage.Invoked o :: post)%list ->
    exists pre' e,
      pre = (pre' ++ [e])%list
      /\ (e = ObservableMutationStorage.Notified
          \/ exists o', e = ObservableMutationStorage.Invoked o').

(** What must come just before an event for the two orderings to go on
    holding. *)
Definition follows {Obs : Type}
    (prev : list (ObservableMutationStorage.event Obs))
    (e : ObservableMutationStorage.event Obs) : Prop :=
  match e with
  | ObservableMutationStorage.Delegated _ => True
  | ObservableMutationStorage.Notified =>
      exists m, last prev = Some (ObservableMutationStorage.Delegated m)
                /\ is_mutation m = true
  | ObservableMutationStorage.Invoked _ =>
      last prev = Some ObservableMutationStorage.Notified
      \/ exists o', last prev = Some (ObservableMutationStorage.Invoked o')
  end.

End Calls.

(** The events a scan adds are evictions, or hits and compiler runs for
    tagged items of the list under the tags of the policy. *)
Definition about_items (policy : Policy) (items : list string)
    (e : cache_event) : Prop :=
  (exists k', e = Evict k')
  \/ exists i, In i items /\ ~ Spec.literal_item policy i
               /\ let k := (i, start_tag policy, end_tag policy) in
                  e = Hit k \/ e = CompileOk k \/ e = CompileFail k.


(** The message [RegexChecker.fits] logs for an item. *)
Definition failed_regex_message (i : string) : string :=
  "Error matching policy, because of failed regex " ++ i ++ " compilation".

Local Close Scope string_scope.

(** * Properties *)

(** ** Strings *)

Module PyStrFacts.

Lemma append_cons (c : ascii) (a b : string) :
  (String c a ++ b)%string = String c (a ++ b)%string.
Proof. reflexivity. Qed.

Lemma append_nil (b : string) : (EmptyString ++ b)%string = b.
Proof. reflexivity. Qed.

Lemma prefix_spec (n h : string) :
  String.prefix n h = true <-> exists post, h = (n ++ post)%string.
Proof.
  revert h. induction n as [|c n IH]; intros h.
  - split; [intros _; exists h; reflexivity | intros _; destruct h; reflexivity].
  - destruct h as [|c' h]; simpl.
    + split; [discriminate | intros [post H]; discriminate].
    + destruct (Ascii.ascii_dec c c') as [->|Hne].
      * rewrite IH. split; intros [post H]; exists post;
          rewrite append_cons in *; congruence.
      * split; [discriminate | intros [post H]; rewrite append_cons in H; congruence].
Qed.

Lemma contains_nil (n : string) :
  PyStr.contains n EmptyString = String.prefix n EmptyString.
Proof. destruct n; reflexivity. Qed.

Lemma contains_cons (n : string) (c : ascii) (h : string) :
  PyStr.contains n (String c h)
  = String.prefix n (String c h) || PyStr.contains n h.
Proof. reflexivity. Qed.

(** [needle in haystack] is substring containment. *)
Lemma contains_spec (n h : string) :
  PyStr.contains n h = true <-> Spec.occurs_in n h.
Proof.
  unfold Spec.occurs_in. induction h as [|c h IH].
  - rewrite contains_nil, prefix_spec. split.
    + intros [post H]. exists EmptyString, post. exact H.
    + intros [pre [post H]]. destruct pre.
      * exists post. exact H.
      * rewrite append_cons in H. discriminate.
  - rewrite contains_cons, orb_true_iff, prefix_spec, IH. split.
    + intros [[post H]|[pre [post H]]].
      * exists EmptyString, post. exact H.
      * exists (String c pre), post. rewrite append_cons. congruence.
    + intros [pre [post H]]. destruct pre as [|c' pre].
      * left. exists post. exact H.
      * right. exists pre, post. rewrite append_cons in H. congruence.
Qed.

Lemma contains_false (n h : string) :
  PyStr.contains n h = false <-> ~ Spec.occurs_in n h.
Proof.
  rewrite <- contains_spec. destruct (PyStr.contains n h); split;
    congruence.
Qed.

Lemma first_nonempty (s : string) :
  s <> EmptyString ->
  exists c, Spec.first_char s = Some c /\ PyStr.first s = Ok (String c EmptyString).
Proof. destruct s as [|c s]; [congruence | intros _; exists c; split; reflexivity]. Qed.

Lemma last_nonempty (s : string) :
  s <> EmptyString ->
  exists c, Spec.last_char s = Some c /\ PyStr.last s = Ok (String c EmptyString).
Proof.
  unfold Spec.last_char.
  induction s as [|c s IH]; [congruence | intros _].
  destruct s as [|c' s].
  - exists c. split; reflexivity.
  - destruct IH as [d [H1 H2]]; [discriminate|].
    exists d. split; [exact H1 | exact H2].
Qed.

Lemma drop_last_spec (s : string) :
  PyStr.drop_last s = string_of_list_ascii (removelast (list_ascii_of_string s)).
Proof.
  induction s as [|c s IH]; [reflexivity|].
  destruct s as [|c' s]; [reflexivity|].
  change (PyStr.drop_last (String c (String c' s)))
    with (String c (PyStr.drop_last (String c' s))).
  rewrite IH. reflexivity.
Qed.

(** [s[1:-1]] drops exactly the first and the last character. *)
Lemma strip_ends_spec (s : string) :
  PyStr.strip_ends s = Spec.without_ends s.
Proof.
  unfold Spec.without_ends. destruct s as [|c s]; [reflexivity|].
  simpl. apply drop_last_spec.
Qed.

End PyStrFacts.

(** ** String checkers *)

Module StringCheckerFacts.
Import StringCheckerImpl.

(** [StringExactChecker.compare] is equality. *)
Lemma exact_compare (needle haystack : string) :
  @compare StringExactChecker needle haystack = true <-> needle = haystack.
Proof. apply String.eqb_eq. Qed.

(** [StringFuzzyChecker.compare] is containment of the needle. *)
Lemma fuzzy_compare (needle haystack : string) :
  @compare StringFuzzyChecker needle haystack = true
  <-> Spec.occurs_in needle haystack.
Proof. apply PyStrFacts.contains_spec. Qed.

Example fuzzy_sun :
  @compare StringFuzzyChecker "sun" "sunny" = true
  /\ @compare StringFuzzyChecker "sun" "unsung" = true
  /\ @compare StringFuzzyChecker "x" "sunny" = false
  /\ @compare StringExactChecker "sun" "sunny" = false
  /\ @compare StringExactChecker "sun" "sun" = true.
Proof. repeat split; reflexivity. Qed.

Section Fits.
Context (self : StringChecker) (policy : Policy).

(** On an item that has a first character the tag test returns, and
    what the loop goes on to compare is the stripped item. *)
Lemma is_tagged_nonempty (item : string) :
  item <> EmptyString ->
  exists b, is_tagged policy item = Ok b
            /\ (if b then PyStr.strip_ends item else item)
               = Spec.stripped policy item.
Proof.
  intros Hne.
  destruct (PyStrFacts.first_nonempty item Hne) as [a [Ha1 Ha2]].
  destruct (PyStrFacts.last_nonempty item Hne) as [b [Hb1 Hb2]].
  unfold is_tagged, Spec.stripped. rewrite Ha1, Ha2, Hb1, Hb2.
  destruct (String.eqb_spec (start_tag policy) (String a EmptyString)) as [Hs|Hs].
  - destruct (String.eqb_spec (end_tag policy) (String b EmptyString)) as [He|He].
    + exists true. split; [reflexivity|].
      rewrite decide_True by (split; assumption).
      apply PyStrFacts.strip_ends_spec.
    + exists false. split; [reflexivity|].
      rewrite decide_False by (intros [_ H]; contradiction). reflexivity.
  - exists false. split; [reflexivity|].
    rewrite decide_False by (intros [H _]; contradiction). reflexivity.
Qed.

Lemma fits_loop_nonempty (what : string) (items : list string) :
  Forall (fun item => item <> EmptyString) items ->
  exists b, fits_loop self policy what items = Ok b
            /\ (b = true <->
                exists item, In item items
                             /\ compare what (Spec.stripped policy item) = true).
Proof.
  induction 1 as [|item items Hne _ IH].
  - exists false. split; [reflexivity|].
    split; [discriminate | intros [item [[] _]]].
  - simpl. destruct (is_tagged_nonempty item Hne) as [t [Ht Hs]].
    rewrite Ht, Hs.
    destruct (compare what (Spec.stripped policy item)) eqn:Hc.
    + exists true. split; [reflexivity|]. split; [|reflexivity].
      intros _. exists item. split; [left; reflexivity | exact Hc].
    + destruct IH as [b [Hb Hiff]]. exists b. split; [exact Hb|].
      rewrite Hiff. split.
      * intros [it [Hin Hit]]. exists it. split; [right; exact Hin | exact Hit].
      * intros [it [[->|Hin] Hit]]; [congruence|].
        exists it. split; assumption.
Qed.

(** As long as no item of the field is the empty string,
    [StringChecker.fits] returns, and returns true exactly when some
    item, stripped of its tags, compares well with [what]. *)
Lemma fits_nonempty_items (field what : string) :
  Forall (fun item => item <> EmptyString) (getattr policy field) ->
  exists b, fits self policy field what = Ok b
            /\ (b = true <-> Spec.some_item_fits self policy field what).
Proof. intros H. exact (fits_loop_nonempty what _ H). Qed.

(** The loop raises as soon as it meets the empty string. *)
Lemma fits_loop_empty_item (what : string) (rest : list string) :
  fits_loop self policy what (EmptyString :: rest) = Raise IndexError.
Proof. reflexivity. Qed.

End Fits.

End StringCheckerFacts.

(** C7. [StringChecker.fits] is to return true exactly when some item of
    the field, stripped of its tags, compares well with the value. On the
    field whose items are the empty string and ["x"], with the value ["x"],
    the second item is the value itself, yet the exact checker raises
    [IndexError] at the first item, the empty string, which has no first
    character. *)
Theorem StringChecker_fits_empty_item :
  Spec.some_item_fits StringExactChecker Examples.empty_item_policy
    "subjects" "x"
  /\ StringCheckerImpl.fits StringExactChecker Examples.empty_item_policy
       "subjects" "x" = Raise IndexError.
Proof.
  split.
  - exists "x"%string. split; [vm_compute; tauto | reflexivity].
  - reflexivity.
Qed.

(** ** Conditions *)

Module ConditionFacts.
Import StringPairsEqualCondition Ghost.

(** A string only equals a string, and then the same one. *)
Lemma eqb_str_l (a : string) (y : pyval) :
  PyVal.eqb (VStr a) y = true -> y = VStr a.
Proof.
  destruct y; simpl; try discriminate.
  intros H. apply String.eqb_eq in H. congruence.
Qed.

Lemma eqb_str_r (x : pyval) (b : string) :
  PyVal.eqb x (VStr b) = true -> x = VStr b.
Proof.
  destruct x; simpl; try discriminate.
  intros H. apply String.eqb_eq in H. congruence.
Qed.

Lemma check_pair_items (p : pyval) (l : list pyval) :
  PyVal.items p = Some l -> check_pair p = Ok (good_pair p).
Proof.
  intros Hl. unfold check_pair, good_pair. rewrite Hl.
  destruct p; try discriminate;
    unfold PyVal.len, PyVal.getitem; rewrite Hl;
    destruct l as [|x [|y [|z l]]]; try reflexivity;
    simpl;
    destruct (PyVal.is_str x), (PyVal.is_str y), (PyVal.eqb x y);
    reflexivity.
Qed.

Lemma chars_length (s : string) :
  List.length (PyVal.chars s) = String.length s.
Proof. induction s as [|c s IH]; simpl; [reflexivity | rewrite IH; reflexivity]. Qed.

Lemma size_of_len (p : pyval) (n : nat) :
  Spec.size_of p = Some n -> PyVal.len p = Ok n.
Proof.
  destruct p; simpl; try discriminate; intros [= <-]; try reflexivity.
  unfold PyVal.len. simpl. rewrite chars_length. reflexivity.
Qed.

(** The two items of a pair are what [len] and the index reads find. *)
Lemma pair_of_items (p x y : pyval) :
  Spec.pair_of p x y ->
  PyVal.len p = Ok 2
  /\ PyVal.getitem p 0 = Ok x /\ PyVal.getitem p 1 = Ok y.
Proof.
  destruct 1; repeat split; reflexivity.
Qed.

(** A dict of two keys that has the keys 0 and 1 has nothing else. *)
Lemma dict_two (m : gmap pykey pyval) (x y : pyval) :
  size m = 2 -> m !! KInt 0 = Some x -> m !! KInt 1 = Some y ->
  m = {[ KInt 0 := x; KInt 1 := y ]}.
Proof.
  intros Hsz H0 H1.
  assert (H1' : delete (KInt 0) m !! KInt 1 = Some y)
    by (rewrite lookup_delete_ne by discriminate; exact H1).
  assert (Hsz1 : size (delete (KInt 0) m) = 1)
    by (rewrite map_size_delete, H0, Hsz; reflexivity).
  assert (Hsz2 : size (delete (KInt 1) (delete (KInt 0) m)) = 0)
    by (rewrite map_size_delete, H1', Hsz1; reflexivity).
  apply map_size_empty_inv in Hsz2.
  rewrite <- (insert_delete_id m (KInt 0) x H0).
  rewrite <- (insert_delete_id (delete (KInt 0) m) (KInt 1) y H1').
  rewrite Hsz2. reflexivity.
Qed.

Lemma check_pair_wrong_length (p : pyval) :
  Spec.wrong_length p -> check_pair p = Ok false.
Proof.
  intros [n [Hn Hne]]. unfold check_pair.
  rewrite (size_of_len p n Hn).
  destruct (Nat.eqb n 2) eqn:E; [|reflexivity].
  apply Nat.eqb_eq in E. contradiction.
Qed.

(** On a pair, one turn of the loop is the two tests of lines 27 and
    29. *)
Lemma check_pair_pair (p x y : pyval) :
  Spec.pair_of p x y ->
  check_pair p = Ok ((PyVal.is_str x || PyVal.is_str y) && PyVal.eqb x y).
Proof.
  intros H. destruct (pair_of_items p x y H) as [Hl [H0 H1]].
  unfold check_pair. rewrite Hl, H0, H1. simpl.
  destruct (PyVal.is_str x), (PyVal.is_str y), (PyVal.eqb x y); reflexivity.
Qed.

Lemma check_pair_good (p : pyval) :
  Spec.equal_string_pair p -> check_pair p = Ok true.
Proof.
  intros [s H]. rewrite (check_pair_pair p _ _ H). simpl.
  rewrite String.eqb_refl. reflexivity.
Qed.

Lemma eqb_is_str (x y : pyval) :
  PyVal.eqb x y = true ->
  PyVal.is_str x = true \/ PyVal.is_str y = true ->
  exists s, x = VStr s /\ y = VStr s.
Proof.
  intros He [Hx|Hy].
  - destruct x; try discriminate. eexists. split; [reflexivity|].
    apply eqb_str_l, He.
  - destruct y; try discriminate. eexists. split; [|reflexivity].
    apply eqb_str_r, He.
Qed.

Lemma check_pair_bad (p : pyval) :
  Spec.bad_pair p -> check_pair p = Ok false.
Proof.
  intros [H|[[x [y [H Hns]]]|[a [b [H Hne]]]]].
  - apply check_pair_wrong_length, H.
  - rewrite (check_pair_pair p x y H). f_equal.
    destruct (PyVal.eqb x y) eqn:He; [|apply andb_false_r].
    rewrite andb_true_r. apply orb_false_iff.
    destruct (PyVal.is_str x) eqn:Hx, (PyVal.is_str y) eqn:Hy;
      try (split; reflexivity); exfalso;
      (destruct (eqb_is_str x y He) as [s [-> ->]];
       [auto | destruct Hns as [Hn|Hn]; exact (Hn s eq_refl)]).
  - rewrite (check_pair_pair _ _ _ H). simpl.
    destruct (String.eqb a b) eqn:E; [|reflexivity].
    apply String.eqb_eq in E. contradiction.
Qed.

Lemma check_pair_type (p : pyval) :
  Spec.no_length p \/ Spec.pair_set p -> check_pair p = Raise TypeError.
Proof.
  intros [[->|[[b ->]|[[z ->]|[n ->]]]]|[s [-> Hs]]]; try reflexivity.
  unfold check_pair, PyVal.len. rewrite Hs. reflexivity.
Qed.

Lemma check_pair_key (p : pyval) :
  Spec.unkeyed_dict p -> check_pair p = Raise KeyError.
Proof.
  intros [m [-> [Hs H]]].
  unfold check_pair, PyVal.len, PyVal.getitem. rewrite Hs.
  change (Z.of_nat 0) with 0%Z. change (Z.of_nat 1) with 1%Z.
  destruct H as [H|H]; rewrite H; [reflexivity|].
  destruct (m !! KInt 0); reflexivity.
Qed.

Lemma pair_cases (p x y : pyval) :
  Spec.pair_of p x y -> Spec.equal_string_pair p \/ Spec.bad_pair p.
Proof.
  intros H.
  destruct x as [| | |a| | | | |];
    try (right; right; left; eexists _, _; split;
         [exact H | left; intros s; discriminate]).
  destruct y as [| | |b| | | | |];
    try (right; right; left; eexists _, _; split;
         [exact H | right; intros s; discriminate]).
  destruct (decide (a = b)) as [->|Hne].
  - left. exists b. exact H.
  - right. right. right. exists a, b. split; assumption.
Qed.

(** Every value is of one of four kinds for the loop. *)
Lemma check_pair_cases (p : pyval) :
  Spec.equal_string_pair p \/ Spec.bad_pair p
  \/ (Spec.no_length p \/ Spec.pair_set p) \/ Spec.unkeyed_dict p.
Proof.
  assert (Hw : forall n, Spec.size_of p = Some n -> n <> 2 -> Spec.bad_pair p)
    by (intros n Hn Hne; left; exists n; split; assumption).
  assert (Hp : forall x y, Spec.pair_of p x y ->
                 Spec.equal_string_pair p \/ Spec.bad_pair p
                 \/ (Spec.no_length p \/ Spec.pair_set p)
                 \/ Spec.unkeyed_dict p).
  { intros x y H. destruct (pair_cases p x y H); [left | right; left]; assumption. }
  destruct p as [|b|z|s|l|l|m|s|n].
  - right. right. left. left. left. reflexivity.
  - right. right. left. left. right. left. exists b. reflexivity.
  - right. right. left. left. right. right. left. exists z. reflexivity.
  - destruct s as [|c [|d [|e s]]];
      try (right; left; eapply Hw; [reflexivity | simpl; lia]).
    apply (Hp _ _ (Spec.pair_str c d)).
  - destruct l as [|x [|y [|z l]]];
      try (right; left; eapply Hw; [reflexivity | simpl; lia]).
    apply (Hp _ _ (Spec.pair_list x y)).
  - destruct l as [|x [|y [|z l]]];
      try (right; left; eapply Hw; [reflexivity | simpl; lia]).
    apply (Hp _ _ (Spec.pair_tuple x y)).
  - destruct (decide (size m = 2)) as [Hs|Hs];
      [|right; left; eapply Hw; [reflexivity | exact Hs]].
    destruct (m !! KInt 0) as [x|] eqn:H0;
      [|right; right; right; exists m; auto].
    destruct (m !! KInt 1) as [y|] eqn:H1;
      [|right; right; right; exists m; auto].
    apply (Hp x y). rewrite (dict_two m x y Hs H0 H1). constructor.
  - destruct (decide (size s = 2)) as [Hs|Hs];
      [|right; left; eapply Hw; [reflexivity | exact Hs]].
    right. right. left. right. exists s. auto.
  - right. right. left. left. right. right. right. exists n. reflexivity.
Qed.

Lemma check_pair_true (p : pyval) :
  check_pair p = Ok true <-> Spec.equal_string_pair p.
Proof.
  split; [|apply check_pair_good].
  intros H. destruct (check_pair_cases p) as [Hg|[Hb|[Ht|Hk]]]; [exact Hg|..].
  - rewrite (check_pair_bad p Hb) in H. discriminate.
  - rewrite (check_pair_type p Ht) in H. discriminate.
  - rewrite (check_pair_key p Hk) in H. discriminate.
Qed.

Lemma check_pair_false (p : pyval) :
  check_pair p = Ok false <-> Spec.bad_pair p.
Proof.
  split; [|apply check_pair_bad].
  intros H. destruct (check_pair_cases p) as [Hg|[Hb|[Ht|Hk]]]; [|exact Hb|..].
  - rewrite (check_pair_good p Hg) in H. discriminate.
  - rewrite (check_pair_type p Ht) in H. discriminate.
  - rewrite (check_pair_key p Hk) in H. discriminate.
Qed.

Lemma check_pair_type_iff (p : pyval) :
  check_pair p = Raise TypeError <-> Spec.no_length p \/ Spec.pair_set p.
Proof.
  split; [|apply check_pair_type].
  intros H. destruct (check_pair_cases p) as [Hg|[Hb|[Ht|Hk]]]; [..|exact Ht|].
  - rewrite (check_pair_good p Hg) in H. discriminate.
  - rewrite (check_pair_bad p Hb) in H. discriminate.
  - rewrite (check_pair_key p Hk) in H. discriminate.
Qed.

Lemma check_pair_key_iff (p : pyval) :
  check_pair p = Raise KeyError <-> Spec.unkeyed_dict p.
Proof.
  split; [|apply check_pair_key].
  intros H. destruct (check_pair_cases p) as [Hg|[Hb|[Ht|Hk]]]; [..|exact Hk].
  - rewrite (check_pair_good p Hg) in H. discriminate.
  - rewrite (check_pair_bad p Hb) in H. discriminate.
  - rewrite (check_pair_type p Ht) in H. discriminate.
Qed.

Lemma check_pair_raises (p : pyval) (e : pyexn) :
  check_pair p = Raise e -> e = TypeError \/ e = KeyError.
Proof.
  intros H. destruct (check_pair_cases p) as [Hg|[Hb|[Ht|Hk]]].
  - rewrite (check_pair_good p Hg) in H. discriminate.
  - rewrite (check_pair_bad p Hb) in H. discriminate.
  - rewrite (check_pair_type p Ht) in H. left. congruence.
  - rewrite (check_pair_key p Hk) in H. right. congruence.
Qed.

Lemma satisfied_loop_true (ps : list pyval) :
  satisfied_loop ps = Ok true <-> Forall Spec.equal_string_pair ps.
Proof.
  induction ps as [|p ps IH]; simpl.
  - split; [constructor | reflexivity].
  - rewrite Forall_cons_iff, <- IH, <- check_pair_true.
    destruct (check_pair p) as [[|]|e]; split;
      try tauto; try discriminate; intros [H _]; discriminate.
Qed.

(** The loop goes past pairs of equal strings. *)
Lemma satisfied_loop_first (pre rest : list pyval) :
  Forall Spec.equal_string_pair pre ->
  satisfied_loop (pre ++ rest) = satisfied_loop rest.
Proof.
  induction 1 as [|p pre Hp _ IH]; [reflexivity|].
  simpl. rewrite (check_pair_good p Hp). exact IH.
Qed.

(** An answer other than true is the answer of one turn, at the first
    element that is not a pair of equal strings. *)
Lemma satisfied_loop_stops (ps : list pyval) (r : outcome pyexn bool) :
  satisfied_loop ps = r -> r <> Ok true ->
  exists pre p rest,
    ps = pre ++ p :: rest
    /\ Forall Spec.equal_string_pair pre /\ check_pair p = r.
Proof.
  intros H Hr. induction ps as [|p ps IH]; [simpl in H; congruence|].
  simpl in H. destruct (check_pair p) as [[|]|e] eqn:Hc.
  - destruct (IH H) as [pre [q [rest [-> [Hpre Hq]]]]].
    exists (p :: pre), q, rest. split; [reflexivity|].
    split; [|exact Hq].
    constructor; [apply check_pair_true, Hc | exact Hpre].
  - exists [], p, ps. split; [reflexivity|]. split; [constructor|].
    congruence.
  - exists [], p, ps. split; [reflexivity|]. split; [constructor|].
    congruence.
Qed.

(** On a list of sequences the loop returns. *)
Lemma satisfied_loop_total (ps : list pyval) :
  Forall (fun p => is_Some (PyVal.items p)) ps ->
  satisfied_loop ps = Ok (forallb good_pair ps).
Proof.
  induction 1 as [|p ps [l Hl] _ IH]; [reflexivity|].
  simpl. rewrite (check_pair_items p l Hl), IH.
  destruct (good_pair p); reflexivity.
Qed.

End ConditionFacts.

(** C2. [StringPairsEqualCondition.satisfied(what, request)] returns true
    exactly when [what] is a list whose every element is a pair of one
    string twice, where a pair is anything of length two with items under
    the indices 0 and 1: a list or a tuple of two elements, a string of
    two characters, a dict with the keys 0 and 1. It returns false on a
    value that is not a list, and on a list whose first element that is
    not such a pair has the wrong length, an element that is not a string,
    or two strings that differ; and it returns false in no other case.
    When that first element has no length, or has length two and no items
    under 0 and 1, the call raises. *)
Theorem StringPairsEqual_satisfied_iff
    {Request : Type} (what : pyval) (request : Request) :
  (StringPairsEqualCondition.satisfied what request = Ok true
   <-> Spec.equal_string_pairs what)
  /\ ((forall ps, what <> VList ps) ->
      StringPairsEqualCondition.satisfied what request = Ok false)
  /\ (forall pre p rest,
        what = VList (pre ++ p :: rest) ->
        Forall Spec.equal_string_pair pre ->
        Spec.bad_pair p ->
        StringPairsEqualCondition.satisfied what request = Ok false)
  /\ (StringPairsEqualCondition.satisfied what request = Ok false ->
      (forall ps, what <> VList ps)
      \/ exists pre p rest,
           what = VList (pre ++ p :: rest)
           /\ Forall Spec.equal_string_pair pre
           /\ Spec.bad_pair p)
  /\ (forall pre p rest,
        what = VList (pre ++ p :: rest) ->
        Forall Spec.equal_string_pair pre ->
        Spec.no_length p \/ Spec.pair_set p \/ Spec.unkeyed_dict p ->
        exists e, StringPairsEqualCondition.satisfied what request = Raise e).
Proof.
  split; [|split; [|split; [|split]]].
  - unfold Spec.equal_string_pairs. split.
    + destruct what; simpl; try discriminate.
      intros H. eexists. split; [reflexivity|].
      apply ConditionFacts.satisfied_loop_true. exact H.
    + intros [ps [-> H]]. simpl.
      apply ConditionFacts.satisfied_loop_true. exact H.
  - intros Hnl. destruct what; try reflexivity.
    exfalso. exact (Hnl _ eq_refl).
  - intros pre p rest -> Hpre Hbad. simpl.
    rewrite (ConditionFacts.satisfied_loop_first pre (p :: rest) Hpre).
    simpl. rewrite (ConditionFacts.check_pair_bad p Hbad). reflexivity.
  - destruct what; try (intros _; left; intros ps; discriminate).
    simpl. intros H. right.
    destruct (ConditionFacts.satisfied_loop_stops _ _ H)
      as [pre [p [rest [-> [Hpre Hp]]]]]; [discriminate|].
    exists pre, p, rest. split; [reflexivity|]. split; [exact Hpre|].
    apply ConditionFacts.check_pair_false, Hp.
  - intros pre p rest -> Hpre Hp. simpl.
    rewrite (ConditionFacts.satisfied_loop_first pre (p :: rest) Hpre).
    simpl. destruct Hp as [Hp|[Hp|Hp]].
    + rewrite (ConditionFacts.check_pair_type p (or_introl Hp)).
      eexists. reflexivity.
    + rewrite (ConditionFacts.check_pair_type p (or_intror Hp)).
      eexists. reflexivity.
    + rewrite (ConditionFacts.check_pair_key p Hp). eexists. reflexivity.
Qed.

Lemma StringPairsEqual_satisfied_iff_witness :
  StringPairsEqualCondition.satisfied
    (VList [VList [VStr "a"; VStr "a"]; VTuple [VStr "b"; VStr "b"];
            VStr "cc"; VDict {[ KInt 0 := VStr "d"; KInt 1 := VStr "d" ]}]) tt
  = Ok true
  /\ StringPairsEqualCondition.satisfied
       (VList [VList [VStr "a"; VStr "a"]; VList [VStr "a"; VInt 1]]) tt
     = Ok false.
Proof.
  split.
  - apply (proj1 (StringPairsEqual_satisfied_iff _ tt)).
    eexists. split; [reflexivity|].
    repeat (apply List.Forall_cons; [eexists; constructor|]). apply List.Forall_nil.
  - apply (proj1 (proj2 (proj2 (StringPairsEqual_satisfied_iff _ tt)))
             [VList [VStr "a"; VStr "a"]] (VList [VStr "a"; VInt 1]) []).
    + reflexivity.
    + apply List.Forall_cons; [eexists; constructor | apply List.Forall_nil].
    + right. left. exists (VStr "a"), (VInt 1).
      split; [constructor | right; intros s; discriminate].
Defined.

(** The condition is not what the words [sequence of 2-element
    sequences] say, whether or not a tuple counts as a sequence: a tuple
    of pairs is turned down, a dict with the keys 0 and 1 passes for a
    pair, and a pair of unequal strings after an element without a length
    does not make the result false, since the call raises before. *)
Lemma StringPairsEqual_satisfied_not_sequences :
  (Spec.sequence_of_equal_pairs (VTuple [VList [VStr "a"; VStr "a"]])
   /\ StringPairsEqualCondition.satisfied
        (VTuple [VList [VStr "a"; VStr "a"]]) tt = Ok false)
  /\ (~ Spec.sequence_of_equal_pairs
          (VList [VDict {[ KInt 0 := VStr "a"; KInt 1 := VStr "a" ]}])
      /\ StringPairsEqualCondition.satisfied
           (VList [VDict {[ KInt 0 := VStr "a"; KInt 1 := VStr "a" ]}]) tt
         = Ok true)
  /\ (Spec.unequal_elements (VList [VStr "a"; VStr "b"])
      /\ StringPairsEqualCondition.satisfied
           (VList [VInt 5; VList [VStr "a"; VStr "b"]]) tt
         = Raise TypeError).
Proof.
  split; [|split].
  - split; [|reflexivity].
    exists [VList [VStr "a"; VStr "a"]]. split; [right; reflexivity|].
    apply List.Forall_cons; [|apply List.Forall_nil].
    exists "a"%string. left. reflexivity.
  - split; [|vm_compute; reflexivity].
    intros [ps [[H|H] Hps]]; [|discriminate].
    injection H as <-. apply Forall_cons_iff in Hps.
    destruct Hps as [[s [Hs|Hs]] _]; discriminate.
  - split; [|reflexivity].
    exists "a"%string, "b"%string. split; [constructor | discriminate].
Qed.

(** The examples of the spec: two equal pairs, an unequal pair, a string. *)
Example StringPairsEqual_examples :
  StringPairsEqualCondition.satisfied
    (VList [VList [VStr "a"; VStr "a"]; VList [VStr "b"; VStr "b"]]) tt = Ok true
  /\ StringPairsEqualCondition.satisfied (VList [VList [VStr "a"; VStr "b"]]) tt
     = Ok false
  /\ StringPairsEqualCondition.satisfied (VStr "x") tt = Ok false.
Proof. repeat split; reflexivity. Qed.

(** C10. [satisfied([], request)] is true for every request: the loop has
    nothing to reject. *)
Theorem StringPairsEqual_satisfied_empty {Request : Type} (request : Request) :
  StringPairsEqualCondition.satisfied (VList []) request = Ok true.
Proof. reflexivity. Qed.

(** C3. The matching predicates are to return a boolean on every input and
    never raise. Both string checkers raise [IndexError] on a field that
    holds the empty string, whatever the value, and
    [StringPairsEqualCondition.satisfied] raises [TypeError] on a list
    with an element that has no length. *)
Theorem matching_predicates_raise :
  StringCheckerImpl.fits StringExactChecker Examples.empty_item_policy
    "subjects" "x" = Raise IndexError
  /\ StringCheckerImpl.fits StringFuzzyChecker Examples.empty_item_policy
       "subjects" "x" = Raise IndexError
  /\ StringPairsEqualCondition.satisfied (VList [VInt 5]) tt = Raise TypeError.
Proof. repeat split; reflexivity. Qed.

(** ** The matcher *)

Module ReFacts.
Import Re.

(** A match consumes from the front: what is left is no longer than the
    subject, and a match that consumes nothing stays where it is. *)
Lemma derives_length (r : regex) (b : bool) (s rest : string) (b' : bool) :
  derives r b s rest b' ->
  String.length rest <= String.length s
  /\ (String.length rest = String.length s -> rest = s /\ b' = b).
Proof.
  induction 1 as [| | | | | |r1 r2 b s b1 s1 b2 s2 _ [IH1 IH1'] _ [IH2 IH2']
                  | | | |r b s b1 s1 b2 s2 _ [IH1 IH1'] _ [IH2 IH2']];
    simpl; try (split; [lia | intros; try lia; split; reflexivity]);
    try assumption.
  - split; [lia|]. intros Hlen.
    destruct IH1' as [-> ->]; [lia|]. apply IH2'. exact Hlen.
  - split; [lia|]. intros Hlen.
    destruct IH1' as [-> ->]; [lia|]. apply IH2'. exact Hlen.
Qed.

Section Turns.
Context (m : bool -> string -> (bool -> string -> bool) -> bool).
Context (m_mono : forall b s (k k' : bool -> string -> bool),
            (forall b' s', k b' s' = true -> k' b' s' = true) ->
            m b s k = true -> m b s k' = true).

Lemma turns_mono_k (k k' : bool -> string -> bool) (fuel : nat) (b : bool)
    (s : string) :
  (forall b' s', k b' s' = true -> k' b' s' = true) ->
  turns m k fuel b s = true -> turns m k' fuel b s = true.
Proof.
  intros Hk. revert b s. induction fuel as [|fuel IH]; intros b s; simpl.
  - rewrite !orb_false_r. apply Hk.
  - rewrite !orb_true_iff. intros [H|H]; [left; apply Hk, H|].
    right. revert H. apply m_mono. intros b' s' H.
    apply andb_true_iff in H. destruct H as [H1 H2].
    apply andb_true_iff. split; [exact H1 | apply IH, H2].
Qed.

(** More fuel does no harm. *)
Lemma turns_mono_fuel (k : bool -> string -> bool) (fuel fuel' : nat)
    (b : bool) (s : string) :
  fuel <= fuel' ->
  turns m k fuel b s = true -> turns m k fuel' b s = true.
Proof.
  revert fuel' b s. induction fuel as [|fuel IH]; intros fuel' b s Hle; simpl.
  - rewrite orb_false_r. intros H. destruct fuel'; simpl; rewrite H; reflexivity.
  - destruct fuel' as [|fuel']; [lia|]. simpl.
    rewrite !orb_true_iff. intros [H|H]; [left; exact H|].
    right. revert H. apply m_mono. intros b' s' H.
    apply andb_true_iff in H. destruct H as [H1 H2].
    apply andb_true_iff. split; [exact H1|]. apply IH; [lia | exact H2].
Qed.

End Turns.

(** The matcher is monotone in what it is followed by. *)
Lemma matches_mono (r : regex) (b : bool) (s : string)
    (k k' : bool -> string -> bool) :
  (forall b' s', k b' s' = true -> k' b' s' = true) ->
  matches r b s k = true -> matches r b s k' = true.
Proof.
  revert b s k k'. induction r as [| | | | | |r1 IH1 r2 IH2|r1 IH1 r2 IH2|r IH];
    intros b s k k' Hk; simpl.
  - apply Hk.
  - destruct s as [|c' s]; [discriminate|].
    rewrite !andb_true_iff. intros [H1 H2]. split; [exact H1 | apply Hk, H2].
  - destruct s as [|c' s]; [discriminate|].
    rewrite !andb_true_iff. intros [H1 H2]. split; [exact H1 | apply Hk, H2].
  - destruct s as [|c' s]; [discriminate|].
    rewrite !andb_true_iff. intros [H1 H2]. split; [exact H1 | apply Hk, H2].
  - rewrite !andb_true_iff. intros [H1 H2]. split; [exact H1 | apply Hk, H2].
  - rewrite !andb_true_iff. intros [H1 H2]. split; [exact H1 | apply Hk, H2].
  - apply IH1. intros b' s'. apply IH2. exact Hk.
  - rewrite !orb_true_iff. intros [H|H].
    + left. exact (IH1 _ _ _ _ Hk H).
    + right. exact (IH2 _ _ _ _ Hk H).
  - apply turns_mono_k; [exact IH | exact Hk].
Qed.

(** Whatever the matcher accepts is a match followed by something the
    continuation accepts. *)
Lemma matches_sound (r : regex) (b : bool) (s : string)
    (k : bool -> string -> bool) :
  matches r b s k = true ->
  exists rest b', derives r b s rest b' /\ k b' rest = true.
Proof.
  revert b s k. induction r as [| | | | | |r1 IH1 r2 IH2|r1 IH1 r2 IH2|r IH];
    intros b s k; simpl.
  - intros H. exists s, b. split; [constructor | exact H].
  - destruct s as [|c' s]; [discriminate|].
    rewrite andb_true_iff. intros [H1 H2].
    apply Ascii.eqb_eq in H1. subst c'.
    exists s, false. split; [constructor | exact H2].
  - destruct s as [|c' s]; [discriminate|].
    rewrite andb_true_iff, negb_true_iff. intros [H1 H2].
    exists s, false. split; [|exact H2].
    constructor. intros ->. rewrite Ascii.eqb_refl in H1. discriminate.
  - destruct s as [|c' s]; [discriminate|].
    rewrite andb_true_iff. intros [H1 H2].
    exists s, false. split; [constructor; exact H1 | exact H2].
  - rewrite andb_true_iff. intros [-> H2].
    exists s, true. split; [constructor | exact H2].
  - rewrite andb_true_iff. intros [H1 H2].
    exists s, b. split; [constructor; exact H1 | exact H2].
  - intros H. apply IH1 in H. destruct H as [s1 [b1 [D1 H]]].
    apply IH2 in H. destruct H as [s2 [b2 [D2 H]]].
    exists s2, b2. split; [econstructor; eassumption | exact H].
  - rewrite orb_true_iff. intros [H|H].
    + apply IH1 in H. destruct H as [s' [b' [D H]]].
      exists s', b'. split; [apply d_alt_l, D | exact H].
    + apply IH2 in H. destruct H as [s' [b' [D H]]].
      exists s', b'. split; [apply d_alt_r, D | exact H].
  - generalize (String.length s) as fuel. intros fuel. revert b s.
    induction fuel as [|fuel IHf]; intros b s; simpl.
    + rewrite orb_false_r. intros H. exists s, b. split; [constructor | exact H].
    + rewrite orb_true_iff. intros [H|H].
      * exists s, b. split; [constructor | exact H].
      * apply IH in H. destruct H as [s1 [b1 [D1 H]]].
        apply andb_true_iff in H. destruct H as [_ H].
        apply IHf in H. destruct H as [s2 [b2 [D2 H]]].
        exists s2, b2. split; [econstructor; eassumption | exact H].
Qed.

(** A match followed by something the continuation accepts is accepted. *)
Lemma matches_complete (r : regex) (b : bool) (s rest : string) (b' : bool) :
  derives r b s rest b' ->
  forall k, k b' rest = true -> matches r b s k = true.
Proof.
  induction 1 as [b s|c b s|c b s Hc|negated ranges c b s Hc|s|b s He
                  |r1 r2 b s b1 s1 b2 s2 D1 IH1 D2 IH2
                  |r1 r2 b s b' s' D IH|r1 r2 b s b' s' D IH
                  |r b s|r b s b1 s1 b2 s2 D1 IH1 D2 IH2];
    intros k Hk; simpl.
  - exact Hk.
  - rewrite Ascii.eqb_refl. exact Hk.
  - apply andb_true_iff. split; [|exact Hk].
    apply negb_true_iff, Ascii.eqb_neq, Hc.
  - rewrite Hc. exact Hk.
  - exact Hk.
  - rewrite He. exact Hk.
  - apply IH1. apply IH2. exact Hk.
  - rewrite (IH k Hk). reflexivity.
  - rewrite (IH k Hk). apply orb_true_r.
  - destruct (String.length s); simpl; rewrite Hk; reflexivity.
  - destruct (derives_length _ _ _ _ _ D1) as [Hle Heq].
    destruct (Nat.eq_dec (String.length s1) (String.length s)) as [E|E].
    + destruct (Heq E) as [-> ->]. exact (IH2 k Hk).
    + destruct (String.length s) as [|n] eqn:Hn; [lia|]. simpl.
      apply orb_true_iff. right. apply IH1.
      apply andb_true_iff. split; [apply Nat.ltb_lt; lia|].
      apply (turns_mono_fuel (matches r) (fun b s k k' H => matches_mono r b s k k' H)
               k (String.length s1) n b1 s1); [lia|].
      exact (IH2 k Hk).
Qed.

(** [re_match] holds exactly when the pattern matches a part of the value
    that begins at its first character; what is left of the value after
    the match does not count. *)
Lemma re_match_spec (pattern : regex) (what : string) :
  re_match pattern what = true
  <-> exists rest b', derives pattern true what rest b'.
Proof.
  unfold re_match. split.
  - intros H. apply matches_sound in H. destruct H as [rest [b' [D _]]].
    exists rest, b'. exact D.
  - intros [rest [b' D]]. exact (matches_complete _ _ _ _ _ D _ eq_refl).
Qed.

End ReFacts.

(** ** The regex checker *)

Module RegexCheckerFacts.
Import RegexCheckerImpl Ghost.

Lemma is_literal_spec (policy : Policy) (i : string) :
  is_literal policy i = true <-> Spec.literal_item policy i.
Proof.
  unfold is_literal, Spec.literal_item.
  rewrite andb_true_iff, !negb_true_iff, !PyStrFacts.contains_false.
  reflexivity.
Qed.

Lemma is_literal_false (policy : Policy) (i : string) :
  ~ Spec.literal_item policy i -> is_literal policy i = false.
Proof.
  rewrite <- is_literal_spec. destruct (is_literal policy i); congruence.
Qed.

Lemma find_In {V : Type} (k : cache_key) (v : V) (c : Lru.t V) :
  Lru.find k c = Some v -> In (k, v) c.
Proof.
  induction c as [|[k' v'] c IH]; simpl; [discriminate|].
  destruct (decide (k = k')) as [->|_].
  - intros [= ->]. left. reflexivity.
  - intros H. right. exact (IH H).
Qed.

Lemma find_keys {V : Type} (k : cache_key) (c : Lru.t V) :
  Lru.find k c = None <-> ~ In k (Lru.keys c).
Proof.
  unfold Lru.keys. induction c as [|[k' v'] c IH]; simpl.
  - tauto.
  - destruct (decide (k = k')) as [->|Hne].
    + split; [discriminate | intros H; exfalso; apply H; left; reflexivity].
    + rewrite IH. split.
      * intros H [E|E]; [congruence | exact (H E)].
      * intros H E. apply H. right. exact E.
Qed.

Lemma In_removelast {A : Type} (x : A) (l : list A) :
  In x (removelast l) -> In x l.
Proof.
  induction l as [|a l IH]; [tauto|].
  destruct l as [|b l]; [intros []|].
  intros [->|H]; [left; reflexivity | right; exact (IH H)].
Qed.

Section Facts.
Context {Pattern : Type}.
Context (compile_regex : string -> string -> string -> outcome pyexn Pattern).
Context (re_match : Pattern -> string -> bool).

Local Abbreviation checker := (RegexChecker Pattern).
Local Abbreviation compile := (RegexCheckerImpl.compile compile_regex).
Local Abbreviation fits_loop := (RegexCheckerImpl.fits_loop compile_regex re_match).
Local Abbreviation fits := (RegexCheckerImpl.fits compile_regex re_match).
Local Abbreviation cache_sound := (Ghost.cache_sound compile_regex).

Lemma init_sound (size : nat) : cache_sound (init size).
Proof. constructor. Qed.

(** One turn of the loop. *)
Lemma fits_loop_cons (policy : Policy) (what i : string) (rest : list string)
    (self : checker) :
  fits_loop policy what (i :: rest) self
  = if is_literal policy i then
      if negb (String.eqb i what) then fits_loop policy what rest self
      else (Ok true, self)
    else
      match compile (i, start_tag policy, end_tag policy) self with
      | (Raise InvalidPatternError, self') => (Ok false, log_exception i self')
      | (Raise e, self') => (Raise e, self')
      | (Ok pattern, self') =>
          if re_match pattern what then (Ok true, self')
          else fits_loop policy what rest self'
      end.
Proof. reflexivity. Qed.

Lemma store_sound (size : nat) (i st et : string) (pat : Pattern)
    (c : Lru.t Pattern) :
  compile_regex i st et = Ok pat ->
  Forall (fun e : cache_key * Pattern =>
            compile_regex e.1.1.1 e.1.1.2 e.1.2 = Ok e.2) c ->
  Forall (fun e : cache_key * Pattern =>
            compile_regex e.1.1.1 e.1.1.2 e.1.2 = Ok e.2)
         (Lru.store size (i, st, et) pat c).1.
Proof.
  intros Hc Hs. unfold Lru.store.
  destruct (Nat.ltb (length c) size).
  - constructor; assumption.
  - destruct (Lru.oldest c); simpl.
    + constructor; [exact Hc|].
      rewrite Forall_forall in *. intros x Hx.
      apply Hs. apply list_elem_of_In, In_removelast, list_elem_of_In, Hx.
    + constructor; assumption.
Qed.

(** [self.compile] keeps the cache sound. *)
Lemma compile_sound (k : cache_key) (self : checker) :
  cache_sound self -> cache_sound (compile k self).2.
Proof.
  intros Hs. destruct k as [[i st] et]. unfold RegexCheckerImpl.compile.
  destruct (Nat.eqb (cache_size self) 0).
  - destruct (compile_regex i st et); exact Hs.
  - destruct (Lru.find (i, st, et) (cache self)) as [pat|] eqn:Hf.
    + unfold Ghost.cache_sound. simpl. unfold Lru.touch, Lru.remove.
      constructor.
      * apply find_In in Hf. unfold Ghost.cache_sound in Hs.
        rewrite Forall_forall in Hs.
        apply (Hs (i, st, et, pat)), list_elem_of_In, Hf.
      * apply Forall_forall. intros x Hx.
        apply list_elem_of_filter in Hx. destruct Hx as [_ Hx].
        unfold Ghost.cache_sound in Hs. rewrite Forall_forall in Hs.
        exact (Hs x Hx).
    + destruct (compile_regex i st et) as [pat|e] eqn:Hc; [|exact Hs].
      pose proof (store_sound (cache_size self) i st et pat (cache self) Hc Hs) as H.
      destruct (Lru.store (cache_size self) (i, st, et) pat (cache self)).
      exact H.
Qed.

(** A key the compiler rejects has no entry, so [self.compile] runs the
    compiler, stores nothing and raises. *)
Lemma compile_raises (i st et : string) (e : pyexn) (self : checker) :
  cache_sound self ->
  compile_regex i st et = Raise e ->
  compile (i, st, et) self
  = (Raise e, set_cache (cache self) [CompileFail (i, st, et)] self).
Proof.
  intros Hs Hc. unfold RegexCheckerImpl.compile. rewrite Hc.
  destruct (Nat.eqb (cache_size self) 0); [reflexivity|].
  destruct (Lru.find (i, st, et) (cache self)) as [pat|] eqn:Hf; [|reflexivity].
  apply find_In in Hf. unfold Ghost.cache_sound in Hs.
  rewrite Forall_forall in Hs.
  specialize (Hs (i, st, et, pat) (proj2 (list_elem_of_In _ _) Hf)).
  simpl in Hs. congruence.
Qed.

(** A key the compiler accepts comes back with the compiler's pattern,
    from the cache or from the compiler. *)
Lemma compile_returns (i st et : string) (pat : Pattern) (self : checker) :
  cache_sound self ->
  compile_regex i st et = Ok pat ->
  (compile (i, st, et) self).1 = Ok pat.
Proof.
  intros Hs Hc. unfold RegexCheckerImpl.compile. rewrite Hc.
  destruct (Nat.eqb (cache_size self) 0); [reflexivity|].
  destruct (Lru.find (i, st, et) (cache self)) as [pat'|] eqn:Hf.
  - apply find_In in Hf. unfold Ghost.cache_sound in Hs.
    rewrite Forall_forall in Hs.
    specialize (Hs (i, st, et, pat') (proj2 (list_elem_of_In _ _) Hf)).
    simpl in Hs. simpl. congruence.
  - destruct (Lru.store (cache_size self) (i, st, et) pat (cache self)).
    reflexivity.
Qed.

Lemma log_exception_sound (i : string) (self : checker) :
  cache_sound self -> cache_sound (log_exception i self).
Proof. intros H. exact H. Qed.

(** A whole scan keeps the cache sound. *)
Lemma fits_loop_sound (policy : Policy) (what : string) (items : list string)
    (self : checker) :
  cache_sound self -> cache_sound (fits_loop policy what items self).2.
Proof.
  revert self. induction items as [|i items IH]; intros self Hs.
  - exact Hs.
  - rewrite fits_loop_cons. destruct (is_literal policy i).
    + destruct (negb (String.eqb i what)); [apply IH, Hs | exact Hs].
    + pose proof (compile_sound (i, start_tag policy, end_tag policy) self Hs) as H.
      destruct (compile (i, start_tag policy, end_tag policy) self) as [[pat|e] self'].
      * simpl in H. destruct (re_match pat what); [exact H | apply IH, H].
      * simpl in H. destruct e; exact H.
Qed.

(** The step of the loop at a tagged item that does not compile. *)
Lemma fits_loop_invalid (policy : Policy) (what i : string)
    (rest : list string) (self : checker) :
  cache_sound self ->
  ~ Spec.literal_item policy i ->
  compile_regex i (start_tag policy) (end_tag policy) = Raise InvalidPatternError ->
  fits_loop policy what (i :: rest) self
  = (Ok false,
     log_exception i
       (set_cache (cache self)
          [CompileFail (i, start_tag policy, end_tag policy)] self)).
Proof.
  intros Hs Hl Hc. rewrite fits_loop_cons.
  rewrite (is_literal_false policy i Hl).
  rewrite (compile_raises _ _ _ _ self Hs Hc). reflexivity.
Qed.

(** What follows such an item has no part in the call. *)
Lemma fits_loop_cut (policy : Policy) (what i : string)
    (pre rest : list string) (self : checker) :
  cache_sound self ->
  ~ Spec.literal_item policy i ->
  compile_regex i (start_tag policy) (end_tag policy) = Raise InvalidPatternError ->
  fits_loop policy what (pre ++ i :: rest) self
  = fits_loop policy what (pre ++ [i]) self.
Proof.
  intros Hs Hl Hc. revert self Hs.
  induction pre as [|j pre IH]; intros self Hs.
  - rewrite !app_nil_l, !(fits_loop_invalid policy what i _ self Hs Hl Hc).
    reflexivity.
  - rewrite <- !app_comm_cons, !fits_loop_cons.
    destruct (is_literal policy j).
    + destruct (negb (String.eqb j what)); [apply IH, Hs | reflexivity].
    + pose proof (compile_sound (j, start_tag policy, end_tag policy) self Hs) as H.
      destruct (compile (j, start_tag policy, end_tag policy) self) as [[pat|e] self'].
      * simpl in H. destruct (re_match pat what); [reflexivity | apply IH, H].
      * reflexivity.
Qed.

(** A scan of literal items compares and leaves the checker alone. *)
Lemma fits_loop_literal (policy : Policy) (what : string)
    (items : list string) (self : checker) :
  Forall (Spec.literal_item policy) items ->
  exists b, fits_loop policy what items self = (Ok b, self)
            /\ (b = true <-> In what items).
Proof.
  induction 1 as [|i items Hi _ IH].
  - exists false. split; [reflexivity|]. simpl. split; [discriminate | tauto].
  - rewrite fits_loop_cons, (proj2 (is_literal_spec policy i) Hi).
    destruct (String.eqb_spec i what) as [->|Hne]; simpl negb; cbv iota.
    + exists true. split; [reflexivity|].
      split; [intros _; left; reflexivity | reflexivity].
    + destruct IH as [b [Hb Hiff]]. exists b. split; [exact Hb|].
      rewrite Hiff. split; [intros E; right; exact E|].
      intros [E|E]; [congruence | exact E].
Qed.

(** The step of the loop at a tagged item that compiles. *)
Lemma fits_loop_tagged (policy : Policy) (what i : string)
    (rest : list string) (pat : Pattern) (self : checker) :
  cache_sound self ->
  ~ Spec.literal_item policy i ->
  compile_regex i (start_tag policy) (end_tag policy) = Ok pat ->
  fits_loop policy what (i :: rest) self
  = if re_match pat what
    then (Ok true, (compile (i, start_tag policy, end_tag policy) self).2)
    else fits_loop policy what rest
           (compile (i, start_tag policy, end_tag policy) self).2.
Proof.
  intros Hs Hl Hc. rewrite fits_loop_cons.
  rewrite (is_literal_false policy i Hl).
  pose proof (compile_returns _ _ _ pat self Hs Hc) as H.
  destruct (compile (i, start_tag policy, end_tag policy) self) as [r self'].
  simpl in H. subst r. reflexivity.
Qed.

Lemma compile_log (k : cache_key) (self : checker) :
  log (compile k self).2 = log self.
Proof.
  destruct k as [[i st] et]. unfold RegexCheckerImpl.compile.
  destruct (Nat.eqb (cache_size self) 0).
  - destruct (compile_regex i st et); reflexivity.
  - destruct (Lru.find (i, st, et) (cache self)); [reflexivity|].
    destruct (compile_regex i st et) as [pat|e]; [|reflexivity].
    destruct (Lru.store (cache_size self) (i, st, et) pat (cache self)).
    reflexivity.
Qed.

(** The log only grows. *)
Lemma fits_loop_log (policy : Policy) (what : string) (items : list string)
    (self : checker) :
  length (log self) <= length (log (fits_loop policy what items self).2).
Proof.
  revert self. induction items as [|i items IH]; intros self.
  - simpl. lia.
  - rewrite fits_loop_cons. destruct (is_literal policy i).
    + destruct (negb (String.eqb i what)); [apply IH | simpl; lia].
    + pose proof (compile_log (i, start_tag policy, end_tag policy) self) as H.
      destruct (compile (i, start_tag policy, end_tag policy) self) as [[pat|e] self'].
      * simpl in H. destruct (re_match pat what).
        -- simpl. rewrite H. lia.
        -- rewrite <- H. apply IH.
      * simpl in H. destruct e; simpl; rewrite ?length_app, H; simpl; lia.
Qed.

(** A scan that ends in false with the log as it was has gone through every
    item, and a longer scan goes on from the state it left. *)
Lemma fits_loop_app (policy : Policy) (what : string)
    (pre items : list string) (self s1 : checker) :
  fits_loop policy what pre self = (Ok false, s1) ->
  log s1 = log self ->
  fits_loop policy what (pre ++ items) self = fits_loop policy what items s1.
Proof.
  revert self. induction pre as [|j pre IH]; intros self Hr Hlog.
  - simpl in Hr. injection Hr as <-. reflexivity.
  - rewrite <- app_comm_cons, fits_loop_cons. rewrite fits_loop_cons in Hr.
    destruct (is_literal policy j).
    + destruct (negb (String.eqb j what)); [apply IH; assumption | discriminate].
    + pose proof (compile_log (j, start_tag policy, end_tag policy) self) as H.
      destruct (compile (j, start_tag policy, end_tag policy) self) as [[pat|e] self'].
      * simpl in H. destruct (re_match pat what); [discriminate|].
        apply IH; [exact Hr | congruence].
      * simpl in H. destruct e; try discriminate.
        injection Hr as <-. simpl in Hlog. rewrite H in Hlog.
        apply (f_equal (@length string)) in Hlog.
        rewrite length_app in Hlog. simpl in Hlog. lia.
Qed.

(** With a compiler that raises nothing but [InvalidPatternError], a scan
    always returns a boolean. *)
Lemma fits_loop_returns (policy : Policy) (what : string)
    (items : list string) (self : checker) :
  (forall i st et e, compile_regex i st et = Raise e -> e = InvalidPatternError) ->
  exists b, (fits_loop policy what items self).1 = Ok b.
Proof.
  intros Hc. revert self. induction items as [|i items IH]; intros self.
  - exists false. reflexivity.
  - rewrite fits_loop_cons. destruct (is_literal policy i).
    + destruct (negb (String.eqb i what)); [apply IH | exists true; reflexivity].
    + assert (H : forall e, (compile (i, start_tag policy, end_tag policy) self).1
                            = Raise e -> e = InvalidPatternError).
      { intros e. unfold RegexCheckerImpl.compile.
        destruct (Nat.eqb (cache_size self) 0).
        - destruct (compile_regex i (start_tag policy) (end_tag policy)) eqn:E;
            [discriminate|]. intros [= <-]. exact (Hc _ _ _ _ E).
        - destruct (Lru.find _ (cache self)); [discriminate|].
          destruct (compile_regex i (start_tag policy) (end_tag policy)) eqn:E.
          + destruct (Lru.store _ _ _ _). discriminate.
          + intros [= <-]. exact (Hc _ _ _ _ E). }
      destruct (compile (i, start_tag policy, end_tag policy) self) as [[pat|e] self'].
      * destruct (re_match pat what); [exists true; reflexivity | apply IH].
      * rewrite (H e eq_refl). exists false. reflexivity.
Qed.

End Facts.
End RegexCheckerFacts.

(** C1. When the scan of [RegexChecker.fits] comes to a tagged item that
    does not compile, it returns false there, with the failure logged and
    one compiler run recorded, whatever items follow; the call as a whole
    is the call on the field cut after that item, so that no later item is
    tried; and when the items before it have all been passed over, the call
    returns false and raises nothing. *)
Theorem RegexChecker_fits_invalid_pattern {Pattern : Type}
    (compile_regex : string -> string -> string -> outcome pyexn Pattern)
    (re_match : Pattern -> string -> bool)
    (policy : Policy) (field what : string)
    (pre : list string) (i : string) (rest : list string)
    (self : RegexChecker Pattern) :
  Ghost.cache_sound compile_regex self ->
  getattr policy field = pre ++ i :: rest ->
  ~ Spec.literal_item policy i ->
  compile_regex i (start_tag policy) (end_tag policy) = Raise InvalidPatternError ->
  let failed s :=
    RegexCheckerImpl.log_exception i
      (RegexCheckerImpl.set_cache (cache s)
         [CompileFail (i, start_tag policy, end_tag policy)] s) in
  (forall s, Ghost.cache_sound compile_regex s ->
     RegexCheckerImpl.fits_loop compile_regex re_match policy what (i :: rest) s
     = (Ok false, failed s))
  /\ RegexCheckerImpl.fits compile_regex re_match policy field what self
     = RegexCheckerImpl.fits_loop compile_regex re_match policy what
         (pre ++ [i]) self
  /\ (forall s1,
        RegexCheckerImpl.fits_loop compile_regex re_match policy what pre self
        = (Ok false, s1) ->
        log s1 = log self ->
        RegexCheckerImpl.fits compile_regex re_match policy field what self
        = (Ok false, failed s1)).
Proof.
  intros Hs Hf Hl Hc failed. split; [|split].
  - intros s Hs'. apply RegexCheckerFacts.fits_loop_invalid; assumption.
  - unfold RegexCheckerImpl.fits. rewrite Hf.
    apply RegexCheckerFacts.fits_loop_cut; assumption.
  - intros s1 Hr Hlog. unfold RegexCheckerImpl.fits. rewrite Hf.
    rewrite (RegexCheckerFacts.fits_loop_app _ _ _ _ _ _ _ _ Hr Hlog).
    apply RegexCheckerFacts.fits_loop_invalid; try assumption.
    pose proof (RegexCheckerFacts.fits_loop_sound compile_regex re_match
                  policy what pre self Hs) as H.
    rewrite Hr in H. exact H.
Qed.

Lemma RegexChecker_fits_invalid_pattern_witness :
  RegexCheckerImpl.fits Parser.compile_regex Re.re_match
    Examples.broken_policy "subjects" "Dog" (RegexCheckerImpl.init 1024)
  = (Ok false,
     {| cache_size := 1024; cache := [];
        trace := [CompileFail ("<a", "<", ">")%string];
        log := ["Error matching policy, because of failed regex <a compilation"
               %string] |}).
Proof.
  refine (proj2 (proj2 (RegexChecker_fits_invalid_pattern
            Parser.compile_regex Re.re_match Examples.broken_policy
            "subjects" "Dog" [] "<a" ["<Dog[se]?>"%string]
            (RegexCheckerImpl.init 1024) _ _ _ _))
            (RegexCheckerImpl.init 1024) _ _).
  - constructor.
  - reflexivity.
  - intros [H _]. apply H. exists EmptyString, "a"%string. reflexivity.
  - reflexivity.
  - reflexivity.
  - reflexivity.
Defined.

(** C5. On a policy whose field holds only literal items,
    [RegexChecker.fits] returns true when the value is an element of the
    list the policy holds under that field and false when it is not, and
    the checker is left as it was; a field that is missing or empty gives
    false. *)
Theorem RegexChecker_fits_literal {Pattern : Type}
    (compile_regex : string -> string -> string -> outcome pyexn Pattern)
    (re_match : Pattern -> string -> bool)
    (policy : Policy) (field w : string) (self : RegexChecker Pattern) :
  (forall items,
     attrs policy !! field = Some items ->
     Forall (Spec.literal_item policy) items ->
     (In w items ->
      RegexCheckerImpl.fits compile_regex re_match policy field w self
      = (Ok true, self))
     /\ (~ In w items ->
         RegexCheckerImpl.fits compile_regex re_match policy field w self
         = (Ok false, self)))
  /\ (attrs policy !! field = None \/ attrs policy !! field = Some [] ->
      RegexCheckerImpl.fits compile_regex re_match policy field w self
      = (Ok false, self)).
Proof.
  split.
  - intros items Hf Hl.
    destruct (RegexCheckerFacts.fits_loop_literal compile_regex re_match
                policy w items self Hl) as [b [Hb Hiff]].
    unfold RegexCheckerImpl.fits, getattr. rewrite Hf. simpl.
    rewrite Hb. split; intros Hin.
    + rewrite (proj2 Hiff Hin). reflexivity.
    + destruct b; [|reflexivity]. exfalso. apply Hin, Hiff. reflexivity.
  - unfold RegexCheckerImpl.fits, getattr.
    intros [H|H]; rewrite H; reflexivity.
Qed.

Lemma RegexChecker_fits_literal_witness :
  let fits := RegexCheckerImpl.fits Parser.compile_regex Re.re_match in
  fits Examples.literal_policy "subjects"%string "Nina"%string
    (RegexCheckerImpl.init 1024)
  = (Ok true, RegexCheckerImpl.init 1024)
  /\ fits Examples.literal_policy "subjects"%string "Ni"%string
       (RegexCheckerImpl.init 1024)
     = (Ok false, RegexCheckerImpl.init 1024)
  /\ fits Examples.literal_policy "actions"%string "Nina"%string
       (RegexCheckerImpl.init 1024)
     = (Ok false, RegexCheckerImpl.init 1024).
Proof.
  intros fits.
  assert (Hl : Forall (Spec.literal_item Examples.literal_policy)
                 ["Max"; "Nina"]%string)
    by (repeat constructor; apply PyStrFacts.contains_false; reflexivity).
  split; [|split].
  - apply (proj1 (RegexChecker_fits_literal Parser.compile_regex Re.re_match
                    Examples.literal_policy "subjects" "Nina"
                    (RegexCheckerImpl.init 1024))
             ["Max"; "Nina"]%string eq_refl Hl).
    right. left. reflexivity.
  - apply (proj1 (RegexChecker_fits_literal Parser.compile_regex Re.re_match
                    Examples.literal_policy "subjects" "Ni"
                    (RegexCheckerImpl.init 1024))
             ["Max"; "Nina"]%string eq_refl Hl).
    intros [H|[H|[]]]; discriminate H.
  - apply (proj2 (RegexChecker_fits_literal Parser.compile_regex Re.re_match
                    Examples.literal_policy "actions" "Nina"
                    (RegexCheckerImpl.init 1024))).
    left. reflexivity.
Defined.

(** C6. A tagged item that compiles accepts the value exactly when
    [re.match] finds the compiled pattern at the start of the value: the
    loop returns true there on a match and goes on to the next item
    otherwise, so that on a field of this one item [fits] is the verdict of
    [re.match]; and [re.match] holds exactly when the pattern matches a part
    of the value that begins at its first character. With the tags [<] and
    [>] and the field [<Dog[se]?>], [fits] is true for [Dog], [Doge] and
    [Dogs] and false for [Dogger]. *)
Theorem RegexChecker_fits_tagged :
  (forall (Pattern : Type)
          (compile_regex : string -> string -> string -> outcome pyexn Pattern)
          (re_match : Pattern -> string -> bool)
          (policy : Policy) (field what i : string) (rest : list string)
          (pat : Pattern) (self : RegexChecker Pattern),
      Ghost.cache_sound compile_regex self ->
      ~ Spec.literal_item policy i ->
      compile_regex i (start_tag policy) (end_tag policy) = Ok pat ->
      let self' :=
        (RegexCheckerImpl.compile compile_regex
           (i, start_tag policy, end_tag policy) self).2 in
      RegexCheckerImpl.fits_loop compile_regex re_match policy what
        (i :: rest) self
      = (if re_match pat what then (Ok true, self')
         else RegexCheckerImpl.fits_loop compile_regex re_match policy what
                rest self')
      /\ (getattr policy field = [i] ->
          (RegexCheckerImpl.fits compile_regex re_match policy field what
             self).1 = Ok (re_match pat what)))
  /\ (forall (policy : Policy) (field what i : string) (pat : Re.regex)
             (self : RegexChecker Re.regex),
        Ghost.cache_sound Parser.compile_regex self ->
        ~ Spec.literal_item policy i ->
        Parser.compile_regex i (start_tag policy) (end_tag policy) = Ok pat ->
        getattr policy field = [i] ->
        ((RegexCheckerImpl.fits Parser.compile_regex Re.re_match policy field
            what self).1 = Ok true
         <-> exists rest b', Re.derives pat true what rest b'))
  /\ (forall (policy : Policy) (field : string) (self : RegexChecker Re.regex),
        Ghost.cache_sound Parser.compile_regex self ->
        start_tag policy = "<"%string -> end_tag policy = ">"%string ->
        getattr policy field = ["<Dog[se]?>"%string] ->
        let fits := RegexCheckerImpl.fits Parser.compile_regex Re.re_match in
        (fits policy field "Dog"%string self).1 = Ok true
        /\ (fits policy field "Doge"%string self).1 = Ok true
        /\ (fits policy field "Dogs"%string self).1 = Ok true
        /\ (fits policy field "Dogger"%string self).1 = Ok false).
Proof.
  assert (Hgen : forall (Pattern : Type)
          (compile_regex : string -> string -> string -> outcome pyexn Pattern)
          (re_match : Pattern -> string -> bool)
          (policy : Policy) (field what i : string)
          (pat : Pattern) (self : RegexChecker Pattern),
      Ghost.cache_sound compile_regex self ->
      ~ Spec.literal_item policy i ->
      compile_regex i (start_tag policy) (end_tag policy) = Ok pat ->
      getattr policy field = [i] ->
      (RegexCheckerImpl.fits compile_regex re_match policy field what
         self).1 = Ok (re_match pat what)).
  { intros Pattern compile_regex re_match policy field what i pat self
      Hs Hl Hc Hf.
    unfold RegexCheckerImpl.fits. rewrite Hf.
    rewrite (RegexCheckerFacts.fits_loop_tagged compile_regex re_match
               policy what i [] pat self Hs Hl Hc).
    destruct (re_match pat what); reflexivity. }
  split; [|split].
  - intros Pattern compile_regex re_match policy field what i rest pat self
      Hs Hl Hc self'. split.
    + apply RegexCheckerFacts.fits_loop_tagged; assumption.
    + apply Hgen; assumption.
  - intros policy field what i pat self Hs Hl Hc Hf.
    rewrite (Hgen _ _ _ policy field what i pat self Hs Hl Hc Hf).
    rewrite <- ReFacts.re_match_spec.
    split; [intros [= H]; exact H | intros ->; reflexivity].
  - intros policy field self Hs Hst Het Hf fits.
    assert (Hl : ~ Spec.literal_item policy "<Dog[se]?>").
    { intros [H _]. apply H. rewrite Hst.
      exists EmptyString, "Dog[se]?>"%string. reflexivity. }
    assert (Hc : exists pat,
               Parser.compile_regex "<Dog[se]?>" (start_tag policy)
                 (end_tag policy) = Ok pat
               /\ Re.re_match pat "Dog" = true
               /\ Re.re_match pat "Doge" = true
               /\ Re.re_match pat "Dogs" = true
               /\ Re.re_match pat "Dogger" = false).
    { rewrite Hst, Het. eexists. split; [reflexivity|].
      repeat split; vm_compute; reflexivity. }
    destruct Hc as [pat [Hc [H1 [H2 [H3 H4]]]]].
    unfold fits.
    rewrite !(Hgen _ _ _ policy field _ _ pat self Hs Hl Hc Hf).
    rewrite H1, H2, H3, H4. repeat split; reflexivity.
Qed.

Lemma RegexChecker_fits_tagged_witness :
  let fits w :=
    (RegexCheckerImpl.fits Parser.compile_regex Re.re_match
       Examples.dog_policy "subjects" w (RegexCheckerImpl.init 1024)).1 in
  fits "Dog"%string = Ok true
  /\ fits "Doge"%string = Ok true
  /\ fits "Dogs"%string = Ok true
  /\ fits "Dogger"%string = Ok false.
Proof.
  refine (proj2 (proj2 RegexChecker_fits_tagged) Examples.dog_policy
            "subjects" (RegexCheckerImpl.init 1024) _ _ _ _).
  - constructor.
  - reflexivity.
  - reflexivity.
  - reflexivity.
Defined.

(** ** The pattern cache *)

Module LruFacts.
Import RegexCheckerImpl Ghost.

Lemma distinct_NoDup (l : list cache_key) : NoDup (distinct l).
Proof.
  induction l as [|k l IH]; simpl; [constructor|].
  constructor.
  - rewrite list_elem_of_filter. intros [H _]. apply H. reflexivity.
  - apply NoDup_filter, IH.
Qed.

Lemma filter_absent (k : cache_key) (l : list cache_key) :
  k ∉ l -> filter (fun k' => k' <> k) l = l.
Proof.
  induction l as [|a l IH]; intros H; [reflexivity|].
  rewrite not_elem_of_cons in H. destruct H as [Hne Hl].
  rewrite filter_cons_True by congruence. rewrite IH by exact Hl. reflexivity.
Qed.

(** Moving a key that sits among the first [n] to the front keeps the
    first [n] the same keys. *)
Lemma take_touch (k : cache_key) (n : nat) (l : list cache_key) :
  NoDup l -> k ∈ take (S n) l ->
  take n (filter (fun k' => k' <> k) l)
  = filter (fun k' => k' <> k) (take (S n) l).
Proof.
  intros Hnd. revert n. induction Hnd as [|a l Ha Hnd IH]; intros n Hin.
  - simpl in Hin. inversion Hin.
  - simpl in Hin. destruct (decide (a = k)) as [->|Hne].
    + simpl take. rewrite !filter_cons_False by (intros H; apply H; reflexivity).
      rewrite (filter_absent k l Ha).
      rewrite filter_absent; [reflexivity|].
      intros H. apply Ha. exact (subseteq_take _ _ _ H).
    + apply elem_of_cons in Hin. destruct Hin as [->|Hin]; [congruence|].
      destruct n as [|n]; [simpl in Hin; inversion Hin|].
      simpl take. rewrite !filter_cons_True by exact Hne.
      simpl take. rewrite IH by exact Hin. reflexivity.
Qed.

(** A key that is not among the first [n + 1] can be struck out without
    touching the first [n]. *)
Lemma take_absent (k : cache_key) (n : nat) (l : list cache_key) :
  k ∉ take (S n) l ->
  take n (filter (fun k' => k' <> k) l) = take n l.
Proof.
  revert n. induction l as [|a l IH]; intros n Hin; [reflexivity|].
  simpl in Hin. rewrite not_elem_of_cons in Hin. destruct Hin as [Hne Hin].
  rewrite filter_cons_True by congruence.
  destruct n as [|n]; [reflexivity|].
  simpl take. rewrite IH by exact Hin. reflexivity.
Qed.

Lemma removelast_take {A : Type} (n : nat) (l : list A) :
  S n <= length l -> removelast (take (S n) l) = take n l.
Proof.
  revert l. induction n as [|n IH]; intros l Hlen.
  - destruct l as [|a l]; [simpl in Hlen; lia | reflexivity].
  - destruct l as [|a l]; [simpl in Hlen; lia|].
    simpl in Hlen. specialize (IH l ltac:(lia)).
    change (take (S (S n)) (a :: l)) with (a :: take (S n) l).
    change (take (S n) (a :: l)) with (a :: take n l).
    rewrite <- IH.
    destruct l as [|b l]; [simpl in Hlen; lia | reflexivity].
Qed.

Lemma recent_used (tr : list cache_event) (e : cache_event) (k : cache_key) :
  used e = Some k ->
  recent (tr ++ [e]) = k :: filter (fun k' => k' <> k) (recent tr).
Proof.
  intros H. unfold recent, uses. rewrite omap_app. simpl. rewrite H.
  simpl. rewrite rev_app_distr. reflexivity.
Qed.

Lemma recent_unused (tr : list cache_event) (e : cache_event) :
  used e = None -> recent (tr ++ [e]) = recent tr.
Proof.
  intros H. unfold recent, uses. rewrite omap_app. simpl. rewrite H.
  simpl. rewrite app_nil_r. reflexivity.
Qed.

Lemma keys_remove {V : Type} (k : cache_key) (c : Lru.t V) :
  Lru.keys (Lru.remove k c) = filter (fun k' => k' <> k) (Lru.keys c).
Proof.
  unfold Lru.keys, Lru.remove. induction c as [|[k' v] c IH]; [reflexivity|].
  rewrite fmap_cons. simpl fst.
  destruct (decide (k' = k)) as [->|Hne].
  - rewrite (filter_cons_False (fun e : cache_key * V => e.1 <> k))
      by (simpl; intros H; apply H; reflexivity).
    rewrite (filter_cons_False (fun k' : cache_key => k' <> k))
      by (intros H; apply H; reflexivity).
    exact IH.
  - rewrite (filter_cons_True (fun e : cache_key * V => e.1 <> k))
      by (simpl; exact Hne).
    rewrite (filter_cons_True (fun k' : cache_key => k' <> k)) by exact Hne.
    rewrite fmap_cons. f_equal. exact IH.
Qed.

Lemma keys_removelast {V : Type} (c : Lru.t V) :
  Lru.keys (removelast c) = removelast (Lru.keys c).
Proof.
  unfold Lru.keys. induction c as [|a c IH]; [reflexivity|].
  destruct c as [|b c]; [reflexivity|].
  simpl in *. f_equal. exact IH.
Qed.

Lemma oldest_last {V : Type} (c : Lru.t V) :
  Lru.oldest c = last (Lru.keys c).
Proof.
  unfold Lru.keys. induction c as [|[k v] c IH]; [reflexivity|].
  destruct c as [|b c]; [reflexivity|].
  change (Lru.oldest ((k, v) :: b :: c)) with (Lru.oldest (b :: c)).
  rewrite IH. reflexivity.
Qed.

Lemma keys_length {V : Type} (c : Lru.t V) : length (Lru.keys c) = length c.
Proof. apply length_fmap. Qed.

Lemma entries_snoc (tr : list cache_event) (e : cache_event) :
  entries (tr ++ [e]) = step_entries (entries tr) e.
Proof. unfold entries. rewrite fold_left_app. reflexivity. Qed.

Lemma step_entries_absent (held : list cache_key) (e : cache_event)
    (k : cache_key) :
  e <> Evict k -> ~ In k (step_entries held e) -> ~ In k held.
Proof.
  intros He Hk Hin. apply Hk. destruct e as [k'|k'|k'|k']; simpl; auto.
  apply list_elem_of_In, list_elem_of_filter. split.
  - congruence.
  - apply list_elem_of_In, Hin.
Qed.

(** A key that has no entry although the compiler once returned for it
    was evicted since. *)
Lemma absent_evicted (t1 t2 : list cache_event) (k : cache_key) :
  ~ In k (entries (t1 ++ CompileOk k :: t2)) -> In (Evict k) t2.
Proof.
  induction t2 as [|e t2 IH] using rev_ind; intros H.
  - exfalso. apply H. rewrite entries_snoc. left. reflexivity.
  - apply in_or_app.
    destruct (decide (e = Evict k)) as [->|Hne]; [right; left; reflexivity|].
    left. apply IH.
    rewrite app_comm_cons, app_assoc, entries_snoc in H.
    exact (step_entries_absent _ e k Hne H).
Qed.

(** One more event keeps the spacing when a compiler run only comes for
    a key without an entry. *)
Lemma cached_until_evicted_snoc (tr : list cache_event) (e : cache_event) :
  Spec.cached_until_evicted tr ->
  (forall k, Spec.runs_compiler e k -> ~ In k (entries tr)) ->
  Spec.cached_until_evicted (tr ++ [e]).
Proof.
  intros Htr He t1 t2 t3 e2 k Heq Hrun.
  destruct t3 as [|x t3 _] using rev_ind.
  - change (t1 ++ CompileOk k :: t2 ++ [e2])
      with (t1 ++ (CompileOk k :: t2) ++ [e2]) in Heq.
    rewrite app_assoc in Heq. apply app_inj_tail in Heq.
    destruct Heq as [-> ->].
    apply (absent_evicted t1 t2 k). apply He. exact Hrun.
  - assert (E : t1 ++ CompileOk k :: t2 ++ e2 :: t3 ++ [x]
                = (t1 ++ CompileOk k :: t2 ++ e2 :: t3) ++ [x])
      by (repeat (rewrite <- app_assoc; simpl); reflexivity).
    rewrite E in Heq. apply app_inj_tail in Heq.
    destruct Heq as [-> _].
    exact (Htr t1 t2 t3 e2 k eq_refl Hrun).
Qed.

Lemma removelast_NoDup (l : list cache_key) (old x : cache_key) :
  NoDup l -> last l = Some old ->
  (In x (removelast l) <-> In x l /\ x <> old).
Proof.
  intros Hnd Hlast. apply last_Some in Hlast. destruct Hlast as [l' ->].
  rewrite removelast_last.
  apply NoDup_app in Hnd. destruct Hnd as [_ [Hdis _]].
  rewrite in_app_iff. simpl. split.
  - intros H. split; [left; exact H|].
    intros ->. apply (Hdis old); [apply list_elem_of_In, H | left].
  - intros [[H|[H|[]]] Hne]; [exact H | congruence].
Qed.

Lemma find_Some_keys {V : Type} (k : cache_key) (v : V) (c : Lru.t V) :
  Lru.find k c = Some v -> In k (Lru.keys c).
Proof.
  intros H. apply RegexCheckerFacts.find_In in H.
  unfold Lru.keys. apply list_elem_of_In, list_elem_of_fmap.
  exists (k, v). split; [reflexivity | apply list_elem_of_In, H].
Qed.

Section Compile.
Context {Pattern : Type}.
Context (compile_regex : string -> string -> string -> outcome pyexn Pattern).
Context (re_match : Pattern -> string -> bool).

Local Abbreviation checker := (RegexChecker Pattern).
Local Abbreviation compile := (RegexCheckerImpl.compile compile_regex).
Local Abbreviation fits_loop := (RegexCheckerImpl.fits_loop compile_regex re_match).
Local Abbreviation fits := (RegexCheckerImpl.fits compile_regex re_match).

(** The four ways of [self.compile] when the cache is on: a hit, a
    compilation that raises, one that returns with room left, and one that
    returns into a full cache and evicts the key at the far end. *)
Lemma compile_cases (i st et : string) (self : checker) :
  0 < cache_size self ->
  let k := (i, st, et) in
  (exists pat,
     Lru.find k (cache self) = Some pat
     /\ compile k self
        = (Ok pat, set_cache (Lru.touch k pat (cache self)) [Hit k] self))
  \/ (exists e,
        Lru.find k (cache self) = None
        /\ compile_regex i st et = Raise e
        /\ compile k self
           = (Raise e, set_cache (cache self) [CompileFail k] self))
  \/ (exists pat,
        Lru.find k (cache self) = None
        /\ compile_regex i st et = Ok pat
        /\ length (cache self) < cache_size self
        /\ compile k self
           = (Ok pat, set_cache ((k, pat) :: cache self) [CompileOk k] self))
  \/ (exists pat old,
        Lru.find k (cache self) = None
        /\ compile_regex i st et = Ok pat
        /\ cache_size self <= length (cache self)
        /\ Lru.oldest (cache self) = Some old
        /\ compile k self
           = (Ok pat,
              set_cache ((k, pat) :: removelast (cache self))
                [CompileOk k; Evict old] self)).
Proof.
  intros Hpos k. unfold k, RegexCheckerImpl.compile.
  destruct (Nat.eqb_spec (cache_size self) 0) as [H0|_]; [lia|].
  destruct (Lru.find (i, st, et) (cache self)) as [pat|] eqn:Hf.
  - left. exists pat. split; reflexivity.
  - right. destruct (compile_regex i st et) as [pat|e] eqn:Hc.
    + right. unfold Lru.store.
      destruct (Nat.ltb_spec (length (cache self)) (cache_size self)) as [Hlt|Hge].
      * left. exists pat. repeat split; [exact Hlt].
      * right. destruct (Lru.oldest (cache self)) as [old|] eqn:Ho.
        -- exists pat, old. repeat split; [exact Hge].
        -- destruct (cache self) as [|[k' v'] c]; [simpl in Hge; lia|].
           simpl in Ho. destruct c as [|b c]; [discriminate|].
           exfalso. clear -Ho. revert b Ho.
           induction c as [|b' c IH]; intros [kb vb] Ho; [discriminate|].
           exact (IH b' Ho).
    + left. exists e. repeat split.
Qed.

Lemma compile_cache_size (k : cache_key) (self : checker) :
  cache_size (compile k self).2 = cache_size self.
Proof.
  destruct k as [[i st] et]. unfold RegexCheckerImpl.compile.
  destruct (Nat.eqb (cache_size self) 0).
  - destruct (compile_regex i st et); reflexivity.
  - destruct (Lru.find (i, st, et) (cache self)); [reflexivity|].
    destruct (compile_regex i st et) as [pat|e]; [|reflexivity].
    destruct (Lru.store (cache_size self) (i, st, et) pat (cache self)).
    reflexivity.
Qed.

(** With the cache off, nothing is ever stored. *)
Lemma compile_cache_off (k : cache_key) (self : checker) :
  cache_size self = 0 -> cache (compile k self).2 = cache self.
Proof.
  intros H0. destruct k as [[i st] et]. unfold RegexCheckerImpl.compile.
  rewrite H0. simpl. destruct (compile_regex i st et); reflexivity.
Qed.

Lemma lru_NoDup (self : checker) : lru_order self -> NoDup (Lru.keys (cache self)).
Proof.
  intros H. rewrite H.
  apply (sublist_NoDup _ (recent (trace self))).
  - apply distinct_NoDup.
  - apply sublist_take.
Qed.

Lemma hit_inv (k : cache_key) (pat : Pattern) (self : checker) :
  0 < cache_size self ->
  Lru.find k (cache self) = Some pat ->
  cache_inv self ->
  cache_inv (set_cache (Lru.touch k pat (cache self)) [Hit k] self).
Proof.
  intros Hpos Hf [Hlru [Hheld Hsp]].
  pose proof (find_Some_keys k pat _ Hf) as Hk.
  split; [|split].
  - unfold lru_order in *. simpl. unfold Lru.touch.
    rewrite (recent_used _ (Hit k) k eq_refl).
    destruct (cache_size self) as [|m]; [lia|].
    change (Lru.keys ((k, pat) :: Lru.remove k (cache self)))
      with (k :: Lru.keys (Lru.remove k (cache self))).
    rewrite keys_remove. simpl take. f_equal.
    rewrite take_touch.
    + rewrite <- Hlru. reflexivity.
    + apply distinct_NoDup.
    + rewrite <- Hlru. apply list_elem_of_In, Hk.
  - intros x. simpl. rewrite entries_snoc. simpl. rewrite <- (Hheld x).
    unfold Lru.touch.
    change (Lru.keys ((k, pat) :: Lru.remove k (cache self)))
      with (k :: Lru.keys (Lru.remove k (cache self))).
    rewrite keys_remove. split.
    + intros [<-|H]; [exact Hk|].
      apply list_elem_of_In, list_elem_of_filter in H.
      apply list_elem_of_In, H.
    + intros H. destruct (decide (x = k)) as [->|Hne]; [left; reflexivity|].
      right. apply list_elem_of_In, list_elem_of_filter.
      split; [exact Hne | apply list_elem_of_In, H].
  - simpl. apply cached_until_evicted_snoc; [exact Hsp|].
    intros k' [H|H]; discriminate.
Qed.

Lemma fail_inv (k : cache_key) (self : checker) :
  Lru.find k (cache self) = None ->
  cache_inv self ->
  cache_inv (set_cache (cache self) [CompileFail k] self).
Proof.
  intros Hf [Hlru [Hheld Hsp]]. split; [|split].
  - unfold lru_order in *. simpl.
    rewrite (recent_unused _ (CompileFail k) eq_refl). exact Hlru.
  - intros x. simpl. rewrite entries_snoc. simpl. apply Hheld.
  - simpl. apply cached_until_evicted_snoc; [exact Hsp|].
    intros k' [H|H]; [discriminate|]. injection H as <-.
    rewrite <- (Hheld k). apply RegexCheckerFacts.find_keys, Hf.
Qed.

Lemma store_inv (k : cache_key) (pat : Pattern) (self : checker) :
  Lru.find k (cache self) = None ->
  length (cache self) < cache_size self ->
  cache_inv self ->
  cache_inv (set_cache ((k, pat) :: cache self) [CompileOk k] self).
Proof.
  intros Hf Hlt [Hlru [Hheld Hsp]].
  pose proof (proj1 (RegexCheckerFacts.find_keys k _) Hf) as Hk.
  split; [|split].
  - unfold lru_order in *. simpl.
    rewrite (recent_used _ (CompileOk k) k eq_refl).
    destruct (cache_size self) as [|m]; [lia|].
    change (Lru.keys ((k, pat) :: cache self)) with (k :: Lru.keys (cache self)).
    simpl take. f_equal.
    rewrite take_absent
      by (rewrite <- Hlru; intros H; apply Hk, list_elem_of_In, H).
    assert (Hlen : length (recent (trace self)) <= m).
    { pose proof (keys_length (cache self)) as Hl.
      rewrite Hlru, length_take in Hl. lia. }
    rewrite Hlru, !take_ge by lia. reflexivity.
  - intros x. simpl. rewrite entries_snoc. simpl.
    change (Lru.keys ((k, pat) :: cache self)) with (k :: Lru.keys (cache self)).
    simpl. rewrite (Hheld x). reflexivity.
  - simpl. apply cached_until_evicted_snoc; [exact Hsp|].
    intros k' [H|H]; [|discriminate]. injection H as <-.
    rewrite <- (Hheld k). exact Hk.
Qed.

Lemma evict_inv (k old : cache_key) (pat : Pattern) (self : checker) :
  0 < cache_size self ->
  Lru.find k (cache self) = None ->
  cache_size self <= length (cache self) ->
  Lru.oldest (cache self) = Some old ->
  cache_inv self ->
  cache_inv (set_cache ((k, pat) :: removelast (cache self))
               [CompileOk k; Evict old] self).
Proof.
  intros Hpos Hf Hge Hold [Hlru [Hheld Hsp]].
  pose proof (proj1 (RegexCheckerFacts.find_keys k _) Hf) as Hk.
  pose proof (lru_NoDup self Hlru) as Hnd.
  rewrite oldest_last in Hold.
  assert (Htr : trace self ++ [CompileOk k; Evict old]
                = (trace self ++ [CompileOk k]) ++ [Evict old])
    by (rewrite <- app_assoc; reflexivity).
  split; [|split].
  - unfold lru_order in *. simpl. rewrite Htr.
    rewrite (recent_unused _ (Evict old) eq_refl).
    rewrite (recent_used _ (CompileOk k) k eq_refl).
    destruct (cache_size self) as [|m]; [lia|].
    change (Lru.keys ((k, pat) :: removelast (cache self)))
      with (k :: Lru.keys (removelast (cache self))).
    rewrite keys_removelast. simpl take. f_equal.
    rewrite take_absent
      by (rewrite <- Hlru; intros H; apply Hk, list_elem_of_In, H).
    rewrite Hlru. apply removelast_take.
    pose proof (keys_length (cache self)) as Hl.
    rewrite Hlru, length_take in Hl. lia.
  - intros x. simpl. rewrite Htr, !entries_snoc. simpl.
    change (Lru.keys ((k, pat) :: removelast (cache self)))
      with (k :: Lru.keys (removelast (cache self))).
    rewrite keys_removelast.
    assert (Hko : k <> old).
    { intros ->. apply Hk. apply last_Some in Hold. destruct Hold as [l' ->].
      apply in_or_app. right. left. reflexivity. }
    split.
    + intros H. apply list_elem_of_In, list_elem_of_filter.
      destruct H as [<-|H].
      * split; [exact Hko | left].
      * apply (removelast_NoDup _ old x Hnd Hold) in H. destruct H as [H Hne].
        split; [exact Hne|]. right. apply list_elem_of_In, Hheld, H.
    + intros H. apply list_elem_of_In, list_elem_of_filter in H.
      destruct H as [Hne H]. apply elem_of_cons in H.
      destruct H as [->|H]; [left; reflexivity|].
      right. apply (removelast_NoDup _ old x Hnd Hold).
      split; [apply Hheld, list_elem_of_In, H | exact Hne].
  - simpl. rewrite Htr.
    apply cached_until_evicted_snoc.
    + apply cached_until_evicted_snoc; [exact Hsp|].
      intros k' [H|H]; [|discriminate]. injection H as <-.
      rewrite <- (Hheld k). exact Hk.
    + intros k' [H|H]; discriminate.
Qed.

(** [self.compile] keeps the invariant of a cache that is on. *)
Lemma compile_inv (k : cache_key) (self : checker) :
  0 < cache_size self -> cache_inv self -> cache_inv (compile k self).2.
Proof.
  intros Hpos Hinv. destruct k as [[i st] et].
  destruct (compile_cases i st et self Hpos)
    as [[pat [Hf ->]]|[[e [Hf [_ ->]]]|[[pat [Hf [_ [Hlt ->]]]]
       |[pat [old [Hf [_ [Hge [Hold ->]]]]]]]]].
  - apply hit_inv; assumption.
  - apply fail_inv; assumption.
  - apply store_inv; assumption.
  - apply evict_inv; assumption.
Qed.

Lemma log_exception_inv (i : string) (self : checker) :
  cache_inv self -> cache_inv (log_exception i self).
Proof. intros H. exact H. Qed.

(** So does a whole scan. *)
Lemma fits_loop_inv (policy : Policy) (what : string) (items : list string)
    (self : checker) :
  0 < cache_size self -> cache_inv self ->
  cache_inv (fits_loop policy what items self).2
  /\ cache_size (fits_loop policy what items self).2 = cache_size self.
Proof.
  revert self. induction items as [|i items IH]; intros self Hpos Hinv.
  - split; [exact Hinv | reflexivity].
  - rewrite RegexCheckerFacts.fits_loop_cons. destruct (is_literal policy i).
    + destruct (negb (String.eqb i what)); [apply IH; assumption|].
      split; [exact Hinv | reflexivity].
    + pose proof (compile_inv (i, start_tag policy, end_tag policy) self
                    Hpos Hinv) as H.
      pose proof (compile_cache_size
                    (i, start_tag policy, end_tag policy) self) as Hsz.
      destruct (compile (i, start_tag policy, end_tag policy) self) as [[pat|e] self'].
      * simpl in H, Hsz. destruct (re_match pat what).
        -- split; assumption.
        -- rewrite <- Hsz. apply IH; [lia | exact H].
      * simpl in H, Hsz. destruct e; split; assumption.
Qed.

(** A scan with the cache off leaves the cache empty. *)
Lemma fits_loop_off (policy : Policy) (what : string) (items : list string)
    (self : checker) :
  cache_size self = 0 ->
  cache (fits_loop policy what items self).2 = cache self
  /\ cache_size (fits_loop policy what items self).2 = 0.
Proof.
  revert self. induction items as [|i items IH]; intros self H0.
  - split; [reflexivity | exact H0].
  - rewrite RegexCheckerFacts.fits_loop_cons. destruct (is_literal policy i).
    + destruct (negb (String.eqb i what)); [apply IH; assumption|].
      split; [reflexivity | exact H0].
    + pose proof (compile_cache_off
                    (i, start_tag policy, end_tag policy) self H0) as H.
      pose proof (compile_cache_size
                    (i, start_tag policy, end_tag policy) self) as Hsz.
      destruct (compile (i, start_tag policy, end_tag policy) self) as [[pat|e] self'].
      * simpl in H, Hsz. destruct (re_match pat what).
        -- split; simpl; [exact H | congruence].
        -- rewrite <- H. apply IH. congruence.
      * simpl in H, Hsz. destruct e; split; simpl; congruence.
Qed.

Lemma init_inv (size : nat) : cache_inv (@init Pattern size).
Proof.
  split; [|split].
  - unfold lru_order. simpl. destruct size; reflexivity.
  - intros k. reflexivity.
  - intros t1 t2 t3 e2 k H. destruct t1; discriminate.
Qed.

(** What holds of every state a checker goes through. *)
Lemma reachable_inv (size : nat) (self : checker) :
  reachable compile_regex re_match size self ->
  cache_size self = size
  /\ length (cache self) <= size
  /\ (0 < size -> cache_inv self).
Proof.
  induction 1 as [|self policy field what _ [Hsz [Hlen Hinv]]].
  - split; [reflexivity|]. split; [simpl; lia|]. intros _. apply init_inv.
  - unfold RegexCheckerImpl.fits.
    destruct size as [|m].
    + destruct (fits_loop_off policy what (getattr policy field) self Hsz)
        as [Hc Hs].
      split; [exact Hs|]. split; [rewrite Hc; exact Hlen | lia].
    + destruct (fits_loop_inv policy what (getattr policy field) self)
        as [Hi Hs]; [lia | apply Hinv; lia |].
      split; [congruence|]. split; [|intros _; exact Hi].
      destruct Hi as [Hlru _]. unfold lru_order in Hlru.
      rewrite <- keys_length, Hlru, length_take. lia.
Qed.

(** What [self.compile] hands back and writes down, on a sound cache: the
    compiler's own answer, the key among the keys asked for, and among
    the keys used when the compiler returns a pattern for it. *)
Lemma compile_record (k : cache_key) (self : checker) :
  cache_sound compile_regex self ->
  (compile k self).1 = compile_regex k.1.1 k.1.2 k.2
  /\ asked (trace (compile k self).2) = asked (trace self) ++ [k]
  /\ uses (trace (compile k self).2)
     = uses (trace self) ++ List.filter (compiles compile_regex) [k].
Proof.
  intros Hs. destruct k as [[i st] et].
  unfold asked, uses, compiles. simpl List.filter. simpl fst. simpl snd.
  unfold RegexCheckerImpl.compile.
  destruct (Nat.eqb (cache_size self) 0).
  - destruct (compile_regex i st et) as [pat|e]; simpl;
      rewrite !omap_app; repeat split.
  - destruct (Lru.find (i, st, et) (cache self)) as [pat|] eqn:Hf.
    + apply RegexCheckerFacts.find_In in Hf.
      unfold cache_sound in Hs. rewrite Forall_forall in Hs.
      specialize (Hs (i, st, et, pat) (proj2 (list_elem_of_In _ _) Hf)).
      simpl in Hs. rewrite Hs. simpl. rewrite !omap_app. repeat split.
    + destruct (compile_regex i st et) as [pat|e]; simpl;
        [|rewrite !omap_app; repeat split].
      unfold Lru.store.
      destruct (Nat.ltb (length (cache self)) (cache_size self));
        [simpl; rewrite !omap_app; repeat split|].
      destruct (Lru.oldest (cache self)); simpl; rewrite !omap_app;
        repeat split.
Qed.

(** A scan asks for the triples read off its items, whatever the cache
    holds. *)
Lemma fits_loop_requests (policy : Policy) (what : string)
    (items : list string) (self : checker) :
  cache_sound compile_regex self ->
  asked (trace (fits_loop policy what items self).2)
  = asked (trace self) ++ requests compile_regex re_match policy what items
  /\ uses (trace (fits_loop policy what items self).2)
     = uses (trace self)
       ++ List.filter (compiles compile_regex)
            (requests compile_regex re_match policy what items).
Proof.
  revert self. induction items as [|i items IH]; intros self Hs.
  - simpl. rewrite !app_nil_r. split; reflexivity.
  - rewrite RegexCheckerFacts.fits_loop_cons. simpl requests.
    destruct (is_literal policy i).
    + destruct (String.eqb i what); simpl negb; cbv iota.
      * simpl. rewrite !app_nil_r. split; reflexivity.
      * apply IH, Hs.
    + destruct (compile_record (i, start_tag policy, end_tag policy) self Hs)
        as [Hres [Hask Huse]].
      pose proof (RegexCheckerFacts.compile_sound compile_regex
                    (i, start_tag policy, end_tag policy) self Hs) as Hs'.
      destruct (compile (i, start_tag policy, end_tag policy) self)
        as [r self'].
      cbn [fst snd] in Hres, Hask, Huse, Hs'. subst r.
      destruct (compile_regex i (start_tag policy) (end_tag policy))
        as [pat|e] eqn:Hcr.
      * destruct (re_match pat what).
        -- cbn [fst snd]. rewrite Hask, Huse. split; reflexivity.
        -- destruct (IH self' Hs') as [Ha Hu].
           rewrite Ha, Hu, Hask, Huse. simpl List.filter.
           destruct (compiles compile_regex
                       (i, start_tag policy, end_tag policy));
             rewrite <- !app_assoc; split; reflexivity.
      * destruct e; cbn [fst snd]; try rewrite Hask, Huse;
          split; try reflexivity; assumption.
Qed.

Lemma after_calls_reachable (size : nat) (calls : list call)
    (self : checker) :
  reachable compile_regex re_match size self ->
  reachable compile_regex re_match size
    (after_calls compile_regex re_match calls self).
Proof.
  revert self. induction calls as [|[[policy field] what] calls IH];
    intros self Hr; [exact Hr|].
  simpl. apply IH. constructor. exact Hr.
Qed.

(** A checker writes down, call after call, the triples read off the
    policies and the values it was given. *)
Lemma after_calls_requests (calls : list call) (self : checker) :
  cache_sound compile_regex self ->
  asked (trace (after_calls compile_regex re_match calls self))
  = asked (trace self) ++ requests_of compile_regex re_match calls
  /\ uses (trace (after_calls compile_regex re_match calls self))
     = uses (trace self)
       ++ List.filter (compiles compile_regex)
            (requests_of compile_regex re_match calls).
Proof.
  revert self. induction calls as [|[[policy field] what] calls IH];
    intros self Hs.
  - simpl. rewrite !app_nil_r. split; reflexivity.
  - simpl after_calls. unfold requests_of. simpl flat_map.
    fold (requests_of compile_regex re_match calls).
    unfold RegexCheckerImpl.fits, getattr.
    destruct (fits_loop_requests policy what
                (default [] (attrs policy !! field)) self Hs) as [Ha Hu].
    pose proof (RegexCheckerFacts.fits_loop_sound compile_regex re_match
                  policy what (default [] (attrs policy !! field)) self Hs)
      as Hs'.
    destruct (IH _ Hs') as [Ha' Hu'].
    rewrite Ha', Hu', Ha, Hu, List.filter_app, !app_assoc.
    split; reflexivity.
Qed.

(** The invariant goes through [self.compile]. *)
Lemma compile_checker_inv (k : cache_key) (self : checker) :
  checker_inv compile_regex self ->
  checker_inv compile_regex (compile k self).2.
Proof.
  intros [Hs [Hu [Hpos Hoff]]].
  destruct (compile_record k self Hs) as [_ [Hask Huse]].
  pose proof (compile_cache_size k self) as Hsz.
  split; [apply RegexCheckerFacts.compile_sound, Hs|].
  split; [rewrite Huse, Hask, List.filter_app, Hu; reflexivity|].
  split.
  - rewrite Hsz. intros H. apply compile_inv; [exact H | exact (Hpos H)].
  - rewrite Hsz. intros H. rewrite (compile_cache_off k self H). exact (Hoff H).
Qed.

(** The keys of the cache are the most recently requested triples that
    compile. *)
Lemma checker_inv_keys (self : checker) :
  checker_inv compile_regex self ->
  Lru.keys (cache self)
  = take (cache_size self) (recent_of compile_regex (asked (trace self))).
Proof.
  intros [_ [Hu [Hpos Hoff]]]. unfold recent_of. rewrite <- Hu.
  destruct (cache_size self) as [|n] eqn:Hsz.
  - rewrite (Hoff eq_refl). reflexivity.
  - destruct (Hpos ltac:(lia)) as [Hlru _].
    unfold lru_order in Hlru. rewrite Hsz in Hlru. exact Hlru.
Qed.

(** [self.compile] answers from the cache exactly when the triple is
    among the [cache_size] most recently requested ones that compile,
    and runs the compiler otherwise. *)
Lemma compile_answer (k : cache_key) (self : checker) :
  checker_inv compile_regex self ->
  answered (trace (compile k self).2)
  = answered (trace self)
    ++ [answer compile_regex (cache_size self) (asked (trace self)) k].
Proof.
  intros Hinv. pose proof (checker_inv_keys self Hinv) as Hkeys.
  destruct Hinv as [Hs [_ [_ Hoff]]].
  unfold answer. rewrite <- Hkeys. clear Hkeys.
  destruct k as [[i st] et]. unfold compiles. simpl fst. simpl snd.
  unfold RegexCheckerImpl.compile, answered.
  destruct (Nat.eqb_spec (cache_size self) 0) as [H0|Hpos].
  - assert (Hin : ~ (i, st, et) ∈ Lru.keys (cache self))
      by (rewrite (Hoff H0); intros H; inversion H).
    rewrite (bool_decide_eq_false_2 _ Hin).
    destruct (compile_regex i st et); simpl; rewrite List.filter_app;
      reflexivity.
  - destruct (Lru.find (i, st, et) (cache self)) as [pat|] eqn:Hf.
    + assert (Hin : (i, st, et) ∈ Lru.keys (cache self)).
      { apply list_elem_of_In.
        destruct (In_dec (fun a b => decide (a = b)) (i, st, et)
                    (Lru.keys (cache self))) as [H|H]; [exact H|].
        apply RegexCheckerFacts.find_keys in H. congruence. }
      rewrite (bool_decide_eq_true_2 _ Hin). simpl.
      rewrite List.filter_app. reflexivity.
    + assert (Hin : ~ (i, st, et) ∈ Lru.keys (cache self)).
      { intros H. apply list_elem_of_In in H.
        exact (proj1 (RegexCheckerFacts.find_keys _ _) Hf H). }
      rewrite (bool_decide_eq_false_2 _ Hin).
      destruct (compile_regex i st et) as [pat|e]; simpl;
        [|rewrite List.filter_app; reflexivity].
      unfold Lru.store.
      destruct (Nat.ltb (length (cache self)) (cache_size self));
        [simpl; rewrite List.filter_app; reflexivity|].
      destruct (Lru.oldest (cache self)); simpl; rewrite List.filter_app;
        reflexivity.
Qed.

Lemma answers_app (size : nat) (before r1 r2 : list cache_key) :
  answers compile_regex size before (r1 ++ r2)
  = answers compile_regex size before r1
    ++ answers compile_regex size (before ++ r1) r2.
Proof.
  revert before. induction r1 as [|k r1 IH]; intros before.
  - simpl. rewrite app_nil_r. reflexivity.
  - simpl. rewrite IH, <- app_assoc. reflexivity.
Qed.

(** A scan is answered as the triples it asks for are, one after the
    other. *)
Lemma fits_loop_answers (policy : Policy) (what : string)
    (items : list string) (self : checker) :
  checker_inv compile_regex self ->
  checker_inv compile_regex (fits_loop policy what items self).2
  /\ cache_size (fits_loop policy what items self).2 = cache_size self
  /\ answered (trace (fits_loop policy what items self).2)
     = answered (trace self)
       ++ answers compile_regex (cache_size self) (asked (trace self))
            (requests compile_regex re_match policy what items).
Proof.
  revert self. induction items as [|i items IH]; intros self Hinv.
  - simpl. rewrite app_nil_r. split; [exact Hinv | split; reflexivity].
  - rewrite RegexCheckerFacts.fits_loop_cons. simpl requests.
    destruct (is_literal policy i).
    + destruct (String.eqb i what); simpl negb; cbv iota.
      * simpl. rewrite app_nil_r. split; [exact Hinv | split; reflexivity].
      * apply IH, Hinv.
    + pose proof (compile_checker_inv (i, start_tag policy, end_tag policy)
                    self Hinv) as Hinv'.
      pose proof (compile_answer (i, start_tag policy, end_tag policy)
                    self Hinv) as Hans.
      pose proof (compile_cache_size (i, start_tag policy, end_tag policy)
                    self) as Hsz.
      destruct (compile_record (i, start_tag policy, end_tag policy) self
                  (proj1 Hinv)) as [Hres [Hask _]].
      destruct (compile (i, start_tag policy, end_tag policy) self)
        as [r self'].
      cbn [fst snd] in Hres, Hask, Hinv', Hans, Hsz. subst r.
      destruct (compile_regex i (start_tag policy) (end_tag policy))
        as [pat|e].
      * destruct (re_match pat what).
        -- cbn [fst snd]. simpl answers.
           split; [exact Hinv' | split; [exact Hsz | exact Hans]].
        -- destruct (IH self' Hinv') as [Hi [Hs Ha]].
           split; [exact Hi|]. split; [congruence|].
           rewrite Ha, Hans, Hask, Hsz, <- app_assoc. reflexivity.
      * destruct e; cbn [fst snd]; simpl answers;
          (split; [exact Hinv' | split; [exact Hsz | exact Hans]]).
Qed.

Lemma init_checker_inv (size : nat) :
  checker_inv compile_regex (@init Pattern size).
Proof.
  split; [constructor|]. split; [reflexivity|].
  split; [intros _; apply init_inv | reflexivity].
Qed.

(** So is a sequence of calls. *)
Lemma after_calls_answers (calls : list call) (self : checker) :
  checker_inv compile_regex self ->
  answered (trace (after_calls compile_regex re_match calls self))
  = answered (trace self)
    ++ answers compile_regex (cache_size self) (asked (trace self))
         (requests_of compile_regex re_match calls).
Proof.
  revert self. induction calls as [|[[policy field] what] calls IH];
    intros self Hinv.
  - simpl. rewrite app_nil_r. reflexivity.
  - simpl after_calls. unfold requests_of. simpl flat_map.
    fold (requests_of compile_regex re_match calls).
    unfold RegexCheckerImpl.fits, getattr.
    destruct (fits_loop_answers policy what
                (default [] (attrs policy !! field)) self Hinv)
      as [Hi [Hs Ha]].
    destruct (fits_loop_requests policy what
                (default [] (attrs policy !! field)) self (proj1 Hinv))
      as [Hask _].
    rewrite (IH _ Hi), Ha, Hs, Hask, answers_app, <- app_assoc.
    reflexivity.
Qed.

End Compile.

End LruFacts.

(** C8. A checker made with [cache_size = size] and given any sequence of
    [fits] calls never holds more than [size] entries, and its trace
    records, in order, exactly the triples the calls hand to
    [self.compile], as read off the policies and the values. Each request
    is answered from the cache when its triple is among the [size] most
    recently requested triples that compile, and by a run of the compiler
    otherwise. When [size] is positive, the keys of the cache are the
    [size] most recently requested triples that compile, the most recent
    first, so that storing into a full cache drops the least recently
    used one; the keys of the cache are the keys the compiler runs and
    the evictions of the trace leave; and once the compiler has returned
    a pattern for a triple it does not run for that triple again before
    the entry of the triple has been evicted. *)
Theorem pattern_cache_lru {Pattern : Type}
    (compile_regex : string -> string -> string -> outcome pyexn Pattern)
    (re_match : Pattern -> string -> bool)
    (size : nat) (calls : list Ghost.call) :
  let self :=
    Ghost.after_calls compile_regex re_match calls
      (RegexCheckerImpl.init size) in
  let requested := Ghost.requests_of compile_regex re_match calls in
  length (cache self) <= size
  /\ Ghost.asked (trace self) = requested
  /\ Ghost.answered (trace self)
     = Ghost.answers compile_regex size [] requested
  /\ (0 < size ->
      Lru.keys (cache self)
      = take size
          (Ghost.distinct
             (rev (List.filter (Ghost.compiles compile_regex) requested)))
      /\ (forall k, In k (Lru.keys (cache self))
                    <-> In k (Ghost.entries (trace self)))
      /\ Spec.cached_until_evicted (trace self)).
Proof.
  intros self requested.
  assert (Hr : Ghost.reachable compile_regex re_match size self)
    by apply LruFacts.after_calls_reachable, Ghost.reach_init.
  destruct (LruFacts.reachable_inv compile_regex re_match size self Hr)
    as [Hsz [Hlen Hinv]].
  destruct (LruFacts.after_calls_requests compile_regex re_match calls
              (RegexCheckerImpl.init size)
              (RegexCheckerFacts.init_sound compile_regex size))
    as [Ha Hu].
  split; [exact Hlen|]. split; [exact Ha|].
  split; [exact (LruFacts.after_calls_answers compile_regex re_match calls
                   (RegexCheckerImpl.init size)
                   (LruFacts.init_checker_inv compile_regex size))|].
  intros Hpos.
  destruct (Hinv Hpos) as [Hlru [Hheld Hsp]].
  split; [|split; assumption].
  unfold Ghost.lru_order, Ghost.recent in Hlru.
  fold self in Hu. rewrite Hsz, Hu in Hlru. exact Hlru.
Qed.

(** A cache of two entries and three patterns: [b+] is compiled, used,
    dropped as the least recently used when [c+] comes, although [a+] was
    stored before it, and compiled again at its next use; [a+] is
    compiled once and answered from the cache three times. *)
Lemma pattern_cache_lru_witness :
  let ab := Examples.policy_with ["<a+>"; "<b+>"]%string in
  let c := Examples.policy_with ["<c+>"]%string in
  let ka : cache_key := ("<a+>", "<", ">")%string in
  let kb : cache_key := ("<b+>", "<", ">")%string in
  let kc : cache_key := ("<c+>", "<", ">")%string in
  let calls : list Ghost.call :=
    [(ab, "subjects", "b"); (ab, "subjects", "a"); (c, "subjects", "c");
     (ab, "subjects", "a"); (ab, "subjects", "b")]%string in
  let self :=
    Ghost.after_calls Parser.compile_regex Re.re_match calls
      (RegexCheckerImpl.init 2) in
  length (cache self) <= 2
  /\ Ghost.asked (trace self) = [ka; kb; ka; kc; ka; ka; kb]
  /\ Ghost.answered (trace self)
     = [CompileOk ka; CompileOk kb; Hit ka; CompileOk kc; Hit ka; Hit ka;
        CompileOk kb]
  /\ Lru.keys (cache self) = [kb; ka]
  /\ Spec.cached_until_evicted (trace self)
  /\ trace self
     = [CompileOk ka; CompileOk kb; Hit ka; CompileOk kc; Evict kb;
        Hit ka; Hit ka; CompileOk kb; Evict kc].
Proof.
  intros ab c ka kb kc calls self.
  destruct (pattern_cache_lru Parser.compile_regex Re.re_match 2 calls)
    as [H1 [H2 [H3 H4]]].
  destruct (H4 ltac:(lia)) as [H5 [_ H6]].
  split; [exact H1|]. split; [exact H2|]. split; [exact H3|].
  split; [exact H5|]. split; [exact H6 | reflexivity].
Defined.

(** A triple whose compilation fails gets no entry: two calls of [fits] on
    a pattern with an open tag run the compiler twice for the same triple,
    and nothing was evicted in between. With [cache_size] 0 nothing is
    stored at all, and a good pattern is compiled at every call. *)
Lemma pattern_cache_recompiles_invalid :
  let fits := RegexCheckerImpl.fits Parser.compile_regex Re.re_match in
  let twice policy size :=
    (fits policy "subjects" "Dog"%string
       (fits policy "subjects" "Dog"%string (RegexCheckerImpl.init size)).2).2 in
  let bad : cache_key := ("<a", "<", ">")%string in
  let dog : cache_key := ("<Dog[se]?>", "<", ">")%string in
  (Ghost.reachable Parser.compile_regex Re.re_match 1024
     (twice Examples.broken_policy 1024)
   /\ trace (twice Examples.broken_policy 1024) = [CompileFail bad; CompileFail bad]
   /\ ~ Spec.compiled_once_until_evicted (trace (twice Examples.broken_policy 1024)))
  /\ (Ghost.reachable Parser.compile_regex Re.re_match 0
        (twice Examples.dog_policy 0)
      /\ trace (twice Examples.dog_policy 0) = [CompileOk dog; CompileOk dog]
      /\ ~ Spec.compiled_once_until_evicted (trace (twice Examples.dog_policy 0))).
Proof.
  intros fits twice bad dog. split; (split; [|split]).
  - apply Ghost.reach_fits, Ghost.reach_fits, Ghost.reach_init.
  - reflexivity.
  - intros H.
    exact (H [] [] [] _ _ bad eq_refl (or_intror eq_refl) (or_intror eq_refl)).
  - apply Ghost.reach_fits, Ghost.reach_fits, Ghost.reach_init.
  - reflexivity.
  - intros H.
    exact (H [] [] [] _ _ dog eq_refl (or_introl eq_refl) (or_introl eq_refl)).
Qed.

(** ** The observable storage *)

Module ObservableFacts.
Import ObservableMutationStorage.

Section Facts.
Context {Pol Uid Inq Chk Val Exc Env Obs : Type}.
Context (storage : Storage Pol Uid Inq Chk Val Exc Env).
Context (run_observer : Obs -> Env -> outcome Exc unit * Env).

Local Abbreviation state := (ObservableMutationStorage.state Env Obs).

(** A round of notification runs the subscribers in order until one
    raises. *)
Lemma notify_loop_cases (obs : list Obs) (s : state) :
  (exists e1,
     all_return run_observer (env s) obs e1
     /\ notify_loop run_observer obs s
        = (Ok tt, {| env := e1; observers := observers s;
                     events := events s ++ map Invoked obs |}))
  \/ (exists called o rest e1 x e2,
        obs = called ++ o :: rest
        /\ all_return run_observer (env s) called e1
        /\ run_observer o e1 = (Raise x, e2)
        /\ notify_loop run_observer obs s
           = (Raise x, {| env := e2; observers := observers s;
                          events := events s ++ map Invoked (called ++ [o]) |})).
Proof.
  revert s. induction obs as [|o obs IH]; intros s.
  - left. exists (env s). split; [constructor|].
    destruct s. simpl. rewrite app_nil_r. reflexivity.
  - simpl. destruct (run_observer o (env s)) as [[u|x] e] eqn:Ho.
    + destruct (IH (record (Invoked o) e s))
        as [[e1 [Hall Hn]]|[called [o' [rest [e1 [x [e2 [-> [Hall [Ho' Hn]]]]]]]]]];
        rewrite Hn; simpl.
      * left. exists e1. split; [econstructor; eassumption|].
        rewrite <- app_assoc. reflexivity.
      * right. exists (o :: called), o', rest, e1, x, e2.
        split; [reflexivity|]. split; [econstructor; eassumption|].
        split; [exact Ho'|]. rewrite <- app_assoc. reflexivity.
    + right. exists [], o, obs, (env s), x, e.
      split; [reflexivity|]. split; [constructor|].
      split; [exact Ho | reflexivity].
Qed.

Lemma mutate_notifies_once (m : method) (call : Env -> outcome Exc Val * Env)
    (s : state) :
  notifies_once run_observer m call (mutate run_observer m call) s.
Proof.
  unfold notifies_once, mutate.
  destruct (call (env s)) as [[res|x] e]; [|reflexivity].
  unfold notify.
  destruct (notify_loop_cases
              (observers (record (Delegated m) e s))
              (record Notified (env (record (Delegated m) e s))
                 (record (Delegated m) e s)))
    as [[e1 [Hall Hn]]|[called [o [rest [e1 [x [e2 [Hobs [Hall [Ho Hn]]]]]]]]]];
    rewrite Hn; simpl in *.
  - left. exists e1. split; [exact Hall|].
    rewrite <- !app_assoc. reflexivity.
  - right. exists called, o, rest, e1, x, e2.
    split; [exact Hobs|]. split; [exact Hall|]. split; [exact Ho|].
    rewrite <- !app_assoc. reflexivity.
Qed.

Lemma proxy_delegates (m : method) (call : Env -> outcome Exc Val * Env)
    (s : state) :
  delegates m call (proxy m call) s.
Proof.
  unfold delegates, proxy. destruct (call (env s)) as [r e].
  repeat split.
Qed.

End Facts.
End ObservableFacts.

Section Claims.
Import ObservableMutationStorage.

(** C4. [add], [update] and [delete] hand the call to the wrapped storage.
    When the storage raises, the error goes to the caller unchanged and
    [notify()] is not entered. When the storage returns, [notify()] is
    entered exactly once, after the call, and the subscribers run in
    subscription order, each in the environment the one before left. When
    all of them return, the result of the storage is returned; when one of
    them raises, no later subscriber runs and its error goes to the caller
    in place of the result. *)
Theorem ObservableMutationStorage_mutations
    {Pol Uid Inq Chk Val Exc Env Obs : Type}
    (storage : Storage Pol Uid Inq Chk Val Exc Env)
    (run_observer : Obs -> Env -> outcome Exc unit * Env)
    (policy : Pol) (uid : Uid) (s : state Env Obs) :
  notifies_once run_observer MAdd (st_add storage policy)
    (add storage run_observer policy) s
  /\ notifies_once run_observer MUpdate (st_update storage policy)
       (update storage run_observer policy) s
  /\ notifies_once run_observer MDelete (st_delete storage uid)
       (delete storage run_observer uid) s.
Proof.
  repeat split; apply ObservableFacts.mutate_notifies_once.
Qed.

(** The storage returns [0] for [add], the one subscriber raises, and
    [add] raises the subscriber's error instead of returning [0]. *)
Lemma ObservableMutationStorage_add_observer_raises :
  st_add Examples.counting_storage tt 0 = (Ok 0, 1)
  /\ add Examples.counting_storage Examples.run_bool_observer tt
       (Examples.start_state [false])
     = (Raise "observer failed"%string,
        {| env := 1; observers := [false];
           events := [Delegated MAdd; Notified; Invoked false] |})
  /\ ~ returns_result
         (st_add Examples.counting_storage tt)
         (add Examples.counting_storage Examples.run_bool_observer tt)
         (Examples.start_state [false]).
Proof.
  split; [reflexivity|]. split; [reflexivity|].
  unfold returns_result. simpl. discriminate.
Qed.

(** With subscribers that return, [add] on a working storage calls each
    once, in order, after the storage, and returns the storage's result;
    on a failing storage it calls none. *)
Example ObservableMutationStorage_add_examples :
  add Examples.counting_storage Examples.run_bool_observer tt
    (Examples.start_state [true; true])
  = (Ok 0,
     {| env := 1; observers := [true; true];
        events := [Delegated MAdd; Notified; Invoked true; Invoked true] |})
  /\ add Examples.failing_storage Examples.run_bool_observer tt
       (Examples.start_state [true; true])
     = (Raise "down"%string,
        {| env := 0; observers := [true; true];
           events := [Delegated MAdd] |}).
Proof. split; reflexivity. Qed.

(** C9. [get], [get_all] and [find_for_inquiry] return or raise exactly
    what the wrapped storage does, leave the environment as the storage
    leaves it and the subscriber list as it was, and add no event but the
    call to the storage: [notify()] is not entered and no subscriber
    runs. *)
Theorem ObservableMutationStorage_reads
    {Pol Uid Inq Chk Val Exc Env Obs : Type}
    (storage : Storage Pol Uid Inq Chk Val Exc Env)
    (uid : Uid) (limit offset : Val) (inquiry : Inq) (checker : option Chk)
    (s : state Env Obs) :
  delegates MGet (st_get storage uid) (get storage uid) s
  /\ delegates MGetAll (st_get_all storage limit offset)
       (get_all storage limit offset) s
  /\ delegates MFindForInquiry
       (st_find_for_inquiry storage inquiry checker)
       (find_for_inquiry storage inquiry checker) s.
Proof.
  repeat split; apply ObservableFacts.proxy_delegates.
Qed.

End Claims.

(** ** Further evaluations *)

(** [re.match] looks for the pattern at the start of the value and not
    beyond the match: without an end anchor [Dog] is found in [Dogger] but
    not in [xDog]; it is the end anchor the compiler adds that turns
    [Dogger] down. *)
Example re_match_at_start :
  option_map (fun r => Re.re_match r "Dogger") (Re.parse "Dog[se]?") = Some true
  /\ option_map (fun r => Re.re_match r "xDog") (Re.parse "Dog[se]?") = Some false
  /\ option_map (fun r => Re.re_match r "Dogger") (Re.parse "Dog[se]?$") = Some false.
Proof. repeat split; reflexivity. Qed.

(** One more pattern than the cache has room for: the least recently used
    entry goes, and its pattern is compiled again at its next use. *)
Example pattern_cache_evicts :
  let policy := Examples.policy_with ["<a+>"; "<b+>"]%string in
  let ka : cache_key := ("<a+>", "<", ">")%string in
  let kb : cache_key := ("<b+>", "<", ">")%string in
  let fits := RegexCheckerImpl.fits Parser.compile_regex Re.re_match in
  let s1 := (fits policy "subjects" "c"%string (RegexCheckerImpl.init 1)).2 in
  let s2 := (fits policy "subjects" "aa"%string s1).2 in
  trace s1 = [CompileOk ka; CompileOk kb; Evict ka]
  /\ Lru.keys (cache s1) = [kb]
  /\ trace s2 = trace s1 ++ [CompileOk ka; Evict kb].
Proof. repeat split; reflexivity. Qed.

(** The examples of the spec for [StringEqualCondition]. *)
Example StringEqual_examples :
  StringEqualConditionImpl.init (VInt 5) = Raise TypeError
  /\ StringEqualConditionImpl.satisfied {| equals := "a" |} (VStr "a") tt = true
  /\ StringEqualConditionImpl.satisfied {| equals := "a" |} (VStr "b") tt = false
  /\ StringEqualConditionImpl.satisfied {| equals := "a" |} (VInt 5) tt = false.
Proof. repeat split; reflexivity. Qed.

(** String checkers on a tagged and an untagged item. *)
Example StringChecker_examples :
  StringCheckerImpl.fits StringExactChecker Examples.tagged_policy
    "subjects" "sunny" = Ok true
  /\ StringCheckerImpl.fits StringExactChecker Examples.tagged_policy
       "subjects" "<sunny>" = Ok false
  /\ StringCheckerImpl.fits StringFuzzyChecker Examples.tagged_policy
       "subjects" "sun" = Ok true
  /\ StringCheckerImpl.fits StringFuzzyChecker Examples.tagged_policy
       "subjects" "ain" = Ok true
  /\ StringCheckerImpl.fits StringFuzzyChecker Examples.tagged_policy
       "actions" "sun" = Ok false.
Proof. repeat split; reflexivity. Qed.

(** * More properties of the code *)

(** ** The regex checker *)

Module RegexCheckerMore.
Import RegexCheckerImpl Ghost.

Section More.
Context {Pattern : Type}.
Context (compile_regex : string -> string -> string -> outcome pyexn Pattern).
Context (re_match : Pattern -> string -> bool).

Local Abbreviation checker := (RegexChecker Pattern).
Local Abbreviation compile := (RegexCheckerImpl.compile compile_regex).
Local Abbreviation fits_loop := (RegexCheckerImpl.fits_loop compile_regex re_match).
Local Abbreviation cache_sound := (Ghost.cache_sound compile_regex).

(** Through a sound cache [self.compile] answers as the compiler does. *)
Lemma compile_result (i st et : string) (self : checker) :
  cache_sound self -> (compile (i, st, et) self).1 = compile_regex i st et.
Proof.
  intros Hs. destruct (compile_regex i st et) as [pat|e] eqn:Hc.
  - exact (RegexCheckerFacts.compile_returns compile_regex i st et pat self Hs Hc).
  - rewrite (RegexCheckerFacts.compile_raises compile_regex i st et e self Hs Hc).
    reflexivity.
Qed.

(** The verdict of a scan does not depend on what the cache holds. *)
Lemma fits_loop_transparent (policy : Policy) (what : string)
    (items : list string) (s1 s2 : checker) :
  cache_sound s1 -> cache_sound s2 ->
  (fits_loop policy what items s1).1 = (fits_loop policy what items s2).1.
Proof.
  revert s1 s2. induction items as [|i items IH]; intros s1 s2 H1 H2.
  - reflexivity.
  - rewrite !RegexCheckerFacts.fits_loop_cons.
    destruct (is_literal policy i).
    + destruct (negb (String.eqb i what)); [apply IH; assumption | reflexivity].
    + pose proof (compile_result i (start_tag policy) (end_tag policy) s1 H1) as R1.
      pose proof (compile_result i (start_tag policy) (end_tag policy) s2 H2) as R2.
      pose proof (RegexCheckerFacts.compile_sound compile_regex
                    (i, start_tag policy, end_tag policy) s1 H1) as S1.
      pose proof (RegexCheckerFacts.compile_sound compile_regex
                    (i, start_tag policy, end_tag policy) s2 H2) as S2.
      destruct (compile (i, start_tag policy, end_tag policy) s1) as [r1 s1'].
      destruct (compile (i, start_tag policy, end_tag policy) s2) as [r2 s2'].
      simpl in R1, R2, S1, S2. subst r1 r2.
      destruct (compile_regex i (start_tag policy) (end_tag policy)) as [pat|e].
      * destruct (re_match pat what); [reflexivity | apply IH; assumption].
      * destruct e; reflexivity.
Qed.

(** Every state a checker goes through has a sound cache. *)
Lemma reachable_sound (size : nat) (self : checker) :
  reachable compile_regex re_match size self -> cache_sound self.
Proof.
  induction 1 as [|self policy field what _ IH].
  - apply RegexCheckerFacts.init_sound.
  - apply RegexCheckerFacts.fits_loop_sound, IH.
Qed.

(** A scan that ended otherwise than by running out of items is not
    changed by more items. *)
Lemma fits_loop_stops (policy : Policy) (what : string)
    (pre rest : list string) (self s1 : checker) (r : outcome pyexn bool) :
  fits_loop policy what pre self = (r, s1) ->
  r <> Ok false ->
  fits_loop policy what (pre ++ rest) self = (r, s1).
Proof.
  revert self. induction pre as [|j pre IH]; intros self Hr Hne.
  - simpl in Hr. injection Hr as <- _. congruence.
  - rewrite <- app_comm_cons, RegexCheckerFacts.fits_loop_cons.
    rewrite RegexCheckerFacts.fits_loop_cons in Hr.
    destruct (is_literal policy j).
    + destruct (negb (String.eqb j what)); [apply IH; assumption | exact Hr].
    + destruct (compile (j, start_tag policy, end_tag policy) self)
        as [[pat|e] self'].
      * destruct (re_match pat what); [exact Hr | apply IH; assumption].
      * destruct e; exact Hr.
Qed.

(** A scan leaves [cache_size] alone, and writes to the log at most once:
    when it returns false at a tagged item. *)
Lemma fits_loop_log_spec (policy : Policy) (what : string)
    (items : list string) (self : checker) :
  cache_size (fits_loop policy what items self).2 = cache_size self
  /\ (log (fits_loop policy what items self).2 = log self
      \/ (fits_loop policy what items self).1 = Ok false
         /\ exists i, In i items /\ ~ Spec.literal_item policy i
                      /\ log (fits_loop policy what items self).2
                         = log self ++ [failed_regex_message i]).
Proof.
  revert self. induction items as [|i items IH]; intros self.
  - split; [reflexivity | left; reflexivity].
  - rewrite RegexCheckerFacts.fits_loop_cons.
    destruct (is_literal policy i) eqn:Hl.
    + destruct (negb (String.eqb i what)).
      * destruct (IH self) as [Hsz [H|[Hr [i' [Hin [Hnl Hlog]]]]]].
        -- split; [exact Hsz | left; exact H].
        -- split; [exact Hsz|]. right. split; [exact Hr|].
           exists i'. split; [right; exact Hin | split; assumption].
      * split; [reflexivity | left; reflexivity].
    + assert (Hnl : ~ Spec.literal_item policy i).
      { rewrite <- RegexCheckerFacts.is_literal_spec. congruence. }
      pose proof (RegexCheckerFacts.compile_log compile_regex
                    (i, start_tag policy, end_tag policy) self) as Hlog.
      pose proof (LruFacts.compile_cache_size compile_regex
                    (i, start_tag policy, end_tag policy) self) as Hsz.
      destruct (compile (i, start_tag policy, end_tag policy) self)
        as [[pat|e] self'].
      * simpl in Hlog, Hsz. destruct (re_match pat what).
        -- split; [exact Hsz | left; exact Hlog].
        -- destruct (IH self') as [Hsz' [H|[Hr [i' [Hin [Hnl' Hlog']]]]]].
           ++ split; [congruence | left; congruence].
           ++ split; [congruence|]. right. split; [exact Hr|].
              exists i'. split; [right; exact Hin | split; [exact Hnl'|]].
              rewrite Hlog', Hlog. reflexivity.
      * simpl in Hlog, Hsz. destruct e.
        -- split; [exact Hsz | left; exact Hlog].
        -- split; [exact Hsz | left; exact Hlog].
        -- split; [exact Hsz | left; exact Hlog].
        -- split; [exact Hsz|]. right. split; [reflexivity|].
           exists i. split; [left; reflexivity | split; [exact Hnl|]].
           simpl. rewrite Hlog. reflexivity.
Qed.

(** What one [self.compile] call adds to the trace concerns its key, or
    is an eviction. *)
Lemma compile_trace (k : cache_key) (self : checker) :
  exists evs,
    trace (compile k self).2 = trace self ++ evs
    /\ Forall (fun e => e = Hit k \/ e = CompileOk k \/ e = CompileFail k
                        \/ exists k', e = Evict k') evs.
Proof.
  assert (Hone : forall (e : cache_event) (tr : list cache_event),
             e = Hit k \/ e = CompileOk k \/ e = CompileFail k
             \/ (exists k', e = Evict k') ->
             exists evs, tr ++ [e] = tr ++ evs
               /\ Forall (fun e => e = Hit k \/ e = CompileOk k
                                   \/ e = CompileFail k
                                   \/ exists k', e = Evict k') evs).
  { intros e tr He. exists [e]. split; [reflexivity|].
    constructor; [exact He | constructor]. }
  destruct k as [[i st] et]. unfold RegexCheckerImpl.compile.
  destruct (Nat.eqb (cache_size self) 0).
  - destruct (compile_regex i st et); apply Hone; auto.
  - destruct (Lru.find (i, st, et) (cache self)).
    + apply Hone. auto.
    + destruct (compile_regex i st et) as [pat|e].
      * unfold Lru.store.
        destruct (Nat.ltb (length (cache self)) (cache_size self)).
        -- apply Hone. auto.
        -- destruct (Lru.oldest (cache self)) as [old|].
           ++ eexists. split; [reflexivity|].
              constructor; [auto|]. constructor; [|constructor].
              right. right. right. exists old. reflexivity.
           ++ apply Hone. auto.
      * apply Hone. auto.
Qed.

Lemma about_items_cons (policy : Policy) (i : string) (items : list string)
    (e : cache_event) :
  about_items policy items e -> about_items policy (i :: items) e.
Proof.
  intros [H|[j [Hin [Hnl H]]]]; [left; exact H|].
  right. exists j. split; [right; exact Hin | split; assumption].
Qed.

Lemma fits_loop_trace_spec (policy : Policy) (what : string)
    (items : list string) (self : checker) :
  exists evs,
    trace (fits_loop policy what items self).2 = trace self ++ evs
    /\ Forall (about_items policy items) evs.
Proof.
  revert self. induction items as [|i items IH]; intros self.
  - exists []. split; [simpl; rewrite app_nil_r; reflexivity | constructor].
  - rewrite RegexCheckerFacts.fits_loop_cons.
    destruct (is_literal policy i) eqn:Hl.
    + destruct (negb (String.eqb i what)).
      * destruct (IH self) as [evs [Ht Hf]]. exists evs. split; [exact Ht|].
        eapply Forall_impl; [exact Hf|]. apply about_items_cons.
      * exists []. split; [simpl; rewrite app_nil_r; reflexivity | constructor].
    + assert (Hnl : ~ Spec.literal_item policy i).
      { rewrite <- RegexCheckerFacts.is_literal_spec. congruence. }
      destruct (compile_trace (i, start_tag policy, end_tag policy) self)
        as [evs [Ht Hf]].
      assert (Hf' : Forall (about_items policy (i :: items)) evs).
      { eapply Forall_impl; [exact Hf|]. intros e [H|[H|[H|H]]].
        - right. exists i. split; [left; reflexivity | split; [exact Hnl|]].
          left. exact H.
        - right. exists i. split; [left; reflexivity | split; [exact Hnl|]].
          right. left. exact H.
        - right. exists i. split; [left; reflexivity | split; [exact Hnl|]].
          right. right. exact H.
        - left. exact H. }
      destruct (compile (i, start_tag policy, end_tag policy) self)
        as [[pat|e] self'].
      * simpl in Ht. destruct (re_match pat what).
        -- exists evs. split; assumption.
        -- destruct (IH self') as [evs' [Ht' Hf'']].
           exists (evs ++ evs'). split.
           ++ rewrite Ht', Ht, app_assoc. reflexivity.
           ++ apply Forall_app. split; [exact Hf'|].
              eapply Forall_impl; [exact Hf''|]. apply about_items_cons.
      * simpl in Ht. destruct e; exists evs; split; assumption.
Qed.

End More.

(** The modelled compiler raises nothing but [InvalidPatternError]. *)
Lemma compile_regex_raises (i st et : string) (e : pyexn) :
  Parser.compile_regex i st et = Raise e -> e = InvalidPatternError.
Proof.
  unfold Parser.compile_regex.
  destruct (Parser.tag_char st); [|intros [= <-]; reflexivity].
  destruct (Parser.tag_char et); [|intros [= <-]; reflexivity].
  destruct (_ ≫= _); [discriminate | intros [= <-]; reflexivity].
Qed.

End RegexCheckerMore.

(** X1. With a compiler that raises nothing but [InvalidPatternError],
    [RegexChecker.fits] returns a boolean from every state of the checker:
    the [except] clause leaves no error to the caller. *)
Theorem RegexChecker_fits_returns_bool {Pattern : Type}
    (compile_regex : string -> string -> string -> outcome pyexn Pattern)
    (re_match : Pattern -> string -> bool)
    (policy : Policy) (field what : string) (self : RegexChecker Pattern) :
  (forall i st et e, compile_regex i st et = Raise e -> e = InvalidPatternError) ->
  exists b,
    (RegexCheckerImpl.fits compile_regex re_match policy field what self).1
    = Ok b.
Proof.
  intros Hc. apply RegexCheckerFacts.fits_loop_returns. exact Hc.
Qed.

Lemma RegexChecker_fits_returns_bool_witness :
  exists b,
    (RegexCheckerImpl.fits Parser.compile_regex Re.re_match
       Examples.broken_policy "subjects" "Dog" (RegexCheckerImpl.init 8)).1
    = Ok b.
Proof.
  apply (RegexChecker_fits_returns_bool Parser.compile_regex Re.re_match
           Examples.broken_policy "subjects" "Dog" (RegexCheckerImpl.init 8)).
  exact RegexCheckerMore.compile_regex_raises.
Defined.

(** X2. A call of [RegexChecker.fits] that ends at some item, by a match
    or by a pattern that does not compile, is the same call whatever items
    follow in the field: outcome, cache, trace and log. Only a scan that
    ran out of items goes on to later ones. *)
Theorem RegexChecker_fits_ends_scan {Pattern : Type}
    (compile_regex : string -> string -> string -> outcome pyexn Pattern)
    (re_match : Pattern -> string -> bool)
    (policy : Policy) (field what : string) (pre rest : list string)
    (self s1 : RegexChecker Pattern) (r : outcome pyexn bool) :
  getattr policy field = pre ++ rest ->
  RegexCheckerImpl.fits_loop compile_regex re_match policy what pre self
  = (r, s1) ->
  r <> Ok false \/ log s1 <> log self ->
  RegexCheckerImpl.fits compile_regex re_match policy field what self
  = (r, s1).
Proof.
  intros Hf Hr Hend. unfold RegexCheckerImpl.fits. rewrite Hf. clear Hf.
  assert (Hcase : r = Ok false \/ r <> Ok false)
    by (destruct r as [[|]|e];
        [right; discriminate | left; reflexivity | right; discriminate]).
  destruct Hcase as [->|Hne].
  - destruct Hend as [H|Hlog]; [congruence|].
    revert self Hr Hlog. induction pre as [|j pre IH]; intros self Hr Hlog.
    + simpl in Hr. injection Hr as <-. congruence.
    + rewrite <- app_comm_cons, RegexCheckerFacts.fits_loop_cons.
      rewrite RegexCheckerFacts.fits_loop_cons in Hr.
      destruct (RegexCheckerImpl.is_literal policy j).
      * destruct (negb (String.eqb j what)); [apply IH; assumption | exact Hr].
      * pose proof (RegexCheckerFacts.compile_log compile_regex
                      (j, start_tag policy, end_tag policy) self) as Hl.
        destruct (RegexCheckerImpl.compile compile_regex
                    (j, start_tag policy, end_tag policy) self)
          as [[pat|e] self'].
        -- simpl in Hl. destruct (re_match pat what); [exact Hr|].
           apply IH; [exact Hr | congruence].
        -- destruct e; exact Hr.
  - apply RegexCheckerMore.fits_loop_stops; assumption.
Qed.

Lemma RegexChecker_fits_ends_scan_witness :
  (RegexCheckerImpl.fits Parser.compile_regex Re.re_match
     (Examples.policy_with ["<Dog[se]?>"; "<a"; "Dog"]%string)
     "subjects" "Dogs" (RegexCheckerImpl.init 8)).1
  = Ok true.
Proof.
  rewrite (RegexChecker_fits_ends_scan Parser.compile_regex Re.re_match
             (Examples.policy_with ["<Dog[se]?>"; "<a"; "Dog"]%string)
             "subjects" "Dogs" ["<Dog[se]?>"%string] ["<a"; "Dog"]%string
             (RegexCheckerImpl.init 8)
             (RegexCheckerImpl.fits_loop Parser.compile_regex Re.re_match
                (Examples.policy_with ["<Dog[se]?>"; "<a"; "Dog"]%string)
                "Dogs" ["<Dog[se]?>"%string] (RegexCheckerImpl.init 8)).2
             (Ok true)).
  - reflexivity.
  - reflexivity.
  - reflexivity.
  - left. discriminate.
Defined.

(** X3. One call of [RegexChecker.fits] never changes [cache_size], and
    writes to the log at most once: either the log is as it was, or the
    call returned false and the one new entry names a tagged item of the
    field. *)
Theorem RegexChecker_fits_logs_once {Pattern : Type}
    (compile_regex : string -> string -> string -> outcome pyexn Pattern)
    (re_match : Pattern -> string -> bool)
    (policy : Policy) (field what : string) (self : RegexChecker Pattern) :
  let res := RegexCheckerImpl.fits compile_regex re_match policy field what
               self in
  cache_size res.2 = cache_size self
  /\ (log res.2 = log self
      \/ res.1 = Ok false
         /\ exists i, In i (getattr policy field)
                      /\ ~ Spec.literal_item policy i
                      /\ log res.2 = log self ++ [failed_regex_message i]).
Proof. apply RegexCheckerMore.fits_loop_log_spec. Qed.

(** X4. What one call of [RegexChecker.fits] does to the pattern cache
    concerns only the tagged items of the field, under the tags of the
    policy: every hit and every compiler run is for such an item, and a
    literal item is never handed to the compiler. *)
Theorem RegexChecker_fits_compiles_tagged_only {Pattern : Type}
    (compile_regex : string -> string -> string -> outcome pyexn Pattern)
    (re_match : Pattern -> string -> bool)
    (policy : Policy) (field what : string) (self : RegexChecker Pattern) :
  exists evs,
    trace (RegexCheckerImpl.fits compile_regex re_match policy field what
             self).2 = trace self ++ evs
    /\ Forall (about_items policy (getattr policy field)) evs.
Proof. apply RegexCheckerMore.fits_loop_trace_spec. Qed.

(** X5. The pattern cache never changes an answer. Every state a checker
    goes through has a cache whose entries are what the compiler returns
    for their keys, and from such a state [fits] gives the verdict a
    checker fresh from [__init__], of any [cache_size], gives. *)
Theorem RegexChecker_cache_transparent {Pattern : Type}
    (compile_regex : string -> string -> string -> outcome pyexn Pattern)
    (re_match : Pattern -> string -> bool)
    (size : nat) (self : RegexChecker Pattern) :
  Ghost.reachable compile_regex re_match size self ->
  Ghost.cache_sound compile_regex self
  /\ forall size' policy field what,
       (RegexCheckerImpl.fits compile_regex re_match policy field what self).1
       = (RegexCheckerImpl.fits compile_regex re_match policy field what
            (RegexCheckerImpl.init size')).1.
Proof.
  intros Hr.
  pose proof (RegexCheckerMore.reachable_sound compile_regex re_match size
                self Hr) as Hs.
  split; [exact Hs|]. intros size' policy field what.
  apply RegexCheckerMore.fits_loop_transparent;
    [exact Hs | apply RegexCheckerFacts.init_sound].
Qed.

Lemma RegexChecker_cache_transparent_witness :
  let warm :=
    (RegexCheckerImpl.fits Parser.compile_regex Re.re_match
       Examples.dog_policy "subjects" "Dog" (RegexCheckerImpl.init 2)).2 in
  (RegexCheckerImpl.fits Parser.compile_regex Re.re_match
     Examples.dog_policy "subjects" "Dogger" warm).1
  = (RegexCheckerImpl.fits Parser.compile_regex Re.re_match
       Examples.dog_policy "subjects" "Dogger" (RegexCheckerImpl.init 0)).1.
Proof.
  intros warm.
  apply (proj2 (RegexChecker_cache_transparent Parser.compile_regex
                  Re.re_match 2 warm
                  (Ghost.reach_fits _ _ 2 _ Examples.dog_policy "subjects"
                     "Dog" (Ghost.reach_init _ _ 2)))).
Defined.

(** ** String checkers *)

Module StringCheckerMore.
Import StringCheckerImpl.

Lemma append_assoc (a b c : string) :
  ((a ++ b) ++ c)%string = (a ++ (b ++ c))%string.
Proof.
  induction a as [|x a IH]; [reflexivity|].
  rewrite !PyStrFacts.append_cons, IH. reflexivity.
Qed.

Lemma append_empty_r (a : string) : (a ++ EmptyString)%string = a.
Proof.
  induction a as [|x a IH]; [reflexivity|].
  rewrite PyStrFacts.append_cons, IH. reflexivity.
Qed.

Lemma occurs_in_refl (s : string) : Spec.occurs_in s s.
Proof.
  exists EmptyString, EmptyString.
  rewrite PyStrFacts.append_nil, append_empty_r. reflexivity.
Qed.

Lemma occurs_in_trans (a b c : string) :
  Spec.occurs_in a b -> Spec.occurs_in b c -> Spec.occurs_in a c.
Proof.
  intros [b1 [a1 ->]] [b2 [a2 ->]].
  exists (b2 ++ b1)%string, (a1 ++ a2)%string.
  rewrite !append_assoc. reflexivity.
Qed.

(** An item in which the start tag does not occur is not taken for a
    tagged one. *)
Lemma literal_not_tagged (policy : Policy) (item : string) :
  ~ Spec.occurs_in (start_tag policy) item ->
  item <> EmptyString ->
  is_tagged policy item = Ok false.
Proof.
  intros Hl Hne. destruct item as [|c rest]; [congruence|].
  unfold is_tagged. simpl PyStr.first. cbv iota.
  destruct (String.eqb_spec (start_tag policy) (String c EmptyString)) as [E|E];
    [|reflexivity].
  exfalso. apply Hl. rewrite E. exists EmptyString, rest. reflexivity.
Qed.

Lemma last_wrapped (a b : ascii) (body : string) :
  PyStr.last (String a (body ++ String b EmptyString))
  = Ok (String b EmptyString).
Proof.
  revert a. induction body as [|c body IH]; intros a; [reflexivity|].
  rewrite PyStrFacts.append_cons.
  change (PyStr.last (String a (String c (body ++ String b EmptyString))))
    with (PyStr.last (String c (body ++ String b EmptyString))).
  apply IH.
Qed.

Lemma drop_last_snoc (b : ascii) (body : string) :
  PyStr.drop_last (body ++ String b EmptyString) = body.
Proof.
  induction body as [|c body IH]; [reflexivity|].
  rewrite PyStrFacts.append_cons.
  destruct body as [|d body].
  - reflexivity.
  - rewrite PyStrFacts.append_cons in *.
    change (PyStr.drop_last (String c (String d (body ++ String b EmptyString))))
      with (String c (PyStr.drop_last (String d (body ++ String b EmptyString)))).
    rewrite IH. reflexivity.
Qed.

(** A scan that finds a fitting item still finds one when the comparison
    gets more generous, by another checker or another value. *)
Lemma fits_loop_weaken (c1 c2 : StringChecker) (policy : Policy)
    (what1 what2 : string) (items : list string) :
  (forall h, @compare c1 what1 h = true -> @compare c2 what2 h = true) ->
  fits_loop c1 policy what1 items = Ok true ->
  fits_loop c2 policy what2 items = Ok true.
Proof.
  intros Hc. induction items as [|item items IH]; simpl; [discriminate|].
  destruct (is_tagged policy item) as [t|e]; [|discriminate].
  destruct (@compare c1 what1 (if t then PyStr.strip_ends item else item)) eqn:E1.
  - intros _. rewrite (Hc _ E1). reflexivity.
  - intros H. rewrite (IH H).
    destruct (@compare c2 what2 (if t then PyStr.strip_ends item else item));
      reflexivity.
Qed.

Section Errors.
Context (self : StringChecker) (policy : Policy) (what : string).



End Errors.

End StringCheckerMore.


(** X7. Whatever fits by [StringExactChecker] fits by
    [StringFuzzyChecker]: the two share the loop and the stripping of tags,
    and an equal string is contained. *)
Theorem StringChecker_exact_implies_fuzzy (policy : Policy)
    (field what : string) :
  StringCheckerImpl.fits StringExactChecker policy field what = Ok true ->
  StringCheckerImpl.fits StringFuzzyChecker policy field what = Ok true.
Proof.
  apply StringCheckerMore.fits_loop_weaken. intros h H.
  apply StringCheckerFacts.exact_compare in H. subst h.
  apply StringCheckerFacts.fuzzy_compare, StringCheckerMore.occurs_in_refl.
Qed.

Lemma StringChecker_exact_implies_fuzzy_witness :
  StringCheckerImpl.fits StringFuzzyChecker Examples.tagged_policy
    "subjects" "sunny" = Ok true.
Proof.
  apply (StringChecker_exact_implies_fuzzy Examples.tagged_policy
           "subjects" "sunny").
  reflexivity.
Defined.

(** X8. With [StringFuzzyChecker], a value that fits makes every part of
    itself fit too: a shorter value is never turned down where a longer one
    that contains it was taken. *)
Theorem StringFuzzyChecker_fits_part (policy : Policy)
    (field what part : string) :
  StringCheckerImpl.fits StringFuzzyChecker policy field what = Ok true ->
  Spec.occurs_in part what ->
  StringCheckerImpl.fits StringFuzzyChecker policy field part = Ok true.
Proof.
  intros Hfit Hpart. revert Hfit.
  apply StringCheckerMore.fits_loop_weaken. intros h H.
  apply StringCheckerFacts.fuzzy_compare.
  apply StringCheckerFacts.fuzzy_compare in H.
  exact (StringCheckerMore.occurs_in_trans _ _ _ Hpart H).
Qed.

Lemma StringFuzzyChecker_fits_part_witness :
  StringCheckerImpl.fits StringFuzzyChecker Examples.tagged_policy
    "subjects" "unn" = Ok true.
Proof.
  apply (StringFuzzyChecker_fits_part Examples.tagged_policy
           "subjects" "sunny" "unn").
  - reflexivity.
  - exists "s"%string, "y"%string. reflexivity.
Defined.

(** X9. With [StringFuzzyChecker] the empty value fits every field whose
    first item is not the empty string, whatever the items are: the empty
    string is contained in everything. *)
Theorem StringFuzzyChecker_fits_empty_value (policy : Policy)
    (field item : string) (rest : list string) :
  getattr policy field = item :: rest ->
  item <> EmptyString ->
  StringCheckerImpl.fits StringFuzzyChecker policy field EmptyString = Ok true.
Proof.
  intros Hf Hne. unfold StringCheckerImpl.fits. rewrite Hf. simpl.
  destruct (StringCheckerFacts.is_tagged_nonempty policy item Hne)
    as [t [Ht _]].
  rewrite Ht.
  destruct (if t then PyStr.strip_ends item else item); reflexivity.
Qed.

Lemma StringFuzzyChecker_fits_empty_value_witness :
  StringCheckerImpl.fits StringFuzzyChecker Examples.literal_policy
    "subjects" EmptyString = Ok true.
Proof.
  apply (StringFuzzyChecker_fits_empty_value Examples.literal_policy
           "subjects" "Max" ["Nina"%string]).
  - reflexivity.
  - discriminate.
Defined.

(** X10. An item written as start tag, body, end tag is compared as its
    body: with one-character tags, a field of this one item fits exactly
    the values [compare] takes for the body, for every string checker. *)
Theorem StringChecker_fits_wrapped (self : StringChecker) (policy : Policy)
    (field what body : string) (a b : ascii) :
  start_tag policy = String a EmptyString ->
  end_tag policy = String b EmptyString ->
  getattr policy field = [String a (body ++ String b EmptyString)] ->
  StringCheckerImpl.fits self policy field what = Ok (compare what body).
Proof.
  intros Hs He Hf. unfold StringCheckerImpl.fits. rewrite Hf. simpl.
  unfold StringCheckerImpl.is_tagged. simpl PyStr.first. cbv iota.
  rewrite Hs, String.eqb_refl, StringCheckerMore.last_wrapped.
  rewrite He, String.eqb_refl. cbv iota.
  unfold PyStr.strip_ends. rewrite StringCheckerMore.drop_last_snoc.
  destruct (compare what body); reflexivity.
Qed.

Lemma StringChecker_fits_wrapped_witness :
  StringCheckerImpl.fits StringExactChecker
    (Examples.policy_with ["<sunny>"%string]) "subjects" "sunny"
  = Ok (@compare StringExactChecker "sunny" "sunny").
Proof.
  apply (StringChecker_fits_wrapped StringExactChecker
           (Examples.policy_with ["<sunny>"%string]) "subjects" "sunny"
           "sunny" "<" ">"); reflexivity.
Defined.

(** X11. On a field whose items are all literal and none empty,
    [RegexChecker.fits] and [StringExactChecker]'s [fits] give the same
    answer, and the regex checker is left as it was. *)
Theorem RegexChecker_agrees_with_exact {Pattern : Type}
    (compile_regex : string -> string -> string -> outcome pyexn Pattern)
    (re_match : Pattern -> string -> bool)
    (policy : Policy) (field what : string) (self : RegexChecker Pattern) :
  Forall (fun item => Spec.literal_item policy item /\ item <> EmptyString)
    (getattr policy field) ->
  RegexCheckerImpl.fits compile_regex re_match policy field what self
  = (StringCheckerImpl.fits StringExactChecker policy field what, self).
Proof.
  unfold RegexCheckerImpl.fits, StringCheckerImpl.fits.
  induction 1 as [|item items [Hl Hne] _ IH]; [reflexivity|].
  rewrite RegexCheckerFacts.fits_loop_cons.
  rewrite (proj2 (RegexCheckerFacts.is_literal_spec policy item) Hl).
  simpl StringCheckerImpl.fits_loop.
  rewrite (StringCheckerMore.literal_not_tagged policy item (proj1 Hl) Hne).
  simpl. rewrite (String.eqb_sym what item).
  destruct (String.eqb item what); simpl; [reflexivity | exact IH].
Qed.

Lemma RegexChecker_agrees_with_exact_witness :
  RegexCheckerImpl.fits Parser.compile_regex Re.re_match
    Examples.literal_policy "subjects" "Nina" (RegexCheckerImpl.init 4)
  = (StringCheckerImpl.fits StringExactChecker Examples.literal_policy
       "subjects" "Nina", RegexCheckerImpl.init 4).
Proof.
  apply (RegexChecker_agrees_with_exact Parser.compile_regex Re.re_match
           Examples.literal_policy "subjects" "Nina" (RegexCheckerImpl.init 4)).
  repeat constructor;
    try (apply PyStrFacts.contains_false; reflexivity); discriminate.
Defined.

(** ** Conditions *)

Module ConditionMore.
Import StringPairsEqualCondition Ghost.

Lemma satisfied_loop_app (l1 l2 : list pyval) :
  satisfied_loop (l1 ++ l2)
  = match satisfied_loop l1 with
    | Ok true => satisfied_loop l2
    | other => other
    end.
Proof.
  induction l1 as [|p l1 IH]; [reflexivity|].
  simpl. destruct (check_pair p) as [[|]|e]; [exact IH | reflexivity..].
Qed.

(** The call raises what one turn of the loop raises, at the first
    element that is not a pair of equal strings. *)
Lemma satisfied_raises_at {Request : Type} (what : pyval)
    (request : Request) (e : pyexn) :
  satisfied what request = Raise e
  <-> exists pre p rest,
        what = VList (pre ++ p :: rest)
        /\ Forall Spec.equal_string_pair pre
        /\ check_pair p = Raise e.
Proof.
  split.
  - destruct what; simpl; try discriminate. intros H.
    destruct (ConditionFacts.satisfied_loop_stops _ _ H)
      as [pre [p [rest [-> Hrest]]]]; [discriminate|].
    exists pre, p, rest. split; [reflexivity | exact Hrest].
  - intros [pre [p [rest [-> [Hpre Hp]]]]]. simpl.
    rewrite (ConditionFacts.satisfied_loop_first pre (p :: rest) Hpre).
    simpl. rewrite Hp. reflexivity.
Qed.

(** A string counts as a pair when it is one character twice. *)
Lemma good_pair_str (s : string) :
  good_pair (VStr s) = true
  <-> exists c, s = String c (String c EmptyString).
Proof.
  unfold good_pair. simpl.
  destruct s as [|c [|d [|x s]]]; simpl;
    try (split; [discriminate | intros [c' H]; discriminate]).
  split.
  - destruct (Ascii.eqb c d) eqn:E; [|discriminate].
    apply Ascii.eqb_eq in E. subst d. intros _. exists c. reflexivity.
  - intros [c' H]. injection H as -> ->. rewrite Ascii.eqb_refl. reflexivity.
Qed.

Lemma forallb_map_str (f : pyval -> bool) (ss : list string) :
  forallb f (map VStr ss) = forallb (fun s => f (VStr s)) ss.
Proof.
  induction ss as [|s ss IH]; [reflexivity|]. simpl. rewrite IH. reflexivity.
Qed.

End ConditionMore.

(** X12. [StringEqualCondition] can be built from a string and from
    nothing else, where the constructor raises [TypeError]; once built from
    a string it is satisfied by that string and by no other value, of
    whatever type. *)
Theorem StringEqualCondition_built_and_satisfied {Request : Type}
    (v : pyval) (request : Request) :
  (StringEqualConditionImpl.init v = Raise TypeError
   <-> PyVal.is_str v = false)
  /\ forall s what,
       exists c,
         StringEqualConditionImpl.init (VStr s) = Ok c
         /\ (StringEqualConditionImpl.satisfied c what request = true
             <-> what = VStr s).
Proof.
  split.
  - destruct v; simpl; split; try reflexivity; discriminate.
  - intros s what. eexists. split; [reflexivity|].
    unfold StringEqualConditionImpl.satisfied. simpl. split.
    + intros H. apply andb_true_iff in H. destruct H as [_ H].
      exact (ConditionFacts.eqb_str_r _ _ H).
    + intros ->. simpl. apply String.eqb_refl.
Qed.

(** X13. [StringPairsEqualCondition.satisfied] raises nothing but
    [TypeError] and [KeyError]; the length test guards the two index
    reads of a sequence, so it never raises [IndexError]. It raises on a
    list that has, after pairs of equal strings only, an element that
    cannot be read as a pair: [TypeError] when [len] is not defined on the
    element, or when the element is a set of two members, which cannot be
    indexed; [KeyError] when the element is a dict of two keys that lacks
    the key 0 or the key 1. *)
Theorem StringPairsEqual_satisfied_raises_iff {Request : Type}
    (what : pyval) (request : Request) :
  (forall e, StringPairsEqualCondition.satisfied what request = Raise e ->
             e = TypeError \/ e = KeyError)
  /\ (StringPairsEqualCondition.satisfied what request = Raise TypeError
      <-> exists pre p rest,
            what = VList (pre ++ p :: rest)
            /\ Forall Spec.equal_string_pair pre
            /\ (Spec.no_length p \/ Spec.pair_set p))
  /\ (StringPairsEqualCondition.satisfied what request = Raise KeyError
      <-> exists pre p rest,
            what = VList (pre ++ p :: rest)
            /\ Forall Spec.equal_string_pair pre
            /\ Spec.unkeyed_dict p).
Proof.
  split; [|split].
  - intros e H. apply ConditionMore.satisfied_raises_at in H.
    destruct H as [pre [p [rest [_ [_ H]]]]].
    exact (ConditionFacts.check_pair_raises p e H).
  - rewrite ConditionMore.satisfied_raises_at.
    split; intros [pre [p [rest [Hw [Hpre Hp]]]]]; exists pre, p, rest;
      (split; [exact Hw|]); (split; [exact Hpre|]);
      apply ConditionFacts.check_pair_type_iff, Hp.
  - rewrite ConditionMore.satisfied_raises_at.
    split; intros [pre [p [rest [Hw [Hpre Hp]]]]]; exists pre, p, rest;
      (split; [exact Hw|]); (split; [exact Hpre|]);
      apply ConditionFacts.check_pair_key_iff, Hp.
Qed.

(** X14. [StringPairsEqualCondition.satisfied] on two lists put end to
    end is the answer on the first when that is false or an error, and the
    answer on the second otherwise. *)
Theorem StringPairsEqual_satisfied_app {Request : Type}
    (l1 l2 : list pyval) (request : Request) :
  StringPairsEqualCondition.satisfied (VList (l1 ++ l2)) request
  = match StringPairsEqualCondition.satisfied (VList l1) request with
    | Ok true => StringPairsEqualCondition.satisfied (VList l2) request
    | other => other
    end.
Proof. apply ConditionMore.satisfied_loop_app. Qed.

(** X15. On one pair that has a string on either side,
    [StringPairsEqualCondition.satisfied] answers as a
    [StringEqualCondition] built from that string answers on the other
    element. *)
Theorem StringPairsEqual_one_pair {Request : Type}
    (a : string) (x : pyval) (request : Request) :
  StringPairsEqualCondition.satisfied (VList [VList [VStr a; x]]) request
  = Ok (StringEqualConditionImpl.satisfied {| equals := a |} x request)
  /\ StringPairsEqualCondition.satisfied (VList [VList [x; VStr a]]) request
     = Ok (StringEqualConditionImpl.satisfied {| equals := a |} x request).
Proof.
  unfold StringEqualConditionImpl.satisfied. simpl equals.
  split; destruct x as [| | |s| | | | |]; try reflexivity.
  - simpl. unfold StringPairsEqualCondition.check_pair. simpl.
    rewrite (String.eqb_sym a s). destruct (String.eqb s a); reflexivity.
  - simpl. unfold StringPairsEqualCondition.check_pair. simpl.
    destruct (String.eqb s a); reflexivity.
Qed.

(** X16. A list of strings never makes
    [StringPairsEqualCondition.satisfied] raise, and satisfies it exactly
    when every string is one character written twice: a string has a
    length and can be indexed, so it passes for a pair. *)
Theorem StringPairsEqual_strings_as_pairs {Request : Type}
    (ss : list string) (request : Request) :
  exists b,
    StringPairsEqualCondition.satisfied (VList (map VStr ss)) request = Ok b
    /\ (b = true
        <-> Forall (fun s => exists c, s = String c (String c EmptyString)) ss).
Proof.
  exists (forallb (fun s => Ghost.good_pair (VStr s)) ss). split.
  - simpl. rewrite ConditionFacts.satisfied_loop_total.
    + rewrite ConditionMore.forallb_map_str. reflexivity.
    + apply Forall_forall. intros p Hp.
      apply list_elem_of_In, in_map_iff in Hp. destruct Hp as [s [<- _]].
      eexists. reflexivity.
  - rewrite forallb_forall, Forall_forall. split.
    + intros H s Hs. apply ConditionMore.good_pair_str, H, list_elem_of_In, Hs.
    + intros H s Hs. apply ConditionMore.good_pair_str, H, list_elem_of_In, Hs.
Qed.

(** ** Callers of the observable storage *)

Module CallsFacts.
Import ObservableMutationStorage Calls.

Section Facts.
Context {Pol Uid Inq Chk Val Exc Env Obs : Type}.
Context (storage : Storage Pol Uid Inq Chk Val Exc Env).
Context (run_observer : Obs -> Env -> outcome Exc unit * Env).

Local Abbreviation state := (ObservableMutationStorage.state Env Obs).
Local Abbreviation event := (ObservableMutationStorage.event Obs).

(** What one call adds to the events: the call of the wrapped storage
    and, after a mutating method only, one round of notification. *)
Lemma mutate_events (m : method) (call : Env -> outcome Exc Val * Env)
    (s : state) :
  observers (mutate run_observer m call s).2 = observers s
  /\ (events (mutate run_observer m call s).2 = events s ++ [Delegated m]
      \/ exists called,
           events (mutate run_observer m call s).2
           = events s ++ Delegated m :: Notified :: map Invoked called).
Proof.
  pose proof (ObservableFacts.mutate_notifies_once run_observer m call s) as H.
  unfold notifies_once in H.
  destruct (call (env s)) as [[res|x] e].
  - destruct H as [[e1 [_ H]]|[called [o [rest [e1 [x [e2 [_ [_ [_ H]]]]]]]]]];
      rewrite H; (split; [reflexivity|]); right; eexists; reflexivity.
  - rewrite H. split; [reflexivity | left; reflexivity].
Qed.

Lemma run_call_events (c : call) (s : state) :
  observers (run_call storage run_observer c s).2 = observers s
  /\ (events (run_call storage run_observer c s).2
      = events s ++ [Delegated (method_of c)]
      \/ is_mutation (method_of c) = true
         /\ exists called,
              events (run_call storage run_observer c s).2
              = events s ++ Delegated (method_of c) :: Notified
                            :: map Invoked called).
Proof.
  destruct c;
    unfold run_call, method_of, add, update, delete, get, get_all,
      find_for_inquiry;
    try (match goal with
         | |- context [proxy ?m ?call s] =>
             destruct (ObservableFacts.proxy_delegates m call s)
               as [_ [_ [Hobs Hev]]];
             split; [exact Hobs | left; exact Hev]
         end).
  - destruct (mutate_events MAdd (st_add storage policy) s) as [Hobs [H|H]];
      (split; [exact Hobs|]); [left; exact H | right; split; [reflexivity | exact H]].
  - destruct (mutate_events MUpdate (st_update storage policy) s) as [Hobs [H|H]];
      (split; [exact Hobs|]); [left; exact H | right; split; [reflexivity | exact H]].
  - destruct (mutate_events MDelete (st_delete storage uid) s) as [Hobs [H|H]];
      (split; [exact Hobs|]); [left; exact H | right; split; [reflexivity | exact H]].
Qed.

Lemma ordered_snoc (evs : list event) (e : event) :
  notified_after_mutation evs /\ invoked_in_round evs ->
  follows evs e ->
  notified_after_mutation (evs ++ [e]) /\ invoked_in_round (evs ++ [e]).
Proof.
  intros [Hn Hi] He. split.
  - intros pre post Heq.
    destruct post as [|x post _] using rev_ind.
    + apply app_inj_tail in Heq. destruct Heq as [-> ->].
      destruct He as [m [Hl Hm]]. apply last_Some in Hl.
      destruct Hl as [pre' ->]. exists pre', m. split; [reflexivity | exact Hm].
    + rewrite app_comm_cons, app_assoc in Heq. apply app_inj_tail in Heq.
      destruct Heq as [-> _]. exact (Hn pre post eq_refl).
  - intros pre post o Heq.
    destruct post as [|x post _] using rev_ind.
    + apply app_inj_tail in Heq. destruct Heq as [-> ->].
      destruct He as [Hl|[o' Hl]]; apply last_Some in Hl;
        destruct Hl as [pre' ->]; eexists pre', _;
        (split; [reflexivity|]); [left; reflexivity | right; eexists; reflexivity].
    + rewrite app_comm_cons, app_assoc in Heq. apply app_inj_tail in Heq.
      destruct Heq as [-> _]. exact (Hi pre post o eq_refl).
Qed.

Lemma ordered_invoked (evs : list event) (called : list Obs) :
  notified_after_mutation evs /\ invoked_in_round evs ->
  (last evs = Some Notified \/ exists o', last evs = Some (Invoked o')) ->
  notified_after_mutation (evs ++ map Invoked called)
  /\ invoked_in_round (evs ++ map Invoked called).
Proof.
  revert evs. induction called as [|o called IH]; intros evs Hq Hl.
  - simpl. rewrite app_nil_r. exact Hq.
  - simpl.
    replace (evs ++ Invoked o :: map Invoked called)
      with ((evs ++ [Invoked o]) ++ map Invoked called)
      by (rewrite <- app_assoc; reflexivity).
    apply IH.
    + apply ordered_snoc; [exact Hq | exact Hl].
    + right. exists o. apply last_snoc.
Qed.

Lemma run_call_ordered (c : call) (s : state) :
  notified_after_mutation (events s) /\ invoked_in_round (events s) ->
  notified_after_mutation (events (run_call storage run_observer c s).2)
  /\ invoked_in_round (events (run_call storage run_observer c s).2).
Proof.
  intros Hq.
  destruct (run_call_events c s) as [_ [H|[Hm [called H]]]]; rewrite H.
  - apply ordered_snoc; [exact Hq | exact I].
  - replace (events s ++ Delegated (method_of c) :: Notified
                      :: map Invoked called)
      with (((events s ++ [Delegated (method_of c)]) ++ [Notified])
              ++ map Invoked called)
      by (rewrite <- !app_assoc; reflexivity).
    apply ordered_invoked.
    + apply ordered_snoc.
      * apply ordered_snoc; [exact Hq | exact I].
      * exists (method_of c). split; [apply last_snoc | exact Hm].
    + left. apply last_snoc.
Qed.

Lemma run_calls_ordered (cs : list call) (s : state) :
  notified_after_mutation (events s) /\ invoked_in_round (events s) ->
  observers (run_calls storage run_observer cs s) = observers s
  /\ notified_after_mutation (events (run_calls storage run_observer cs s))
  /\ invoked_in_round (events (run_calls storage run_observer cs s)).
Proof.
  revert s. induction cs as [|c cs IH]; intros s Hq.
  - split; [reflexivity | exact Hq].
  - simpl. destruct (IH _ (run_call_ordered c s Hq)) as [Hobs Hq'].
    split; [|exact Hq'].
    rewrite Hobs. exact (proj1 (run_call_events c s)).
Qed.

End Facts.

Section Recording.
Context {Pol Uid Inq Chk Val Exc Env Obs : Type}.
Context (inner : Storage Pol Uid Inq Chk Val Exc Env).
Context (run_observer :
           Obs -> list (@call Pol Uid Inq Chk Val) * Env
           -> outcome Exc unit * (list (@call Pol Uid Inq Chk Val) * Env)).
(** The subscribers do not call the storage. *)
Hypothesis observers_keep :
  forall o le, (run_observer o le).2.1 = le.1.

Local Abbreviation state :=
  (ObservableMutationStorage.state (list (@call Pol Uid Inq Chk Val) * Env) Obs).

Lemma notify_loop_keeps (obs : list Obs) (s : state) :
  (env (notify_loop run_observer obs s).2).1 = (env s).1.
Proof.
  revert s. induction obs as [|o obs IH]; intros s; [reflexivity|].
  simpl. pose proof (observers_keep o (env s)) as Ho.
  destruct (run_observer o (env s)) as [[u|x] e]; simpl in Ho.
  - rewrite IH. exact Ho.
  - exact Ho.
Qed.

Lemma mutate_keeps (m : method)
    (call_ : list (@call Pol Uid Inq Chk Val) * Env
             -> outcome Exc Val * (list (@call Pol Uid Inq Chk Val) * Env))
    (s : state) :
  (env (mutate run_observer m call_ s).2).1 = (call_ (env s)).2.1.
Proof.
  unfold mutate. destruct (call_ (env s)) as [[res|x] e]; [|reflexivity].
  unfold notify.
  pose proof (notify_loop_keeps
                (observers (record (Delegated m) e s))
                (record Notified (env (record (Delegated m) e s))
                   (record (Delegated m) e s))) as H.
  destruct (notify_loop run_observer _ _) as [[u|x] s2]; exact H.
Qed.

Lemma proxy_keeps (m : method)
    (call_ : list (@call Pol Uid Inq Chk Val) * Env
             -> outcome Exc Val * (list (@call Pol Uid Inq Chk Val) * Env))
    (s : state) :
  (env (proxy m call_ s).2).1 = (call_ (env s)).2.1.
Proof. unfold proxy. destruct (call_ (env s)) as [r e]. reflexivity. Qed.

(** One call of the wrapper hands one call to the storage: the same
    method with the same arguments. *)
Lemma run_call_recorded (c : call) (s : state) :
  (env (run_call (recording inner) run_observer c s).2).1
  = (env s).1 ++ [c].
Proof.
  destruct c; unfold run_call, add, update, delete, get, get_all,
    find_for_inquiry;
    rewrite ?mutate_keeps, ?proxy_keeps; simpl;
    match goal with
    | |- context [?f inner ?a ?b ?e] => destruct (f inner a b e)
    | |- context [?f inner ?a ?e] => destruct (f inner a e)
    end; reflexivity.
Qed.

Lemma run_calls_recorded (cs : list call) (s : state) :
  (env (run_calls (recording inner) run_observer cs s)).1
  = (env s).1 ++ cs.
Proof.
  revert s. induction cs as [|c cs IH]; intros s.
  - simpl. rewrite app_nil_r. reflexivity.
  - simpl. rewrite IH, run_call_recorded, <- app_assoc. reflexivity.
Qed.

End Recording.
End CallsFacts.

Section Callers.
Import ObservableMutationStorage.
Context {Pol Uid Inq Chk Val Exc Env Obs : Type}.
Context (storage : Storage Pol Uid Inq Chk Val Exc Env).
Context (run_observer : Obs -> Env -> outcome Exc unit * Env).

(** X18. Over any sequence of calls of the wrapper, [notify()] is only
    ever entered right after [add], [update] or [delete] of the wrapped
    storage ran, never after a read and never twice in a row; and a
    subscriber only runs right after [notify()] was entered or right
    after another subscriber. Both orderings are kept from any state in
    which they hold. *)
Theorem ObservableMutationStorage_notifies_after_mutation_only
    (cs : list (@Calls.call Pol Uid Inq Chk Val)) (s : state Env Obs) :
  Calls.notified_after_mutation (events s) ->
  Calls.invoked_in_round (events s) ->
  Calls.notified_after_mutation
    (events (Calls.run_calls storage run_observer cs s))
  /\ Calls.invoked_in_round
       (events (Calls.run_calls storage run_observer cs s)).
Proof.
  intros Hn Hi.
  exact (proj2 (CallsFacts.run_calls_ordered storage run_observer cs s
                  (conj Hn Hi))).
Qed.

End Callers.

Lemma ObservableMutationStorage_notifies_after_mutation_only_witness :
  let s := Examples.start_state [true; false; true] in
  let cs := [Calls.CGet tt; Calls.CAdd tt; Calls.CGetAll 1 0;
             Calls.CDelete tt; Calls.CFindForInquiry tt None] in
  Calls.notified_after_mutation
    (ObservableMutationStorage.events
       (Calls.run_calls Examples.counting_storage Examples.run_bool_observer
          cs s))
  /\ Calls.invoked_in_round
       (ObservableMutationStorage.events
          (Calls.run_calls Examples.counting_storage
             Examples.run_bool_observer cs s)).
Proof.
  intros s cs.
  apply (ObservableMutationStorage_notifies_after_mutation_only
           Examples.counting_storage Examples.run_bool_observer cs s).
  - intros [|e pre] post H; simpl in H; discriminate H.
  - intros [|e pre] post o H; simpl in H; discriminate H.
Defined.

(** X17. Every call made on the wrapper reaches the wrapped storage as a
    call of the method of the same name with the same arguments: when the
    subscribers do not themselves call the storage, a storage that writes
    down the calls it is given ends up with exactly the calls made on the
    wrapper, once each and in order, whatever the storage answers and
    whatever the subscribers do, return or raise. *)
Theorem ObservableMutationStorage_forwards_each_call
    {Pol Uid Inq Chk Val Exc Env Obs : Type}
    (inner : ObservableMutationStorage.Storage Pol Uid Inq Chk Val Exc Env)
    (run_observer :
       Obs -> list (@Calls.call Pol Uid Inq Chk Val) * Env
       -> outcome Exc unit * (list (@Calls.call Pol Uid Inq Chk Val) * Env))
    (cs : list (@Calls.call Pol Uid Inq Chk Val))
    (s : ObservableMutationStorage.state
           (list (@Calls.call Pol Uid Inq Chk Val) * Env) Obs) :
  (forall o le, (run_observer o le).2.1 = le.1) ->
  (ObservableMutationStorage.env
     (Calls.run_calls (Calls.recording inner) run_observer cs s)).1
  = (ObservableMutationStorage.env s).1 ++ cs.
Proof.
  intros Hkeep. apply CallsFacts.run_calls_recorded. exact Hkeep.
Qed.

Lemma ObservableMutationStorage_forwards_each_call_witness :
  let run_observer (o : bool) (le : list (@Calls.call unit unit unit unit nat) * nat) :=
    ((Examples.run_bool_observer o le.2).1,
     (le.1, (Examples.run_bool_observer o le.2).2)) in
  let cs := [Calls.CUpdate tt; Calls.CGet tt; Calls.CAdd tt;
             Calls.CGetAll 1 0; Calls.CDelete tt;
             Calls.CFindForInquiry tt None] in
  (ObservableMutationStorage.env
     (Calls.run_calls (Calls.recording Examples.counting_storage)
        run_observer cs
        {| ObservableMutationStorage.env := ([], 0);
           ObservableMutationStorage.observers := [true; false; true];
           ObservableMutationStorage.events := [] |})).1
  = cs.
Proof.
  intros run_observer cs.
  apply (ObservableMutationStorage_forwards_each_call
           Examples.counting_storage run_observer cs).
  intros o le. reflexivity.
Defined.
